(** * GraphSAGE forward pass and training step (graphsage/pytorch_models.py)

    A shallow embedding of [MeanAggregator] and [GSSupervised] together with
    the torch primitives they call, and the properties of the forward pass:
    feature-level bookkeeping, aggregation order, pooling, dimension wiring
    and the shape errors of the reshape. *)

From stdpp Require Import base tactics option numbers list.

(** ** Python exceptions and fallible results *)

(** The reasons for which the torch primitives used by the source raise a
    [RuntimeError]. *)
Inductive torch_error : Type :=
| invalid_view_shape    (* view: shape is invalid for input of size n *)
| ambiguous_view_shape  (* view: the -1 dimension of a 0-element tensor is ambiguous *)
| matmul_shape          (* linear: mat1 and mat2 shapes cannot be multiplied *)
| cat_shape.            (* cat: sizes of tensors must match except in dimension 1 *)

(** [IndexError] is raised by an index out of range, [AssertionError] by
    the [assert] statement of [forward]; what an injected sampler raises is
    kept apart from both as [SamplerError]. *)
Inductive exn : Type :=
| RuntimeError (why : torch_error)
| IndexError
| AssertionError
| SamplerError (code : nat).

Inductive result (A : Type) : Type :=
| Ok (a : A)
| Raise (e : exn).
Arguments Ok {A} a.
Arguments Raise {A} e.

#[global] Instance result_ret : MRet result := λ A a, Ok a.
#[global] Instance result_bind : MBind result := λ A B f r,
  match r with
  | Ok a => f a
  | Raise e => Raise e
  end.

Definition is_ok {A} (r : result A) : Prop := ∃ a, r = Ok a.
Definition raises {A} (r : result A) : Prop := ∃ e, r = Raise e.

(** ** Scalars

    The element type of tensors with the arithmetic the source relies on.
    [s_of_nat] converts an element count (for the mean), [s_eps] is the
    [eps] of [F.normalize]. *)
Class Scalar (R : Type) : Type := {
  s_zero : R;
  s_add : R → R → R;
  s_mul : R → R → R;
  s_div : R → R → R;
  s_sqrt : R → R;
  s_max : R → R → R;
  s_of_nat : nat → R;
  s_eps : R
}.

(** Exactness laws of the arithmetic used by the pooling with one sample. *)
Class ExactScalar (R : Type) `{Scalar R} : Prop := {
  s_add_zero_l : ∀ x : R, s_add s_zero x = x;
  s_div_one : ∀ x : R, s_div x (s_of_nat 1) = x
}.

(** Integers with truncated division are an instance; they serve to evaluate
    the model on concrete inputs. *)
#[global] Instance Z_scalar : Scalar Z := {|
  s_zero := 0%Z;
  s_add := Z.add;
  s_mul := Z.mul;
  s_div := Z.div;
  s_sqrt := Z.sqrt;
  s_max := Z.max;
  s_of_nat := Z.of_nat;
  s_eps := 1%Z
|}.

(** ** Tensors

    A contiguous tensor is its shape and its row-major storage, as in torch:
    [view] only changes the shape. *)
Module Tensor.
Section ops.
Context {R : Type} `{Scalar R}.

(** 2-D tensor *)
Record t : Type := mk { rows : nat; cols : nat; storage : list R }.

(** 3-D tensor *)
Record t3 : Type := mk3 { dim0 : nat; dim1 : nat; dim2 : nat; storage3 : list R }.

Definition wf (m : t) : Prop := length (storage m) = rows m * cols m.

Definition item (l : list R) (i : nat) : R := default s_zero (l !! i).

(** [m[i]], the i-th row *)
Definition row (m : t) (i : nat) : list R :=
  take (cols m) (drop (i * cols m) (storage m)).

Definition sum (l : list R) : R := foldl s_add s_zero l.

(** [torch.zeros((r, c))] *)
Definition zeros (r c : nat) : t := mk r c (replicate (r * c) s_zero).

(** [features[ids]] for a batch of row indices *)
Definition index (features : t) (ids : list nat) : result t :=
  if forallb (λ i, i <? rows features) ids
  then Ok (mk (length ids) (cols features) (i ← ids; row features i))
  else Raise IndexError.

(** [torch.cat(ts, dim=1)] *)
Definition cat_dim1 (ts : list t) : result t :=
  match ts with
  | [] => Raise (RuntimeError cat_shape)
  | t0 :: _ =>
      if forallb (λ u, rows u =? rows t0) ts
      then Ok (mk (rows t0) (sum_list (cols <$> ts))
                  (i ← seq 0 (rows t0); u ← ts; row u i))
      else Raise (RuntimeError cat_shape)
  end.

(** [m.view(n, -1, d)] on a contiguous tensor, with torch's inference of
    the -1 dimension: with [newsize] the product of the given dimensions,
    the shape is accepted when [numel = newsize] or [newsize > 0] divides
    [numel]; an accepted shape with [newsize = 0] is then refused, since
    any size would do for the -1 dimension; otherwise the -1 dimension is
    [numel / newsize]. *)
Definition view (m : t) (n d : nat) : result t3 :=
  let numel := rows m * cols m in
  let newsize := n * d in
  if (numel =? newsize) || ((0 <? newsize) && (numel `mod` newsize =? 0))
  then
    if newsize =? 0 then Raise (RuntimeError ambiguous_view_shape)
    else Ok (mk3 n (numel `div` newsize) d (storage m))
  else Raise (RuntimeError invalid_view_shape).

(** element (i, s, j) of a contiguous 3-D tensor *)
Definition item3 (a : t3) (i s j : nat) : R :=
  item (storage3 a) (i * (dim1 a * dim2 a) + s * dim2 a + j).

(** [a.mean(dim=1)] *)
Definition mean_dim1 (a : t3) : t :=
  mk (dim0 a) (dim2 a)
     (i ← seq 0 (dim0 a);
      (λ j, s_div (sum ((λ s, item3 a i s j) <$> seq 0 (dim1 a)))
                  (s_of_nat (dim1 a))) <$> seq 0 (dim2 a)).

(** an elementwise function *)
Definition map (f : R → R) (m : t) : t :=
  mk (rows m) (cols m) (f <$> storage m).

Definition dot (u v : list R) : R :=
  foldl (λ acc p, s_add acc (s_mul p.1 p.2)) s_zero (zip u v).

(** [F.normalize(m, dim=1)]: every row divided by max(||row||_2, eps) *)
Definition normalize_row (v : list R) : list R :=
  let nrm := s_max (s_sqrt (dot v v)) s_eps in
  (λ x, s_div x nrm) <$> v.

Definition normalize (m : t) : t :=
  mk (rows m) (cols m) (i ← seq 0 (rows m); normalize_row (row m i)).
End ops.
Arguments t : clear implicits.
Arguments t3 : clear implicits.
End Tensor.

(** ** nn.Linear *)
Module Linear.
Section ops.
Context {R : Type} `{Scalar R}.

(** [weight] is out_features x in_features, [bias] has out_features
    entries when present. *)
Record t : Type := mk {
  in_features : nat;
  out_features : nat;
  weight : list R;
  bias : option (list R)
}.

Definition weight_row (fc : t) (o : nat) : list R :=
  take (in_features fc) (drop (o * in_features fc) (weight fc)).

Definition out_item (fc : t) (v : list R) (o : nat) : R :=
  match bias fc with
  | Some b => s_add (Tensor.item b o) (Tensor.dot v (weight_row fc o))
  | None => Tensor.dot v (weight_row fc o)
  end.

(** [fc(x)] = x W^T (+ b) *)
Definition forward (fc : t) (x : Tensor.t R) : result (Tensor.t R) :=
  if Tensor.cols x =? in_features fc
  then Ok (Tensor.mk (Tensor.rows x) (out_features fc)
             (i ← seq 0 (Tensor.rows x);
              out_item fc (Tensor.row x i) <$> seq 0 (out_features fc)))
  else Raise (RuntimeError matmul_shape).

(** [nn.Linear(input_dim, output_dim, bias)]; the initial parameters are
    drawn by torch: [w] and [b] give the values drawn, of which the weight
    takes output_dim * input_dim and the bias output_dim. *)
Definition init (input_dim output_dim : nat) (w : list R) (b : option (list R)) : t :=
  mk input_dim output_dim (take (output_dim * input_dim) w) (take output_dim <$> b).
End ops.
Arguments t : clear implicits.
End Linear.

(** ** MeanAggregator *)
Module MeanAggregator.
Section defs.
Context {R : Type} `{Scalar R}.

(** [activation] is an optional elementwise function (such as F.relu),
    [combine_fn] any function from a list of tensors to a tensor. *)
Record t : Type := mk {
  fc_x : Linear.t R;
  fc_neib : Linear.t R;
  output_dim_ : nat;
  activation : option (R → R);
  combine_fn : list (Tensor.t R) → result (Tensor.t R)
}.

(** the default [combine_fn]: [lambda x: torch.cat(x, dim=1)] *)
Definition default_combine_fn : list (Tensor.t R) → result (Tensor.t R) :=
  Tensor.cat_dim1.

(** [__init__]; [w_x] and [w_neib] are the initial weights of the two
    projections. *)
Definition init (input_dim output_dim : nat) (activation : option (R → R))
    (combine_fn : list (Tensor.t R) → result (Tensor.t R))
    (w_x w_neib : list R) : t :=
  mk (Linear.init input_dim output_dim w_x None)
     (Linear.init input_dim output_dim w_neib None)
     output_dim activation combine_fn.

(** the [output_dim] property *)
Definition output_dim (self : t) : result nat :=
  let tmp := Tensor.zeros 1 (output_dim_ self) in
  out ← combine_fn self [tmp; tmp];
  mret (Tensor.cols out).

Definition apply_activation (self : t) (out : Tensor.t R) : Tensor.t R :=
  match activation self with
  | Some f => Tensor.map f out
  | None => out
  end.

Definition forward (self : t) (x neibs : Tensor.t R) : result (Tensor.t R) :=
  x_emb ← Linear.forward (fc_x self) x;
  agg_neib ← Tensor.view neibs (Tensor.rows x) (Tensor.cols neibs);
  let agg_neib := Tensor.mean_dim1 agg_neib in
  neib_emb ← Linear.forward (fc_neib self) agg_neib;
  out ← combine_fn self [x_emb; neib_emb];
  mret (apply_activation self out).
End defs.
Arguments t : clear implicits.
End MeanAggregator.

(** ** GSSupervised *)

(** What a call of an injected sampler gives: the node ids it returns, or
    the error it raises. *)
Inductive sampled : Type :=
| Sampled (ids : list nat)
| SamplerRaised (code : nat).

Module GSSupervised.
Section defs.
Context {R : Type} `{Scalar R} {Adj : Type}.

(** One entry of [layer_specs]. The sampler returns a tensor of node ids;
    what the model keeps of it is its row-major element sequence
    ([.contiguous().view(-1)]). *)
Record layer_spec : Type := mk_spec {
  sample_fn : list nat → Adj → nat → sampled;
  n_samples : nat;
  output_dim : nat;
  activation : option (R → R)
}.

Record t : Type := mk {
  sampler_fns : list (list nat → Adj → sampled);
  agg_layers : list (MeanAggregator.t R);
  fc : Linear.t R;
  learning_rate : R;
  weight_decay : R
}.

(** *** Calls observed during a run *)
Inductive call : Type :=
| sampler_call (ids : list nat) (adj : Adj)
| agg_call (agg : MeanAggregator.t R) (x neibs : Tensor.t R)
| forward_call (ids : list nat)
| zero_grad_call
| loss_call (preds labels : Tensor.t R)
| backward_call
| clip_grad_norm_call (max_norm : nat)
| optimizer_step_call.

(** A computation returns or raises, and leaves the list of the calls it
    made up to that point. *)
Definition py (A : Type) : Type := (result A * list call)%type.

#[global] Instance py_ret : MRet py := λ A a, (Ok a, []).
#[global] Instance py_bind : MBind py := λ A B f c,
  match c.1 with
  | Ok a => let c' := f a in (c'.1, c.2 ++ c'.2)
  | Raise e => (Raise e, c.2)
  end.

Definition lift {A} (r : result A) : py A := (r, []).
Definition raise {A} (e : exn) : py A := (Raise e, []).
Definition tell (c : call) : py () := (Ok (), [c]).

(** [l[k]] on a Python list *)
Definition getitem {A} (l : list A) (k : nat) : py A :=
  match l !! k with
  | Some a => mret a
  | None => raise IndexError
  end.

(** *** __init__ *)

(** The loop over [layer_specs]: [draw k] gives the initial values of
    the k-th parameter tensor created. *)
Fixpoint build_layers (draw : nat → list R) (k input_dim : nat)
    (specs : list layer_spec) (agg_layers : list (MeanAggregator.t R))
    : result (list (MeanAggregator.t R) * nat) :=
  match specs with
  | [] => Ok (agg_layers, input_dim)
  | spec :: specs' =>
      let agg := MeanAggregator.init input_dim (output_dim spec) (activation spec)
                   MeanAggregator.default_combine_fn (draw (2 * k)) (draw (2 * k + 1)) in
      input_dim' ← MeanAggregator.output_dim agg;
      build_layers draw (S k) input_dim' specs' (agg_layers ++ [agg])
  end.

Definition init (input_dim num_classes : nat) (layer_specs : list layer_spec)
    (learning_rate weight_decay : R) (draw : nat → list R) : result t :=
  let sampler_fns :=
    (λ s, λ ids adj, sample_fn s ids adj (n_samples s)) <$> layer_specs in
  built ← build_layers draw 0 input_dim layer_specs [];
  let k := length layer_specs in
  mret (mk sampler_fns built.1
          (Linear.init built.2 num_classes (draw (2 * k)) (Some (draw (2 * k + 1))))
          learning_rate weight_decay).

(** *** _sample *)
(** [sampler_fn(ids=ids, adj=adj).contiguous().view(-1)] *)
Definition apply_sampler (sampler_fn : list nat → Adj → sampled)
    (ids : list nat) (adj : Adj) : py (list nat) :=
  _ ← tell (sampler_call ids adj);
  match sampler_fn ids adj with
  | Sampled ids' => mret ids'
  | SamplerRaised code => raise (SamplerError code)
  end.

Fixpoint sample_loop (fns : list (list nat → Adj → sampled))
    (ids : list nat) (features : Tensor.t R) (adj : Adj)
    (all_feats : list (Tensor.t R)) : py (list (Tensor.t R)) :=
  match fns with
  | [] => mret all_feats
  | sampler_fn :: fns' =>
      ids' ← apply_sampler sampler_fn ids adj;
      feats ← lift (Tensor.index features ids');
      sample_loop fns' ids' features adj (all_feats ++ [feats])
  end.

Definition _sample (self : t) (ids : list nat) (features : Tensor.t R) (adj : Adj)
    : py (list (Tensor.t R)) :=
  feats ← lift (Tensor.index features ids);
  sample_loop (sampler_fns self) ids features adj [feats].

(** *** forward *)

(** [agg_layer(x, neibs)] *)
Definition apply_agg (agg : MeanAggregator.t R) (x neibs : Tensor.t R)
    : py (Tensor.t R) :=
  _ ← tell (agg_call agg x neibs);
  lift (MeanAggregator.forward agg x neibs).

(** [[agg_layer(all_feats[k], all_feats[k + 1]) for k in range(len(all_feats) - 1)]] *)
Definition reduce_round (agg_layer : MeanAggregator.t R)
    (all_feats : list (Tensor.t R)) : py (list (Tensor.t R)) :=
  mapM (λ k, x ← getitem all_feats k;
             neibs ← getitem all_feats (k + 1);
             apply_agg agg_layer x neibs)
       (seq 0 (length all_feats - 1)).

(** [for agg_layer in self.agg_layers.children(): all_feats = ...]; the
    aggregators are distinct modules, so [children()] yields every one of
    them, in the order of the container. *)
Fixpoint reduce_loop (children : list (MeanAggregator.t R))
    (all_feats : list (Tensor.t R)) : py (list (Tensor.t R)) :=
  match children with
  | [] => mret all_feats
  | agg_layer :: children' =>
      all_feats' ← reduce_round agg_layer all_feats;
      reduce_loop children' all_feats'
  end.

(** [assert len(all_feats) == 1] and the rest of [forward] *)
Definition finish (self : t) (all_feats : list (Tensor.t R)) : py (Tensor.t R) :=
  if length all_feats =? 1 then
    out ← getitem all_feats 0;
    let out := Tensor.normalize out in
    lift (Linear.forward (fc self) out)
  else raise AssertionError.

Definition forward (self : t) (ids : list nat) (features : Tensor.t R) (adj : Adj)
    : py (Tensor.t R) :=
  all_feats ← _sample self ids features adj;
  all_feats ← reduce_loop (agg_layers self) all_feats;
  finish self all_feats.

(** *** train_step *)

(** The autograd engine and the optimizer are external: [Var] is a tensor
    that tracks gradients, [Optim] the state they own (gradient buffers
    and Adam moments). *)
Class Trainer (Var Optim : Type) : Type := {
  multilabel_soft_margin_loss : Tensor.t R → Tensor.t R → Var;
  var_data_0 : Var → R;                         (* loss.data[0] *)
  zero_grad : Optim → Optim;
  backward : Var → Optim → Optim;
  clip_grad_norm : nat → Optim → Optim;
  optimizer_step : t → Optim → t * Optim
}.

(** A training computation runs on the model and the optimizer state,
    both of which it may update. *)
Definition training (Optim A : Type) : Type := t * Optim → py A * (t * Optim).

Definition tr_ret {Optim A} (a : A) : training Optim A := λ w, (mret a, w).
Definition tr_bind {Optim A B} (c : training Optim A) (f : A → training Optim B)
    : training Optim B := λ w,
  let r := c w in
  match r.1.1 with
  | Ok a => let r' := f a r.2 in ((r'.1.1, r.1.2 ++ r'.1.2), r'.2)
  | Raise e => ((Raise e, r.1.2), r.2)
  end.
Definition tr_lift {Optim A} (c : t → py A) : training Optim A := λ w, (c w.1, w).
Definition tr_optim {Optim} (c : call) (f : Optim → Optim) : training Optim () :=
  λ w, (tell c, (w.1, f w.2)).
Definition tr_step {Optim} (c : call) (f : t → Optim → t * Optim) : training Optim () :=
  λ w, (tell c, f w.1 w.2).

Definition train_step {Var Optim} {trainer : Trainer Var Optim}
    (ids : list nat) (features : Tensor.t R) (adj : Adj) (labels : Tensor.t R)
    : training Optim (Tensor.t R * R) :=
  tr_bind (tr_optim zero_grad_call zero_grad) (λ _,
  tr_bind (tr_lift (λ self, _ ← tell (forward_call ids);
                            forward self ids features adj)) (λ preds,
  tr_bind (tr_lift (λ _, tell (loss_call preds labels))) (λ _,
  let loss := multilabel_soft_margin_loss preds labels in
  tr_bind (tr_optim backward_call (backward loss)) (λ _,
  tr_bind (tr_optim (clip_grad_norm_call 5) (clip_grad_norm 5)) (λ _,
  tr_bind (tr_step optimizer_step_call optimizer_step) (λ _,
  tr_ret (preds, var_data_0 loss))))))).

(** *** Reading a list of calls *)
Definition agg_of_call (c : call) : option (MeanAggregator.t R) :=
  match c with
  | agg_call agg _ _ => Some agg
  | _ => None
  end.

(** the aggregators applied, in the order of their application *)
Definition applied_aggs (calls : list call) : list (MeanAggregator.t R) :=
  omap agg_of_call calls.

Definition is_sampler_call (c : call) : Prop :=
  match c with
  | sampler_call _ _ => True
  | _ => False
  end.

Definition is_agg_call (c : call) : Prop :=
  match c with
  | agg_call _ _ _ => True
  | _ => False
  end.

(** the ids that the samplers return one after the other, every sampler
    on the ids returned by the one before it, the first on [ids]; nothing
    when one of them raises *)
Fixpoint sampled_ids (fns : list (list nat → Adj → sampled)) (ids : list nat)
    (adj : Adj) : option (list (list nat)) :=
  match fns with
  | [] => Some []
  | sampler_fn :: fns' =>
      match sampler_fn ids adj with
      | Sampled ids' => (ids' ::.) <$> sampled_ids fns' ids' adj
      | SamplerRaised _ => None
      end
  end.

(** the arguments of the aggregator calls *)
Definition agg_call_args (P : Tensor.t R → Prop) (c : call) : Prop :=
  match c with
  | agg_call _ x neibs => P x ∧ P neibs
  | _ => True
  end.

(** the order in which the reduction loop over [children] applies the
    aggregators to a list of [n] levels: every aggregator once per
    adjacent pair of the list it receives *)
Fixpoint schedule (children : list (MeanAggregator.t R)) (n : nat)
    : list (MeanAggregator.t R) :=
  match children with
  | [] => []
  | agg_layer :: children' => replicate (n - 1) agg_layer ++ schedule children' (n - 1)
  end.

(** *** Statements about computations *)

(** [post Q E T c]: if [c] returns, its value satisfies [Q]; if it raises,
    the exception satisfies [E]; every call it made satisfies [T]. *)
Definition post {A} (Q : A → Prop) (E : exn → Prop) (T : call → Prop)
    (c : py A) : Prop :=
  match c.1 with
  | Ok a => Q a
  | Raise e => E e
  end ∧ Forall T c.2.

(** what [_sample] may raise: an index out of range, or the error of a
    sampler *)
Definition sample_error (e : exn) : Prop :=
  e = IndexError ∨ ∃ code, e = SamplerError code.

(** what a torch primitive raises *)
Definition torch_runtime_error (e : exn) : Prop := ∃ why, e = RuntimeError why.

(** *** What __init__ builds, in closed form *)
Fixpoint layers_of (draw : nat → list R) (k input_dim : nat)
    (specs : list layer_spec) : list (MeanAggregator.t R) :=
  match specs with
  | [] => []
  | spec :: specs' =>
      MeanAggregator.init input_dim (output_dim spec) (activation spec)
        MeanAggregator.default_combine_fn (draw (2 * k)) (draw (2 * k + 1))
      :: layers_of draw (S k) (2 * output_dim spec) specs'
  end.

Definition final_width (input_dim : nat) (specs : list layer_spec) : nat :=
  match last specs with
  | Some spec => 2 * output_dim spec
  | None => input_dim
  end.

(** *** Row counts of the feature levels *)
Definition prod_list (ns : list nat) : nat := foldr Nat.mul 1 ns.

(** level k has N * n_1 * ... * n_k rows *)
Definition rows_profile (N : nat) (ns : list nat) (levels : list (Tensor.t R)) : Prop :=
  ∀ k lvl, levels !! k = Some lvl → Tensor.rows lvl = N * prod_list (take k ns).

(** an aggregator call on a level of N * n_1 * ... * n_k rows and a level
    of n_(k+1) times as many *)
Definition pair_ratio (N : nat) (ns : list nat) (c : call) : Prop :=
  match c with
  | agg_call _ x neibs =>
      ∃ k n, ns !! k = Some n
             ∧ Tensor.rows x = N * prod_list (take k ns)
             ∧ Tensor.rows neibs = Tensor.rows x * n
  | _ => True
  end.

(** the levels that a round on width [d] receives: the row counts above,
    at most one level more than there are layers, and [d] columns each *)
Definition level_widths (N : nat) (ns : list nat) (d : nat)
    (levels : list (Tensor.t R)) : Prop :=
  rows_profile N ns levels ∧ length levels ≤ length ns + 1
  ∧ Forall (λ lvl, Tensor.cols lvl = d) levels.

(** a layer spec with a positive sample count and output width *)
Definition positive_spec (spec : layer_spec) : Prop :=
  0 < n_samples spec ∧ 0 < output_dim spec.

(** a sampler that on [adj] returns for the ids of [features], with ids of
    [features] *)
Definition closed_sampler (features : Tensor.t R) (adj : Adj) (spec : layer_spec) : Prop :=
  ∀ ids,
    Forall (λ i, i < Tensor.rows features) ids →
    ∃ out, sample_fn spec ids adj (n_samples spec) = Sampled out
           ∧ Forall (λ i, i < Tensor.rows features) out.

(** the output-length contract of the sampler of a layer *)
Definition sampler_contract (spec : layer_spec) : Prop :=
  ∀ ids adj out,
    sample_fn spec ids adj (n_samples spec) = Sampled out →
    length out = length ids * n_samples spec.
End defs.
Arguments t : clear implicits.
Arguments layer_spec : clear implicits.
Arguments call : clear implicits.
Arguments py : clear implicits.
End GSSupervised.

(** ** The aggregation as the specification words it

    Section 4.2: the neighbor rows are taken in [N] groups of [n_samples]
    consecutive rows, every group is averaged elementwise, both batches are
    projected, combined and passed through the activation. *)
Module Spec.
Section defs.
Context {R : Type} `{Scalar R}.

(** the rows of a batch, one vector per row *)
Definition rows_of (m : Tensor.t R) : list (list R) :=
  reshape (replicate (Tensor.rows m) (Tensor.cols m)) (Tensor.storage m).

Definition vec_add (u v : list R) : list R := zip_with s_add u v.

(** elementwise mean of a group of vectors of width [d] *)
Definition group_mean (d : nat) (group : list (list R)) : list R :=
  (λ x, s_div x (s_of_nat (length group))) <$>
    foldl vec_add (replicate d s_zero) group.

(** one pooled vector per group of [n_samples] consecutive rows *)
Definition pool (N n_samples : nat) (neighbor_features : Tensor.t R) : Tensor.t R :=
  let groups := reshape (replicate N n_samples) (rows_of neighbor_features) in
  Tensor.mk N (Tensor.cols neighbor_features)
    (mjoin (group_mean (Tensor.cols neighbor_features) <$> groups)).

Definition aggregate (n_samples : nat) (agg : MeanAggregator.t R)
    (self_features neighbor_features : Tensor.t R) : result (Tensor.t R) :=
  x_emb ← Linear.forward (MeanAggregator.fc_x agg) self_features;
  neib_emb ← Linear.forward (MeanAggregator.fc_neib agg)
               (pool (Tensor.rows self_features) n_samples neighbor_features);
  out ← MeanAggregator.combine_fn agg [x_emb; neib_emb];
  mret (match MeanAggregator.activation agg with
        | Some f => Tensor.map f out
        | None => out
        end).

(** the projection of one vector: one dot product per output feature, and
    the bias when there is one *)
Definition project (fc : Linear.t R) (v : list R) : list R :=
  Linear.out_item fc v <$> seq 0 (Linear.out_features fc).

(** the embedding of one node, from its own vector of width [d] and the
    group of the vectors of its sampled neighbors *)
Definition aggregate_row (agg : MeanAggregator.t R) (d : nat) (v : list R)
    (group : list (list R)) : list R :=
  let out := project (MeanAggregator.fc_x agg) v
             ++ project (MeanAggregator.fc_neib agg) (group_mean d group) in
  match MeanAggregator.activation agg with
  | Some f => f <$> out
  | None => out
  end.

(** concatenation along the feature axis, row by row *)
Definition concat_features (a b : Tensor.t R) : Tensor.t R :=
  Tensor.mk (Tensor.rows a) (Tensor.cols a + Tensor.cols b)
    (mjoin (zip_with app (rows_of a) (rows_of b))).
End defs.
End Spec.

(** ** Concrete inputs *)
Module Example.
Open Scope Z_scope.

Definition features : Tensor.t Z := Tensor.mk 4 2 [1; 2; 3; 4; 5; 6; 7; 8].
Definition x : Tensor.t Z := Tensor.mk 2 2 [1; 2; 3; 4].
Definition neibs : Tensor.t Z := Tensor.mk 4 2 [1; 2; 3; 4; 5; 6; 7; 8].
Definition neibs1 : Tensor.t Z := Tensor.mk 2 2 [5; 6; 7; 8].
Definition relu (z : Z) : Z := Z.max 0 z.
Definition agg : MeanAggregator.t Z :=
  MeanAggregator.init 2 3 (Some relu) MeanAggregator.default_combine_fn
    [1; 0; 0; 1; 1; 1] [1; -1; 2; 0; 0; 2].

(** adjacency lists; the sampler repeats the first neighbor of every id
    (the id itself when it has none) *)
Definition adj : list (list nat) := [[1; 2]; [2]; [3; 0]; [0]]%nat.
Definition first_neighbor (ids : list nat) (adj : list (list nat)) (n : nat) : sampled :=
  Sampled (i ← ids; replicate n (default i (head (default [] (adj !! i))))).
Definition ids : list nat := [0; 1; 2]%nat.
Definition layer_specs : list (GSSupervised.layer_spec Z (list (list nat))) :=
  [GSSupervised.mk_spec first_neighbor 2 2 (Some relu);
   GSSupervised.mk_spec first_neighbor 3 1 None].
Definition draw (k : nat) : list Z := replicate 12 (Z.of_nat k + 1).

(** the model that [__init__] builds from them for features of width 2 and
    3 classes *)
Definition model : GSSupervised.t Z (list (list nat)) :=
  GSSupervised.mk
    ((λ s : GSSupervised.layer_spec Z (list (list nat)),
        λ ids adj, GSSupervised.sample_fn s ids adj (GSSupervised.n_samples s))
       <$> layer_specs)
    (GSSupervised.layers_of draw 0 2 layer_specs)
    (Linear.init 2 3 (draw 4) (Some (draw 5)))
    0 0.

(** the feature levels of [ids] and the calls of the samplers *)
Definition levels : list (Tensor.t Z) :=
  [Tensor.mk 3 2 [1; 2; 3; 4; 5; 6];
   Tensor.mk 6 2 [3; 4; 3; 4; 5; 6; 5; 6; 7; 8; 7; 8];
   Tensor.mk 18 2 [5; 6; 5; 6; 5; 6; 5; 6; 5; 6; 5; 6;
                   7; 8; 7; 8; 7; 8; 7; 8; 7; 8; 7; 8;
                   1; 2; 1; 2; 1; 2; 1; 2; 1; 2; 1; 2]].
Definition sampler_calls : list (GSSupervised.call Z (list (list nat))) :=
  [GSSupervised.sampler_call [0; 1; 2]%nat adj;
   GSSupervised.sampler_call [1; 1; 2; 2; 3; 3]%nat adj].
Definition logits : Tensor.t Z := Tensor.mk 3 3 [6; 6; 6; 6; 6; 6; 6; 6; 6].

(** its two aggregators and the levels left by the first round *)
Definition agg0 : MeanAggregator.t Z :=
  MeanAggregator.init 2 2 (Some relu) MeanAggregator.default_combine_fn (draw 0) (draw 1).
Definition agg1 : MeanAggregator.t Z :=
  MeanAggregator.init 4 1 None MeanAggregator.default_combine_fn (draw 2) (draw 3).
Definition round1 : list (Tensor.t Z) :=
  [Tensor.mk 3 4 [3; 3; 14; 14; 7; 7; 22; 22; 11; 11; 30; 30];
   Tensor.mk 6 4 [7; 7; 22; 22; 7; 7; 22; 22; 11; 11; 30; 30;
                  11; 11; 30; 30; 15; 15; 6; 6; 15; 15; 6; 6]].

(** a sampler that raises, one that returns ids that [features] does not
    have, and one that returns two ids whatever the batch *)
Definition raising_sampler (ids : list nat) (adj : list (list nat)) : sampled :=
  SamplerRaised 7.
Definition stray_sampler (ids : list nat) (adj : list (list nat)) : sampled :=
  Sampled ((λ i, i + 4)%nat <$> ids).
Definition short_sampler (ids : list nat) (adj : list (list nat)) (n : nat) : sampled :=
  Sampled [0; 1]%nat.

(** features of width 3 *)
Definition wide_features : Tensor.t Z :=
  Tensor.mk 4 3 [1; 2; 3; 4; 5; 6; 7; 8; 9; 10; 11; 12].

(** labels, and a stand-in for autograd and the optimizer: the optimizer
    state is the list of the gradients it holds *)
Definition labels : Tensor.t Z := Tensor.mk 3 3 [1; 0; 0; 0; 1; 0; 0; 0; 1].
#[local] Instance trainer : GSSupervised.Trainer (R:=Z) (Adj:=list (list nat)) Z (list Z) := {|
  GSSupervised.multilabel_soft_margin_loss preds labels :=
    Tensor.sum (zip_with Z.mul (Tensor.storage preds) (Tensor.storage labels));
  GSSupervised.var_data_0 loss := loss;
  GSSupervised.zero_grad _ := [];
  GSSupervised.backward loss grads := loss :: grads;
  GSSupervised.clip_grad_norm max_norm grads := Z.min (Z.of_nat max_norm) <$> grads;
  GSSupervised.optimizer_step self grads := (self, grads)
|}.
End Example.

(** * Properties *)

(** ** Row-major storage *)
Section flat.
Context {A : Type}.
Implicit Types (g : nat → list A) (l : list A).

Lemma length_bind_const g (D : nat) (ks : list nat) :
  (∀ i, length (g i) = D) → length (ks ≫= g) = length ks * D.
Proof.
  intros Hg. induction ks as [|k ks IH]; [done|].
  rewrite bind_cons, length_app, IH, Hg. simpl. lia.
Qed.

Lemma lookup_bind_seq g (D N b i j : nat) :
  (∀ i, length (g i) = D) → i < N → j < D →
  (seq b N ≫= g) !! (i * D + j) = g (b + i) !! j.
Proof.
  intros Hg. revert b i. induction N as [|N IH]; intros b i Hi Hj; [lia|].
  simpl seq. rewrite bind_cons. destruct i as [|i].
  - rewrite lookup_app_l by (rewrite Hg; lia). by rewrite Nat.add_0_r.
  - rewrite lookup_app_r by (rewrite Hg; lia).
    rewrite Hg. replace (S i * D + j - D) with (i * D + j) by lia.
    rewrite IH by lia. f_equal. f_equal. lia.
Qed.

Lemma lookup_reshape_replicate l (m n i : nat) :
  i < m → reshape (replicate m n) l !! i = Some (take n (drop (i * n) l)).
Proof.
  revert l i. induction m as [|m IH]; intros l i Hi; [lia|].
  destruct i as [|i]; simpl; [done|].
  rewrite IH by lia. by rewrite drop_drop.
Qed.

End flat.

Section pooling.
Context {R : Type} `{Scalar R}.
Implicit Types (m neibs x : Tensor.t R) (group : list (list R)).

Lemma view_accepts m (N n : nat) :
  0 < N → 0 < Tensor.cols m → Tensor.rows m = N * n →
  Tensor.view m N (Tensor.cols m)
  = Ok (Tensor.mk3 N n (Tensor.cols m) (Tensor.storage m)).
Proof.
  intros HN HD Hrows. unfold Tensor.view. rewrite Hrows.
  set (D := Tensor.cols m) in *.
  assert (Hnew : 0 < N * D) by nia.
  replace (N * n * D) with (n * (N * D)) by lia.
  rewrite Nat.Div0.mod_mul, Nat.div_mul by lia.
  rewrite (proj2 (Nat.ltb_lt 0 (N * D)) Hnew), Nat.eqb_refl, orb_true_r.
  by rewrite (proj2 (Nat.eqb_neq (N * D) 0)) by lia.
Qed.

Lemma item_take_drop (l : list R) (k D j : nat) :
  j < D → Tensor.item (take D (drop k l)) j = Tensor.item l (k + j).
Proof.
  intros Hj. unfold Tensor.item. by rewrite lookup_take_lt, lookup_drop.
Qed.

Lemma lookup_foldl_vec_add group (acc : list R) (j : nat) (a : R) :
  acc !! j = Some a → Forall (λ r, j < length r) group →
  foldl Spec.vec_add acc group !! j
  = Some (foldl s_add a ((λ r, Tensor.item r j) <$> group)).
Proof.
  intros Hacc Hlen. revert acc a Hacc.
  induction Hlen as [|r group Hr _ IH]; intros acc a Hacc; [done|].
  simpl. apply IH. unfold Spec.vec_add. rewrite lookup_zip_with, Hacc. simpl.
  apply lookup_lt_is_Some_2 in Hr as [y Hy].
  unfold Tensor.item. by rewrite Hy.
Qed.

Lemma length_foldl_vec_add group (acc : list R) (d : nat) :
  length acc = d → Forall (λ r, length r = d) group →
  length (foldl Spec.vec_add acc group) = d.
Proof.
  intros Hacc Hlen. revert acc Hacc.
  induction Hlen as [|r group Hr _ IH]; intros acc Hacc; [done|].
  simpl. apply IH. unfold Spec.vec_add. rewrite length_zip_with. lia.
Qed.

Lemma group_mean_columns (d : nat) group :
  Forall (λ r, length r = d) group →
  Spec.group_mean d group
  = (λ j, s_div (Tensor.sum ((λ r, Tensor.item r j) <$> group))
                (s_of_nat (length group))) <$> seq 0 d.
Proof.
  intros Hlen. unfold Spec.group_mean.
  apply list_eq_same_length with d.
  - by rewrite length_fmap, length_seq.
  - rewrite length_fmap. apply length_foldl_vec_add; [apply length_replicate|done].
  - intros j u v Hj. rewrite !list_lookup_fmap, lookup_seq_lt by done.
    erewrite lookup_foldl_vec_add;
      [|by apply lookup_replicate_2
       |apply (Forall_impl _ _ _ Hlen); intros r ->; exact Hj].
    simpl. unfold Tensor.sum. congruence.
Qed.

Lemma rows_of_lookup m (k : nat) :
  k < Tensor.rows m → Spec.rows_of m !! k = Some (Tensor.row m k).
Proof. intros Hk. unfold Spec.rows_of. by rewrite lookup_reshape_replicate. Qed.

Lemma length_row m (k : nat) :
  Tensor.wf m → k < Tensor.rows m → length (Tensor.row m k) = Tensor.cols m.
Proof.
  unfold Tensor.wf, Tensor.row. intros Hwf Hk.
  rewrite length_take, length_drop, Hwf. nia.
Qed.

Lemma rows_of_width m :
  Tensor.wf m → Forall (λ r, length r = Tensor.cols m) (Spec.rows_of m).
Proof.
  intros Hwf. apply Forall_lookup. intros k r Hr.
  assert (k < Tensor.rows m) as Hk.
  { apply lookup_lt_Some in Hr.
    unfold Spec.rows_of in Hr. by rewrite length_reshape, length_replicate in Hr. }
  rewrite rows_of_lookup in Hr by done. injection Hr as <-. by apply length_row.
Qed.

(** The strided mean of the reshaped storage is the mean of the groups of
    consecutive rows. *)
Lemma mean_dim1_pool neibs (N n : nat) :
  Tensor.wf neibs → Tensor.rows neibs = N * n →
  Tensor.mean_dim1 (Tensor.mk3 N n (Tensor.cols neibs) (Tensor.storage neibs))
  = Spec.pool N n neibs.
Proof.
  intros Hwf Hrows. unfold Tensor.mean_dim1, Spec.pool. simpl. f_equal.
  set (D := Tensor.cols neibs). set (st := Tensor.storage neibs).
  set (rs := Spec.rows_of neibs).
  assert (Hgroups : reshape (replicate N n) rs
                    = (λ i, take n (drop (i * n) rs)) <$> seq 0 N).
  { apply list_eq_same_length with N.
    - by rewrite length_fmap, length_seq.
    - by rewrite length_reshape, length_replicate.
    - intros i u v Hi. rewrite lookup_reshape_replicate by done.
      rewrite list_lookup_fmap, lookup_seq_lt by done. simpl. congruence. }
  rewrite Hgroups, <-list_fmap_compose, list_join_bind, list_fmap_bind.
  apply Forall_bind_ext, Forall_lookup. intros k i [Hik Hi]%lookup_seq.
  simpl in Hik. subst k. simpl.
  rewrite group_mean_columns.
  2:{ apply Forall_take, Forall_drop, rows_of_width, Hwf. }
  assert (Hlen : length (take n (drop (i * n) rs)) = n).
  { rewrite length_take, length_drop. unfold rs, Spec.rows_of.
    rewrite length_reshape, length_replicate. nia. }
  rewrite Hlen. apply list_fmap_ext. intros k j [Hjk Hj]%lookup_seq.
  simpl in Hjk. subst k. simpl.
  f_equal. f_equal.
  apply list_eq_same_length with n; [by rewrite length_fmap|
    by rewrite length_fmap, length_seq|].
  intros s u v Hs. rewrite !list_lookup_fmap, lookup_seq_lt by done.
  rewrite lookup_take_lt, lookup_drop by done.
  unfold rs. rewrite rows_of_lookup by nia. simpl.
  unfold Tensor.item3, Tensor.row. simpl.
  rewrite item_take_drop by lia. fold st D.
  replace ((i * n + s) * D + j) with (i * (n * D) + s * D + j) by lia.
  congruence.
Qed.
End pooling.

Section single_sample.
Context {R : Type} `{ExactScalar R}.

Lemma flat_storage (st : list R) (N D : nat) :
  length st = N * D →
  (seq 0 N ≫= λ i, (λ j, Tensor.item st (i * D + j)) <$> seq 0 D) = st.
Proof.
  intros Hlen.
  assert (Hw : ∀ i : nat,
    length ((λ j, Tensor.item st (i * D + j)) <$> seq 0 D) = D).
  { intros i. by rewrite length_fmap, length_seq. }
  apply list_eq_same_length with (N * D); [done| |].
  { rewrite (length_bind_const _ D) by done. by rewrite length_seq. }
  intros k u v Hk Hu Hv.
  assert (0 < D) as HD by (destruct D; [lia|lia]).
  assert (k = k `div` D * D + k `mod` D) as Hdm.
  { rewrite (Nat.mul_comm (k `div` D)). apply Nat.div_mod. lia. }
  assert (k `mod` D < D) as Hj by (apply Nat.mod_upper_bound; lia).
  assert (k `div` D < N) as Hi.
  { apply Nat.Div0.div_lt_upper_bound. lia. }
  rewrite Hdm, (lookup_bind_seq _ D) in Hu by done.
  rewrite list_lookup_fmap, lookup_seq_lt in Hu by done.
  simpl in Hu. rewrite <-Hdm in Hu. unfold Tensor.item in Hu.
  rewrite Hv in Hu. simpl in Hu. congruence.
Qed.

(** With one sample per row the mean gives the neighbor batch back. *)
Lemma mean_dim1_single (neibs : Tensor.t R) :
  Tensor.wf neibs →
  Tensor.mean_dim1
    (Tensor.mk3 (Tensor.rows neibs) 1 (Tensor.cols neibs) (Tensor.storage neibs))
  = neibs.
Proof.
  intros Hwf. destruct neibs as [N D st]. unfold Tensor.wf in Hwf. simpl in *.
  unfold Tensor.mean_dim1. simpl. f_equal.
  etrans; [|exact (flat_storage st N D Hwf)].
  apply Forall_bind_ext, Forall_lookup. intros ? i _.
  apply list_fmap_ext. intros ? j _. simpl.
  unfold Tensor.sum, Tensor.item3. simpl.
  rewrite s_add_zero_l, s_div_one. f_equal. lia.
Qed.
End single_sample.

(** ** Results *)
Section results.
Context {A B : Type}.

Lemma bind_Ok (r : result A) (f : A → result B) (b : B) :
  r ≫= f = Ok b ↔ ∃ a, r = Ok a ∧ f a = Ok b.
Proof.
  destruct r as [a|e]; simpl; split.
  - intros Hf. by exists a.
  - by intros (a' & [= <-] & Hf).
  - done.
  - by intros (a' & [=] & _).
Qed.

Lemma bind_Raise (r : result A) (f : A → result B) (e : exn) :
  r ≫= f = Raise e ↔ r = Raise e ∨ ∃ a, r = Ok a ∧ f a = Raise e.
Proof.
  destruct r as [a|e']; simpl; split.
  - intros Hf. right. by exists a.
  - by intros [[=]|(a' & [= <-] & Hf)].
  - intros [= <-]. by left.
  - by intros [[= <-]|(a' & [=] & _)].
Qed.
End results.

(** ** Shapes through the primitives *)
Section shapes.
Context {R : Type} `{Scalar R}.
Implicit Types (x y neibs out : Tensor.t R) (fc : Linear.t R)
  (agg : MeanAggregator.t R).

Lemma linear_forward_Ok fc x y :
  Linear.forward fc x = Ok y →
  Tensor.cols x = Linear.in_features fc ∧
  Tensor.rows y = Tensor.rows x ∧ Tensor.cols y = Linear.out_features fc.
Proof.
  unfold Linear.forward. destruct (Nat.eqb_spec (Tensor.cols x) (Linear.in_features fc));
    [|done]. by intros [= <-].
Qed.

Lemma linear_forward_Raise fc x e :
  Linear.forward fc x = Raise e → e = RuntimeError matmul_shape.
Proof. unfold Linear.forward. case_match; congruence. Qed.

Lemma cat_dim1_pair x y :
  Tensor.rows y = Tensor.rows x →
  Tensor.cat_dim1 [x; y]
  = Ok (Tensor.mk (Tensor.rows x) (Tensor.cols x + Tensor.cols y)
          (seq 0 (Tensor.rows x) ≫= λ i, Tensor.row x i ++ Tensor.row y i)).
Proof.
  intros Hrows. unfold Tensor.cat_dim1. simpl.
  rewrite Hrows, Nat.eqb_refl. simpl. f_equal. f_equal; [lia|].
  apply Forall_bind_ext, Forall_lookup. intros ? i _. simpl.
  by rewrite app_nil_r.
Qed.

Lemma cat_dim1_Raise (ts : list (Tensor.t R)) e :
  Tensor.cat_dim1 ts = Raise e → e = RuntimeError cat_shape.
Proof. unfold Tensor.cat_dim1. repeat case_match; congruence. Qed.

Lemma view_Raise neibs (n d : nat) e :
  Tensor.view neibs n d = Raise e →
  e = RuntimeError invalid_view_shape ∨ e = RuntimeError ambiguous_view_shape.
Proof. unfold Tensor.view. repeat case_match; naive_solver. Qed.

(** The reshape is accepted exactly for a non-empty known part that
    divides the number of elements. *)
Lemma view_Ok_iff neibs (n d : nat) :
  is_ok (Tensor.view neibs n d) ↔
  0 < n * d ∧ (n * d | Tensor.rows neibs * Tensor.cols neibs).
Proof.
  unfold Tensor.view, is_ok.
  set (numel := Tensor.rows neibs * Tensor.cols neibs).
  destruct (Nat.eqb_spec (n * d) 0) as [Hz|Hnz].
  - rewrite Hz. simpl. rewrite orb_false_r.
    split; [|lia]. case_match; by intros [? ?].
  - rewrite (proj2 (Nat.ltb_lt 0 (n * d))) by lia. rewrite andb_true_l.
    destruct (Nat.eqb_spec (numel `mod` (n * d)) 0) as [Hm|Hm].
    + rewrite orb_true_r. split; [|by eauto].
      intros _. split; [lia|]. by apply Nat.Lcm0.mod_divide.
    + rewrite orb_false_r. destruct (Nat.eqb_spec numel (n * d)) as [He|He].
      * rewrite He, Nat.Div0.mod_same in Hm. lia.
      * split; [by intros [? ?]|].
        intros [_ Hdiv]. by apply Nat.Lcm0.mod_divide in Hdiv.
Qed.

Lemma view_Ok neibs (n d : nat) a :
  Tensor.view neibs n d = Ok a →
  a = Tensor.mk3 n ((Tensor.rows neibs * Tensor.cols neibs) `div` (n * d)) d
        (Tensor.storage neibs).
Proof.
  unfold Tensor.view. cbv zeta. repeat case_match; try done.
  by intros [= <-].
Qed.

Lemma forward_default_shape agg x neibs out :
  MeanAggregator.combine_fn agg = MeanAggregator.default_combine_fn →
  MeanAggregator.forward agg x neibs = Ok out →
  Tensor.rows out = Tensor.rows x ∧
  Tensor.cols out = Linear.out_features (MeanAggregator.fc_x agg)
                    + Linear.out_features (MeanAggregator.fc_neib agg).
Proof.
  intros Hcomb. unfold MeanAggregator.forward.
  intros (x_emb & Hx & (a & Ha & (neib_emb & Hn & (c & Hc & Hout)%bind_Ok)%bind_Ok)%bind_Ok)%bind_Ok.
  apply linear_forward_Ok in Hx as (_ & Hxr & Hxc).
  apply linear_forward_Ok in Hn as (_ & Hnr & Hnc).
  apply view_Ok in Ha. subst a. simpl in *.
  rewrite Hcomb in Hc. unfold MeanAggregator.default_combine_fn in Hc.
  rewrite cat_dim1_pair in Hc by congruence.
  injection Hc as <-. injection Hout as <-.
  unfold MeanAggregator.apply_activation. destruct (MeanAggregator.activation agg); simpl; lia.
Qed.
End shapes.

#[global] Instance Z_exact : ExactScalar Z.
Proof. split; intros x; simpl; [lia|apply Z.div_1_r]. Qed.

Section aggregator.
Context {R : Type} `{Scalar R}.
Implicit Types (x y neibs out : Tensor.t R) (agg : MeanAggregator.t R).

Lemma default_combine_concat x y :
  Tensor.rows y = Tensor.rows x →
  MeanAggregator.default_combine_fn [x; y] = Ok (Spec.concat_features x y).
Proof.
  intros Hrows. unfold MeanAggregator.default_combine_fn.
  rewrite cat_dim1_pair by done. unfold Spec.concat_features. do 3 f_equal.
  rewrite list_join_bind.
  assert (Hz : zip_with app (Spec.rows_of x) (Spec.rows_of y)
               = (λ i, Tensor.row x i ++ Tensor.row y i) <$> seq 0 (Tensor.rows x)).
  { apply list_eq_same_length with (Tensor.rows x).
    - by rewrite length_fmap, length_seq.
    - unfold Spec.rows_of.
      rewrite length_zip_with, !length_reshape, !length_replicate. lia.
    - intros i u v Hi. rewrite lookup_zip_with, list_lookup_fmap.
      rewrite !rows_of_lookup, lookup_seq_lt by lia. simpl. congruence. }
  by rewrite Hz, list_fmap_bind.
Qed.

Lemma forward_pooled agg x neibs (n : nat) :
  Tensor.wf neibs → 0 < Tensor.rows x → 0 < Tensor.cols neibs →
  Tensor.rows neibs = Tensor.rows x * n →
  MeanAggregator.forward agg x neibs = Spec.aggregate n agg x neibs.
Proof.
  intros Hwf HN HD Hrows. unfold MeanAggregator.forward, Spec.aggregate.
  rewrite (view_accepts neibs (Tensor.rows x) n) by done. simpl.
  by rewrite mean_dim1_pool.
Qed.
End aggregator.

Section reshape.
Context {R : Type} `{Scalar R}.
Implicit Types (x neibs : Tensor.t R) (agg : MeanAggregator.t R).

Lemma result_cases {A} (r : result A) : is_ok r ∨ raises r.
Proof. destruct r as [a|e]; [left|right]; by eexists. Qed.

Lemma view_Ok_divide neibs (n : nat) :
  is_ok (Tensor.view neibs n (Tensor.cols neibs)) → (n | Tensor.rows neibs).
Proof.
  intros [Hpos Hdiv]%view_Ok_iff.
  apply Nat.mul_divide_cancel_r in Hdiv; [done|lia].
Qed.

Lemma view_not_divide neibs (n : nat) :
  ¬ (n | Tensor.rows neibs) → raises (Tensor.view neibs n (Tensor.cols neibs)).
Proof.
  intros Hnd. destruct (result_cases (Tensor.view neibs n (Tensor.cols neibs)));
    [|done]. by destruct Hnd; apply view_Ok_divide.
Qed.

Lemma view_degenerate neibs (n : nat) :
  n = 0 ∨ Tensor.cols neibs = 0 → raises (Tensor.view neibs n (Tensor.cols neibs)).
Proof.
  intros Hz. destruct (result_cases (Tensor.view neibs n (Tensor.cols neibs)))
    as [[Hpos _]%view_Ok_iff|]; [|done]. nia.
Qed.

Lemma forward_raises_of_view agg x neibs :
  raises (Tensor.view neibs (Tensor.rows x) (Tensor.cols neibs)) →
  raises (MeanAggregator.forward agg x neibs).
Proof.
  intros [e He]. unfold MeanAggregator.forward.
  destruct (Linear.forward _ x) as [x_emb|e']; simpl; [|by eexists].
  rewrite He. by eexists.
Qed.
End reshape.

Import GSSupervised.

(** ** Computations with a list of calls *)
Section py.
Context {R : Type} `{Scalar R} {Adj : Type}.
Abbreviation py := (GSSupervised.py R Adj).
Abbreviation call := (GSSupervised.call R Adj).

Lemma py_bind_unfold {A B} (c : py A) (f : A → py B) :
  c ≫= f = match c.1 with
           | Ok a => ((f a).1, c.2 ++ (f a).2)
           | Raise e => (Raise e, c.2)
           end.
Proof. done. Qed.

Lemma py_bind_Ok {A B} (c : py A) (f : A → py B) (b : B) (tr : list call) :
  c ≫= f = (Ok b, tr) ↔
  ∃ a tr1 tr2, c = (Ok a, tr1) ∧ f a = (Ok b, tr2) ∧ tr = tr1 ++ tr2.
Proof.
  rewrite py_bind_unfold. destruct c as [[a|e] tr1]; simpl; split.
  - destruct (f a) as [r tr2] eqn:Hf. simpl. intros [= -> <-]. by exists a, tr1, tr2.
  - intros (a' & tr1' & tr2 & [= <- <-] & -> & ->). done.
  - done.
  - by intros (a' & tr1' & tr2 & [=] & _).
Qed.

Lemma post_bind {A B} (c : py A) (f : A → py B)
    (Q1 : A → Prop) (Q2 : B → Prop) (E : exn → Prop) (T : call → Prop) :
  post Q1 E T c → (∀ a, Q1 a → post Q2 E T (f a)) → post Q2 E T (c ≫= f).
Proof.
  intros [Hc Htr] Hf. rewrite py_bind_unfold.
  destruct c as [[a|e] tr1]; simpl in *; [|done].
  destruct (Hf a Hc) as [Hfa Htr2]. split; [done|]. by apply Forall_app.
Qed.

Lemma post_ret {A} (a : A) (Q : A → Prop) E T : Q a → post Q E T (mret a : py A).
Proof. by split. Qed.

Lemma post_lift {A} (r : result A) (Q : A → Prop) (E : exn → Prop) T :
  (∀ a, r = Ok a → Q a) → (∀ e, r = Raise e → E e) → post Q E T (lift r : py A).
Proof. intros HQ HE. split; [|done]. destruct r; simpl; auto. Qed.

Lemma post_tell (c : call) (Q : () → Prop) E (T : call → Prop) :
  Q () → T c → post Q E T (tell c).
Proof. intros. split; [done|]. by apply Forall_singleton. Qed.

Lemma post_weaken {A} (c : py A) (Q Q' : A → Prop) (E E' : exn → Prop)
    (T T' : call → Prop) :
  post Q E T c → (∀ a, Q a → Q' a) → (∀ e, E e → E' e) → (∀ x, T x → T' x) →
  post Q' E' T' c.
Proof.
  intros [Hc Htr] HQ HE HT. split.
  - destruct c as [[a|e] tr]; simpl in *; auto.
  - eapply Forall_impl; [exact Htr|]. done.
Qed.

Lemma post_getitem {A} (l : list A) (k : nat) (a : A) (Q : A → Prop) E T :
  l !! k = Some a → Q a → post Q E T (getitem l k : py A).
Proof. intros Hk HQ. unfold getitem. rewrite Hk. by apply post_ret. Qed.

(** every element mapped; the results are related to the elements *)
Lemma post_mapM {A B} (f : A → py B) (l : list A)
    (Q : A → B → Prop) (E : exn → Prop) (T : call → Prop) :
  Forall (λ k, post (Q k) E T (f k)) l →
  post (λ ys, Forall2 Q l ys) E T (mapM f l).
Proof.
  induction 1 as [|k l Hk _ IH]; simpl.
  - by apply post_ret.
  - eapply post_bind; [exact Hk|]. intros y Hy. simpl.
    eapply post_bind; [exact IH|]. intros ys Hys. simpl.
    apply post_ret. by constructor.
Qed.

Lemma mapM_py_Ok {A B} (f : A → py B) (l : list A) (ys : list B) (tr : list call) :
  mapM f l = (Ok ys, tr) →
  ∃ trs, Forall3 (λ k y t, f k = (Ok y, t)) l ys trs ∧ tr = mjoin trs.
Proof.
  revert ys tr. induction l as [|k l IH]; intros ys tr; simpl.
  - intros [= <- <-]. exists []. split; [constructor|done].
  - intros (y & t1 & t2 & Hk & (ys' & t3 & t4 & Hl & Hret & ->)%py_bind_Ok & ->)%py_bind_Ok.
    injection Hret as <- <-. destruct (IH _ _ Hl) as (trs & HF & ->).
    exists (t1 :: trs). split; [by constructor|]. simpl. by rewrite app_nil_r.
Qed.
End py.

(** ** Construction *)
Section construction.
Context {R : Type} `{Scalar R} {Adj : Type}.
Abbreviation layer_spec := (GSSupervised.layer_spec R Adj).
Implicit Types (agg : MeanAggregator.t R) (specs : list layer_spec)
  (draw : nat → list R).

Lemma output_dim_default agg :
  MeanAggregator.combine_fn agg = MeanAggregator.default_combine_fn →
  MeanAggregator.output_dim agg = Ok (2 * MeanAggregator.output_dim_ agg).
Proof.
  intros Hcomb. unfold MeanAggregator.output_dim. rewrite Hcomb.
  unfold MeanAggregator.default_combine_fn. rewrite cat_dim1_pair by done.
  simpl. do 2 f_equal. lia.
Qed.

Lemma output_dim_init (d o : nat) (act : option (R → R)) (w_x w_neib : list R) :
  MeanAggregator.output_dim
    (MeanAggregator.init d o act MeanAggregator.default_combine_fn w_x w_neib)
  = Ok (2 * o).
Proof. by apply output_dim_default. Qed.

Lemma final_width_cons (d : nat) (spec : layer_spec) specs :
  final_width d (spec :: specs) = final_width (2 * output_dim spec) specs.
Proof. unfold final_width. rewrite last_cons. by destruct (last specs). Qed.

Lemma final_width_snoc (d : nat) specs (spec : layer_spec) :
  final_width d (specs ++ [spec]) = 2 * output_dim spec.
Proof. unfold final_width. by rewrite last_snoc. Qed.

Lemma build_layers_closed draw (k d : nat) specs (acc : list (MeanAggregator.t R)) :
  build_layers draw k d specs acc
  = Ok (acc ++ layers_of draw k d specs, final_width d specs).
Proof.
  revert k d acc. induction specs as [|spec specs IH]; intros k d acc.
  - simpl. by rewrite app_nil_r.
  - cbn [build_layers layers_of]. cbv zeta.
    rewrite output_dim_init. simpl.
    rewrite IH, final_width_cons, <-app_assoc. done.
Qed.

Lemma init_closed (d c : nat) specs (lr wd : R) draw :
  GSSupervised.init d c specs lr wd draw
  = Ok (GSSupervised.mk
          ((λ s : layer_spec, λ ids adj, sample_fn s ids adj (n_samples s)) <$> specs)
          (layers_of draw 0 d specs)
          (Linear.init (final_width d specs) c (draw (2 * length specs))
             (Some (draw (2 * length specs + 1))))
          lr wd).
Proof. unfold GSSupervised.init. by rewrite build_layers_closed. Qed.

Lemma length_layers_of draw (k d : nat) specs :
  length (layers_of draw k d specs) = length specs.
Proof. revert k d. induction specs; intros; simpl; auto. Qed.

(** the i-th aggregator is built from the i-th layer spec, on the width
    left by the specs before it *)
Lemma layers_of_lookup draw (k d i : nat) specs agg :
  layers_of draw k d specs !! i = Some agg →
  ∃ spec, specs !! i = Some spec ∧
    agg = MeanAggregator.init (final_width d (take i specs)) (output_dim spec)
            (activation spec) MeanAggregator.default_combine_fn
            (draw (2 * (k + i))) (draw (2 * (k + i) + 1)).
Proof.
  revert k d i agg. induction specs as [|spec specs IH]; intros k d i agg; [done|].
  destruct i as [|i]; intros Hl; cbn [layers_of] in Hl.
  - injection Hl as <-. exists spec. split; [done|].
    f_equal; try done; f_equal; lia.
  - apply IH in Hl as (spec' & Hs & ->). exists spec'. split; [done|].
    cbn [take]. rewrite final_width_cons.
    f_equal; try done; f_equal; lia.
Qed.

Lemma layers_of_default draw (k d : nat) specs :
  Forall (λ agg, MeanAggregator.combine_fn agg = MeanAggregator.default_combine_fn)
    (layers_of draw k d specs).
Proof.
  apply Forall_lookup. intros i agg (spec & _ & ->)%layers_of_lookup. done.
Qed.

Lemma final_width_take_S (d i : nat) specs (spec : layer_spec) :
  specs !! i = Some spec → final_width d (take (S i) specs) = 2 * output_dim spec.
Proof.
  intros Hs. erewrite take_S_r by done. apply final_width_snoc.
Qed.
End construction.

(** ** Sampling *)
Section sampling.
Context {R : Type} `{Scalar R} {Adj : Type}.
Abbreviation py := (GSSupervised.py R Adj).
Abbreviation call := (GSSupervised.call R Adj).
Implicit Types (features x : Tensor.t R) (ids : list nat) (adj : Adj)
  (all_feats levels : list (Tensor.t R)).

Lemma index_Ok features ids x :
  Tensor.index features ids = Ok x →
  Tensor.rows x = length ids ∧ Tensor.cols x = Tensor.cols features.
Proof. unfold Tensor.index. case_match; [|done]. by intros [= <-]. Qed.

Lemma index_Raise features ids e :
  Tensor.index features ids = Raise e → e = IndexError.
Proof. unfold Tensor.index. case_match; congruence. Qed.

Lemma post_index features ids (T : call → Prop) :
  post (λ x, Tensor.rows x = length ids ∧ Tensor.cols x = Tensor.cols features)
    sample_error T (lift (Tensor.index features ids) : py _).
Proof.
  apply post_lift; [apply index_Ok|]. intros e ->%index_Raise. by left.
Qed.

Lemma post_apply_sampler (sampler_fn : list nat → Adj → sampled) ids adj
    (Q : list nat → Prop) :
  (∀ out, sampler_fn ids adj = Sampled out → Q out) →
  post Q sample_error is_sampler_call (apply_sampler sampler_fn ids adj : py _).
Proof.
  intros HQ. unfold apply_sampler.
  eapply post_bind; [by apply (post_tell _ (λ _, True))|]. intros _ _.
  destruct (sampler_fn ids adj) as [out|code]; [by apply post_ret; auto|].
  split; [|done]. right. by eexists.
Qed.

(** the loop appends one level per sampler *)
Lemma sample_loop_length (fns : list (list nat → Adj → sampled)) ids features adj
    all_feats :
  post (λ levels, length levels = length all_feats + length fns)
    sample_error is_sampler_call (sample_loop fns ids features adj all_feats).
Proof.
  revert ids all_feats. induction fns as [|fn fns IH]; intros ids all_feats.
  - apply post_ret. simpl. lia.
  - cbn [sample_loop].
    eapply post_bind; [by apply (post_apply_sampler _ _ _ (λ _, True))|].
    intros ids' _.
    eapply post_bind; [apply post_index|]. intros feats _.
    eapply post_weaken; [apply IH| |done|done].
    intros levels ->. rewrite length_app. simpl. lia.
Qed.

Lemma _sample_length (self : GSSupervised.t R Adj) ids features adj :
  post (λ levels, length levels = length (sampler_fns self) + 1)
    sample_error is_sampler_call (_sample self ids features adj).
Proof.
  unfold _sample. eapply post_bind; [apply post_index|]. intros feats _.
  eapply post_weaken; [apply sample_loop_length| |done|done].
  intros levels ->. simpl. lia.
Qed.

Lemma prod_list_snoc (ns : list nat) (n : nat) :
  prod_list (ns ++ [n]) = prod_list ns * n.
Proof.
  unfold prod_list. induction ns as [|m ns IH]; simpl; [lia|]. rewrite IH. lia.
Qed.

Lemma rows_profile_snoc (N : nat) (ns : list nat) levels x (n : nat) :
  length levels = length ns + 1 →
  rows_profile N ns levels →
  Tensor.rows x = N * prod_list (ns ++ [n]) →
  rows_profile N (ns ++ [n]) (levels ++ [x]).
Proof.
  intros Hlen Hprof Hx k lvl Hk.
  destruct (decide (k < length levels)) as [Hlt|Hge].
  - rewrite lookup_app_l in Hk by done. rewrite take_app_le by lia. eauto.
  - rewrite lookup_app_r in Hk by lia.
    apply list_lookup_singleton_Some in Hk as [Hk0 <-].
    rewrite take_ge by (rewrite length_app; simpl; lia). done.
Qed.

(** under the output-length contract level k has N * n_1 * ... * n_k rows *)
Lemma sample_loop_rows (specs : list (GSSupervised.layer_spec R Adj))
    ids features adj all_feats (N : nat) (ns : list nat) :
  Forall sampler_contract specs →
  length all_feats = length ns + 1 →
  rows_profile N ns all_feats →
  length ids = N * prod_list ns →
  post (λ levels, rows_profile N (ns ++ (n_samples <$> specs)) levels)
    (λ _, True) (λ _, True)
    (sample_loop ((λ s : GSSupervised.layer_spec R Adj,
                     λ ids adj, sample_fn s ids adj (n_samples s)) <$> specs)
       ids features adj all_feats).
Proof.
  intros Hc. revert ids all_feats ns.
  induction Hc as [|spec specs Hspec _ IH]; intros ids all_feats ns Hlen Hprof Hids.
  - apply post_ret. simpl. by rewrite app_nil_r.
  - cbn [fmap list_fmap sample_loop].
    eapply post_bind.
    { eapply post_weaken;
        [apply (post_apply_sampler _ _ _
                  (λ out, length out = length ids * n_samples spec))|..]; try done.
      intros out Hout. by apply Hspec in Hout. }
    intros ids' Hids'. simpl.
    eapply post_bind.
    { eapply post_weaken; [apply (post_index _ _ (λ _, True))|..]; done. }
    intros feats [Hrows _]. simpl.
    replace (ns ++ n_samples spec :: (n_samples <$> specs))
      with ((ns ++ [n_samples spec]) ++ (n_samples <$> specs))
      by (by rewrite <-app_assoc).
    apply IH.
    + rewrite !length_app. simpl. lia.
    + apply rows_profile_snoc; [done|done|].
      rewrite Hrows, Hids', Hids, prod_list_snoc. lia.
    + rewrite Hids', Hids, prod_list_snoc. lia.
Qed.

Lemma rows_profile_singleton ids x :
  Tensor.rows x = length ids → rows_profile (length ids) [] [x].
Proof.
  intros Hx k lvl Hk. apply list_lookup_singleton_Some in Hk as [-> <-].
  simpl. unfold prod_list. simpl. lia.
Qed.
End sampling.

(** ** Reduction *)
Section reduction.
Context {R : Type} `{Scalar R} {Adj : Type}.
Abbreviation py := (GSSupervised.py R Adj).
Abbreviation call := (GSSupervised.call R Adj).
Implicit Types (agg : MeanAggregator.t R) (x y out : Tensor.t R)
  (levels : list (Tensor.t R)).

Lemma post_apply_agg agg x y (Q : Tensor.t R → Prop) (E : exn → Prop)
    (T : call → Prop) :
  T (agg_call agg x y) →
  (∀ out, MeanAggregator.forward agg x y = Ok out → Q out) →
  (∀ e, MeanAggregator.forward agg x y = Raise e → E e) →
  post Q E T (apply_agg agg x y : py _).
Proof.
  intros HT HQ HE. unfold apply_agg.
  eapply post_bind; [by apply (post_tell _ (λ _, True))|]. intros _ _.
  by apply post_lift.
Qed.

(** One round: every adjacent pair is aggregated, the new list has one
    level less. *)
Lemma reduce_round_post agg levels (Q : nat → Tensor.t R → Prop)
    (E : exn → Prop) (T : call → Prop) :
  (∀ k x y, levels !! k = Some x → levels !! (k + 1) = Some y →
     T (agg_call agg x y)
     ∧ (∀ out, MeanAggregator.forward agg x y = Ok out → Q k out)
     ∧ (∀ e, MeanAggregator.forward agg x y = Raise e → E e)) →
  post (λ levels', length levels' = length levels - 1
                   ∧ ∀ k out, levels' !! k = Some out → Q k out)
    E T (reduce_round agg levels).
Proof.
  intros Hpair. unfold reduce_round.
  eapply post_weaken; [apply (post_mapM _ _ Q E T)| |done|done].
  - apply Forall_lookup. intros i k [-> Hi]%lookup_seq. simpl.
    destruct (lookup_lt_is_Some_2 levels i) as [x Hx]; [lia|].
    destruct (lookup_lt_is_Some_2 levels (i + 1)) as [y Hy]; [lia|].
    destruct (Hpair i x y Hx Hy) as (HT & HQ & HE).
    eapply post_bind; [by apply (post_getitem _ _ x (λ a, a = x))|]. intros ? ->.
    eapply post_bind; [by apply (post_getitem _ _ y (λ a, a = y))|]. intros ? ->.
    by apply post_apply_agg.
  - intros levels' HF. split.
    + apply Forall2_length in HF. by rewrite length_seq in HF.
    + intros k out Hout.
      destruct (Forall2_lookup_r _ _ _ _ _ HF Hout) as (k' & [-> _]%lookup_seq & HQ).
      done.
Qed.

Lemma reduce_loop_post (children : list (MeanAggregator.t R)) levels
    (Inv : list (Tensor.t R) → Prop) (E : exn → Prop) (T : call → Prop) :
  Inv levels →
  (∀ agg lv, agg ∈ children → Inv lv →
     post (λ lv', Inv lv' ∧ length lv' = length lv - 1) E T (reduce_round agg lv)) →
  post (λ final, Inv final ∧ length final = length levels - length children) E T
    (reduce_loop children levels).
Proof.
  revert levels. induction children as [|agg children IH]; intros levels HI Hround.
  - apply post_ret. split; [done|]. simpl. lia.
  - cbn [reduce_loop]. eapply post_bind.
    { apply Hround; [by left|done]. }
    intros lv' [HI' Hlen]. simpl.
    eapply post_weaken; [apply IH| |done|done].
    + done.
    + intros agg' lv Hin. apply Hround. by right.
    + intros out [HIo ->]. split; [done|]. simpl. lia.
Qed.

(** *** The calls of a successful round *)
Lemma getitem_Ok {A} (l : list A) (k : nat) (a : A) (tr : list call) :
  (getitem l k : py A) = (Ok a, tr) → l !! k = Some a ∧ tr = [].
Proof. unfold getitem. destruct (l !! k); [by intros [= <- <-]|done]. Qed.

Lemma apply_agg_Ok agg x y out (tr : list call) :
  apply_agg agg x y = (Ok out, tr) →
  MeanAggregator.forward agg x y = Ok out ∧ tr = [agg_call agg x y].
Proof.
  unfold apply_agg.
  intros (u & t1 & t2 & Htell & Hl & ->)%py_bind_Ok.
  unfold tell, lift in *. by simplify_eq.
Qed.

Lemma Forall3_single_calls {A B} (P : A → B → call → Prop)
    (l : list A) (bs : list B) (trs : list (list call)) :
  Forall3 (λ a b t, ∃ c, t = [c] ∧ P a b c) l bs trs →
  length bs = length l ∧ length (mjoin trs) = length l ∧
  ∀ i a, l !! i = Some a →
    ∃ b c, bs !! i = Some b ∧ mjoin trs !! i = Some c ∧ P a b c.
Proof.
  induction 1 as [|a b t l bs trs (c & -> & HP) _ (IH1 & IH2 & IH3)].
  - by repeat split.
  - simpl. repeat split; [lia..|]. intros [|i] a'; simpl.
    + intros [= <-]. by exists b, c.
    + apply IH3.
Qed.

Lemma reduce_round_Ok agg levels levels' (tr : list call) :
  reduce_round agg levels = (Ok levels', tr) →
  length levels' = length levels - 1 ∧ length tr = length levels - 1 ∧
  ∀ k, k < length levels - 1 →
    ∃ x y out, levels !! k = Some x ∧ levels !! (k + 1) = Some y
      ∧ MeanAggregator.forward agg x y = Ok out
      ∧ levels' !! k = Some out ∧ tr !! k = Some (agg_call agg x y).
Proof.
  unfold reduce_round. intros (trs & HF & ->)%mapM_py_Ok.
  assert (HF' : Forall3 (λ k out t, ∃ c, t = [c] ∧
            ∃ x y, levels !! k = Some x ∧ levels !! (k + 1) = Some y
              ∧ MeanAggregator.forward agg x y = Ok out ∧ c = agg_call agg x y)
            (seq 0 (length levels - 1)) levels' trs).
  { eapply Forall3_impl; [exact HF|]. simpl. intros k out t.
    intros (x & t1 & t2 & [Hx ->]%getitem_Ok
            & (y & t3 & t4 & [Hy ->]%getitem_Ok & [Hout ->]%apply_agg_Ok & ->)%py_bind_Ok
            & ->)%py_bind_Ok.
    eexists. split; [done|]. by exists x, y. }
  apply Forall3_single_calls in HF' as (Hl1 & Hl2 & Hl3).
  rewrite length_seq in Hl1, Hl2. split; [done|]. split; [done|].
  intros k Hk.
  destruct (Hl3 k k) as (out & c & Hout & Hc & x & y & Hx & Hy & Hf & ->).
  { by apply lookup_seq_lt. }
  by exists x, y, out.
Qed.

Lemma omap_constant {A B} (f : A → option B) (l : list A) (b : B) :
  Forall (λ a, f a = Some b) l → omap f l = replicate (length l) b.
Proof.
  induction 1 as [|a l Ha _ IH]; [done|]. csimpl. rewrite Ha. simpl.
  by f_equal.
Qed.

Lemma applied_aggs_round agg levels levels' (tr : list call) :
  reduce_round agg levels = (Ok levels', tr) →
  applied_aggs tr = replicate (length levels - 1) agg.
Proof.
  intros (_ & Hlen & Hk)%reduce_round_Ok. rewrite <-Hlen.
  apply omap_constant, Forall_lookup. intros k c Hc.
  destruct (Hk k) as (x & y & out & _ & _ & _ & _ & Hc').
  { apply lookup_lt_Some in Hc. lia. }
  by assert (c = agg_call agg x y) as -> by congruence.
Qed.

Lemma applied_aggs_loop (children : list (MeanAggregator.t R)) levels
    (final : list (Tensor.t R)) (tr : list call) :
  reduce_loop children levels = (Ok final, tr) →
  applied_aggs tr = schedule children (length levels)
  ∧ length final = length levels - length children.
Proof.
  revert levels tr. induction children as [|agg children IH]; intros levels tr.
  - intros [= <- <-]. split; [done|]. simpl. lia.
  - cbn [reduce_loop schedule].
    intros (lv' & t1 & t2 & Hround & Hloop & ->)%py_bind_Ok.
    destruct (IH _ _ Hloop) as [Htr Hlen].
    pose proof (reduce_round_Ok _ _ _ _ Hround) as (Hlv' & _).
    pose proof (applied_aggs_round _ _ _ _ Hround) as Ht1.
    unfold applied_aggs in *. rewrite omap_app, Ht1, Htr, Hlv'.
    split; [done|]. simpl. lia.
Qed.
End reduction.

(** ** The forward pass *)
Section forward.
Context {R : Type} `{Scalar R} {Adj : Type}.
Abbreviation py := (GSSupervised.py R Adj).
Abbreviation call := (GSSupervised.call R Adj).
Implicit Types (agg : MeanAggregator.t R) (x y out : Tensor.t R)
  (levels : list (Tensor.t R)) (self : GSSupervised.t R Adj)
  (ids : list nat) (adj : Adj).

Lemma post_value {A} (c : py A) (Q : A → Prop) E T (a : A) :
  post Q E T c → c.1 = Ok a → Q a.
Proof. intros [Hc _] Ha. by rewrite Ha in Hc. Qed.

Lemma post_exn {A} (c : py A) (Q : A → Prop) (E : exn → Prop) T (e : exn) :
  post Q E T c → c.1 = Raise e → E e.
Proof. intros [Hc _] He. by rewrite He in Hc. Qed.

Lemma post_calls {A} (c : py A) (Q : A → Prop) E (T : call → Prop) :
  post Q E T c → Forall T c.2.
Proof. by intros [_ ?]. Qed.

Lemma forward_default_Raise agg x y (e : exn) :
  MeanAggregator.combine_fn agg = MeanAggregator.default_combine_fn →
  MeanAggregator.forward agg x y = Raise e →
  e = RuntimeError matmul_shape ∨ e = RuntimeError cat_shape
  ∨ Tensor.view y (Tensor.rows x) (Tensor.cols y) = Raise e.
Proof.
  intros Hcomb. unfold MeanAggregator.forward. rewrite Hcomb.
  intros [Hx|(x_emb & _ & [Hv|(a & _ & [Hn|(neib_emb & _ & [Hc|(c & _ & Hr)]%bind_Raise)]%bind_Raise)]%bind_Raise)]%bind_Raise.
  - left. by eapply linear_forward_Raise.
  - by right; right.
  - left. by eapply linear_forward_Raise.
  - right; left. by eapply cat_dim1_Raise.
  - done.
Qed.

Lemma view_multiple_Raise y (n k : nat) (e : exn) :
  Tensor.rows y = n * k →
  Tensor.view y n (Tensor.cols y) = Raise e →
  e = RuntimeError ambiguous_view_shape.
Proof.
  intros Hrows Hv.
  destruct (decide (0 < n ∧ 0 < Tensor.cols y)) as [[Hn Hd]|Hz].
  - rewrite (view_accepts y n k) in Hv by done. done.
  - unfold Tensor.view in Hv. rewrite Hrows in Hv.
    assert (n * Tensor.cols y = 0) as Hz' by nia.
    assert (n * k * Tensor.cols y = 0) as Hz'' by nia.
    rewrite Hz', Hz'' in Hv. simpl in Hv. congruence.
Qed.

Lemma finish_calls self levels : (finish self levels).2 = [].
Proof.
  unfold finish. case_match; [|done]. unfold getitem.
  by destruct (levels !! 0).
Qed.

(** The forward pass from its three phases. *)
Lemma forward_post self ids (features : Tensor.t R) adj
    (Inv : list (Tensor.t R) → Prop) (E : exn → Prop) (T : call → Prop) :
  post (λ levels, Inv levels ∧ length levels = length (agg_layers self) + 1) E T
    (_sample self ids features adj) →
  (∀ agg lv, agg ∈ agg_layers self → Inv lv →
     post (λ lv', Inv lv' ∧ length lv' = length lv - 1) E T (reduce_round agg lv)) →
  E (RuntimeError matmul_shape) →
  post (λ _, True) E T (forward self ids features adj).
Proof.
  intros Hsample Hround Hmat. unfold forward.
  eapply post_bind; [exact Hsample|]. intros levels [HI Hlen]. simpl.
  eapply post_bind; [by apply (reduce_loop_post _ _ Inv E T)|].
  intros final [_ Hfinal]. simpl.
  unfold finish. rewrite Hfinal, Hlen.
  replace (length (agg_layers self) + 1 - length (agg_layers self)) with 1 by lia.
  simpl. destruct final as [|out final']; [simpl in Hfinal; lia|].
  eapply post_bind; [by apply (post_getitem _ _ out (λ _, True))|]. intros o _.
  apply post_lift; [done|]. by intros e ->%linear_forward_Raise.
Qed.

Lemma forward_Ok self ids (features logits : Tensor.t R) adj (tr : list call) :
  forward self ids features adj = (Ok logits, tr) →
  ∃ levels t0 final t1,
    _sample self ids features adj = (Ok levels, t0)
    ∧ reduce_loop (agg_layers self) levels = (Ok final, t1)
    ∧ tr = t0 ++ t1.
Proof.
  unfold forward.
  intros (levels & t0 & t' & Hs & (final & t1 & t2 & Hl & Hf & ->)%py_bind_Ok & ->)%py_bind_Ok.
  exists levels, t0, final, t1. split; [done|]. split; [done|].
  pose proof (finish_calls self final) as Hc. rewrite Hf in Hc. simpl in Hc.
  by rewrite Hc, app_nil_r.
Qed.

Lemma applied_aggs_sampler_calls (tr : list call) :
  Forall is_sampler_call tr → applied_aggs tr = [].
Proof.
  unfold applied_aggs. induction 1 as [|c tr Hc _ IH]; [done|].
  by destruct c.
Qed.

(** the aggregators applied by a forward pass that returns *)
Lemma applied_aggs_forward self ids (features logits : Tensor.t R) adj (tr : list call) :
  forward self ids features adj = (Ok logits, tr) →
  applied_aggs tr = schedule (agg_layers self) (length (sampler_fns self) + 1).
Proof.
  intros (levels & t0 & final & t1 & Hs & Hl & ->)%forward_Ok.
  pose proof (_sample_length self ids features adj) as Hpost.
  pose proof (post_value _ _ _ _ levels Hpost) as Hlen.
  pose proof (post_calls _ _ _ _ Hpost) as Hcalls.
  rewrite Hs in Hlen, Hcalls. simpl in Hlen, Hcalls.
  unfold applied_aggs in *. rewrite omap_app.
  pose proof (applied_aggs_sampler_calls t0 Hcalls) as Ht0.
  pose proof (applied_aggs_loop _ _ _ _ Hl) as [Ht1 _].
  unfold applied_aggs in *. by rewrite Ht0, Ht1, Hlen.
Qed.

Lemma head_schedule (children : list (MeanAggregator.t R)) (n : nat) :
  1 < n → head (schedule children n) = head children.
Proof.
  intros Hn. destruct children as [|agg children]; [done|]. simpl.
  destruct n as [|[|n]]; [lia..|]. done.
Qed.

Lemma last_schedule (children : list (MeanAggregator.t R)) :
  last (schedule children (length children + 1)) = last children.
Proof.
  induction children as [|agg children IH]; [done|].
  cbn [schedule length].
  replace (S (length children) + 1 - 1) with (length children + 1) by lia.
  destruct children as [|agg' children'].
  - done.
  - rewrite last_app, IH. rewrite last_cons_cons.
    by destruct (last (agg' :: children')) eqn:Hl; [|apply last_None in Hl].
Qed.
End forward.

(** ** Models built by __init__ *)
Section built.
Context {R : Type} `{Scalar R} {Adj : Type}.
Abbreviation py := (GSSupervised.py R Adj).
Abbreviation call := (GSSupervised.call R Adj).
Implicit Types (agg : MeanAggregator.t R) (x y out : Tensor.t R)
  (levels : list (Tensor.t R)) (self : GSSupervised.t R Adj)
  (ids : list nat) (adj : Adj) (layer_specs : list (GSSupervised.layer_spec R Adj)).

Lemma init_Ok (d c : nat) layer_specs (lr wd : R) (draw : nat → list R) self :
  GSSupervised.init d c layer_specs lr wd draw = Ok self →
  sampler_fns self
  = (λ s : GSSupervised.layer_spec R Adj, λ ids adj, sample_fn s ids adj (n_samples s))
      <$> layer_specs
  ∧ agg_layers self = layers_of draw 0 d layer_specs
  ∧ fc self = Linear.init (final_width d layer_specs) c (draw (2 * length layer_specs))
                (Some (draw (2 * length layer_specs + 1))).
Proof. rewrite init_closed. by intros [= <-]. Qed.

Lemma init_lengths (d c : nat) layer_specs (lr wd : R) (draw : nat → list R) self :
  GSSupervised.init d c layer_specs lr wd draw = Ok self →
  length (sampler_fns self) = length layer_specs
  ∧ length (agg_layers self) = length layer_specs
  ∧ Forall (λ agg, MeanAggregator.combine_fn agg = MeanAggregator.default_combine_fn)
      (agg_layers self).
Proof.
  intros (-> & -> & _)%init_Ok. rewrite length_fmap, length_layers_of.
  split; [done|]. split; [done|]. apply layers_of_default.
Qed.

Lemma post_and {A} (c : py A) (Q1 Q2 : A → Prop) (E1 E2 : exn → Prop)
    (T1 T2 : call → Prop) :
  post Q1 E1 T1 c → post Q2 E2 T2 c →
  post (λ a, Q1 a ∧ Q2 a) (λ e, E1 e ∧ E2 e) (λ cl, T1 cl ∧ T2 cl) c.
Proof.
  intros [H1 F1] [H2 F2]. split.
  - destruct c as [[a|e] tr]; simpl in *; done.
  - apply Forall_and. done.
Qed.

(** A round by an aggregator with the default combine function raises
    torch errors only. *)
Lemma reduce_round_default agg levels :
  MeanAggregator.combine_fn agg = MeanAggregator.default_combine_fn →
  post (λ lv', True ∧ length lv' = length levels - 1)
    (λ e, sample_error e ∨ torch_runtime_error e) (λ _, True)
    (reduce_round agg levels : py _).
Proof.
  intros Hcomb.
  eapply post_weaken;
    [apply (reduce_round_post agg levels (λ _ _, True)
              (λ e, sample_error e ∨ torch_runtime_error e) (λ _, True))
    | |done|done].
  - intros k x y _ _. split; [done|]. split; [done|].
    intros e [->|[->|[->| ->]%view_Raise]]%forward_default_Raise; [..|done];
      right; by eexists.
  - by intros lv' [-> _].
Qed.

Lemma forward_never_fails_assert (d c : nat) layer_specs (lr wd : R)
    (draw : nat → list R) self ids (features : Tensor.t R) adj :
  GSSupervised.init d c layer_specs lr wd draw = Ok self →
  post (λ _, True) (λ e, sample_error e ∨ torch_runtime_error e) (λ _, True)
    (forward self ids features adj).
Proof.
  intros (Hs & Ha & Hdef)%init_lengths.
  apply (forward_post _ _ _ _ (λ _, True)).
  - eapply post_weaken; [apply _sample_length| | |done].
    + intros levels ->. split; [done|]. lia.
    + by left.
  - intros agg lv Hin _. apply reduce_round_default.
    by eapply Forall_forall in Hdef.
  - right. by eexists.
Qed.

(** A round on levels with the row profile keeps the profile. *)
Lemma reduce_round_rows agg levels (N : nat) (ns : list nat) :
  MeanAggregator.combine_fn agg = MeanAggregator.default_combine_fn →
  rows_profile N ns levels ∧ length levels ≤ length ns + 1 →
  post (λ lv', (rows_profile N ns lv' ∧ length lv' ≤ length ns + 1)
               ∧ length lv' = length levels - 1)
    (λ e, e ≠ RuntimeError invalid_view_shape) (pair_ratio N ns)
    (reduce_round agg levels : py _).
Proof.
  intros Hcomb [Hprof Hlen].
  eapply post_weaken;
    [apply (reduce_round_post agg levels
              (λ k out, Tensor.rows out = N * prod_list (take k ns))
              (λ e, e ≠ RuntimeError invalid_view_shape) (pair_ratio N ns))
    | |done|done].
  - intros k x y Hx Hy.
    assert (k + 1 < length levels) as Hk by (by eapply lookup_lt_Some).
    destruct (lookup_lt_is_Some_2 ns k) as [n Hn]; [lia|].
    assert (Hrx : Tensor.rows x = N * prod_list (take k ns)) by eauto.
    assert (Hry : Tensor.rows y = Tensor.rows x * n).
    { rewrite (Hprof _ _ Hy), Hrx. replace (k + 1) with (S k) by lia.
      rewrite (take_S_r _ _ _ Hn), prod_list_snoc. lia. }
    split; [|split].
    + simpl. by exists k, n.
    + intros out [Hout _]%forward_default_shape; [|done]. congruence.
    + intros e [->|[->|Hv]]%forward_default_Raise; [done|done| |done].
      by rewrite (view_multiple_Raise y (Tensor.rows x) n e Hry Hv).
  - intros lv' [Hl Hq]. split; [|done]. split; [|lia].
    intros k out Hout. eauto.
Qed.
End built.

Section contract.
Context {R : Type} `{Scalar R} {Adj : Type}.
Implicit Types (self : GSSupervised.t R Adj) (ids : list nat) (adj : Adj)
  (layer_specs : list (GSSupervised.layer_spec R Adj)).

Lemma _sample_profile layer_specs self ids (features : Tensor.t R) adj :
  sampler_fns self
  = (λ s : GSSupervised.layer_spec R Adj, λ ids adj, sample_fn s ids adj (n_samples s))
      <$> layer_specs →
  Forall sampler_contract layer_specs →
  post (λ levels, rows_profile (length ids) (n_samples <$> layer_specs) levels)
    (λ _, True) (λ _, True) (_sample self ids features adj).
Proof.
  intros Hfns Hc. unfold _sample. rewrite Hfns.
  eapply (post_bind _ _ (λ feats, Tensor.rows feats = length ids)).
  { eapply post_weaken; [apply (post_index _ _ (λ _, True))|..]; [|done..].
    by intros feats [? _]. }
  intros feats Hrows.
  apply (sample_loop_rows layer_specs ids features adj [feats] (length ids) []);
    [done|done|by apply rows_profile_singleton|].
  unfold prod_list. simpl. lia.
Qed.

Lemma _sample_rows (d c : nat) layer_specs (lr wd : R) (draw : nat → list R)
    self ids (features : Tensor.t R) adj :
  GSSupervised.init d c layer_specs lr wd draw = Ok self →
  Forall sampler_contract layer_specs →
  post (λ levels, rows_profile (length ids) (n_samples <$> layer_specs) levels
                  ∧ length levels = length layer_specs + 1)
    (λ e, e ≠ RuntimeError invalid_view_shape)
    (pair_ratio (length ids) (n_samples <$> layer_specs))
    (_sample self ids features adj).
Proof.
  intros Hinit Hc. pose proof (init_lengths _ _ _ _ _ _ _ Hinit) as (Hs & _ & _).
  apply init_Ok in Hinit as (Hfns & _ & _).
  eapply post_weaken;
    [apply post_and;
       [by apply (_sample_profile layer_specs)
       |apply (_sample_length self ids features adj)]|..].
  - simpl. intros levels [Hp ->]. split; [done|]. lia.
  - simpl. intros e [_ [->|[code ->]]]; done.
  - simpl. intros cl [_ Hcl]. by destruct cl.
Qed.

Lemma forward_rows (d c : nat) layer_specs (lr wd : R) (draw : nat → list R)
    self ids (features : Tensor.t R) adj :
  GSSupervised.init d c layer_specs lr wd draw = Ok self →
  Forall sampler_contract layer_specs →
  post (λ _, True) (λ e, e ≠ RuntimeError invalid_view_shape)
    (pair_ratio (length ids) (n_samples <$> layer_specs))
    (forward self ids features adj).
Proof.
  intros Hinit Hc. pose proof (init_lengths _ _ _ _ _ _ _ Hinit) as (_ & Ha & Hdef).
  apply (forward_post _ _ _ _
           (λ lv, rows_profile (length ids) (n_samples <$> layer_specs) lv
                  ∧ length lv ≤ length (n_samples <$> layer_specs) + 1)).
  - eapply post_weaken; [by eapply _sample_rows| |done|done].
    simpl. intros levels [Hp ->]. rewrite length_fmap, Ha. done.
  - intros agg lv Hin HI. apply reduce_round_rows; [|done].
    by eapply Forall_forall in Hdef.
  - done.
Qed.
End contract.

Section adjacent.
Context {R : Type} `{Scalar R}.

Lemma profile_adjacent (N : nat) (ns : list nat) (levels : list (Tensor.t R))
    (k : nat) (x y : Tensor.t R) :
  rows_profile N ns levels → length levels ≤ length ns + 1 →
  levels !! k = Some x → levels !! (k + 1) = Some y →
  ∃ n, ns !! k = Some n
       ∧ Tensor.rows x = N * prod_list (take k ns)
       ∧ Tensor.rows y = Tensor.rows x * n.
Proof.
  intros Hprof Hlen Hx Hy.
  assert (k + 1 < length levels) as Hk by (by eapply lookup_lt_Some).
  destruct (lookup_lt_is_Some_2 ns k) as [n Hn]; [lia|].
  exists n. split; [done|]. split; [by eauto|].
  rewrite (Hprof _ _ Hy), (Hprof _ _ Hx). replace (k + 1) with (S k) by lia.
  rewrite (take_S_r _ _ _ Hn), prod_list_snoc. lia.
Qed.

Lemma first_neighbor_closed (n output_dim : nat) (activation : option (R → R))
    (features : Tensor.t R) :
  Tensor.rows features = 4 →
  closed_sampler features Example.adj
    (GSSupervised.mk_spec (R:=R) Example.first_neighbor n output_dim activation).
Proof.
  intros Hrows ids Hids. eexists. split; [reflexivity|].
  apply Forall_bind. eapply Forall_impl; [exact Hids|]. simpl.
  intros i Hi. apply Forall_replicate. rewrite Hrows in *.
  destruct i as [|[|[|[|i]]]]; simpl; lia.
Qed.

Lemma first_neighbor_contract (n output_dim : nat) (activation : option (R → R)) :
  sampler_contract
    (GSSupervised.mk_spec (R:=R) Example.first_neighbor n output_dim activation).
Proof.
  intros ids adj out. simpl. unfold Example.first_neighbor. intros [= <-].
  apply length_bind_const. intros i. apply length_replicate.
Qed.
End adjacent.

(** ** A forward pass on batches that are not degenerate *)
Section total.
Context {R : Type} `{Scalar R} {Adj : Type}.
Abbreviation py := (GSSupervised.py R Adj).
Abbreviation call := (GSSupervised.call R Adj).
Implicit Types (agg : MeanAggregator.t R) (x y out : Tensor.t R)
  (levels : list (Tensor.t R)) (self : GSSupervised.t R Adj)
  (ids : list nat) (adj : Adj) (specs : list (GSSupervised.layer_spec R Adj)).

Lemma linear_forward_accepts (fc : Linear.t R) x :
  Tensor.cols x = Linear.in_features fc →
  ∃ out, Linear.forward fc x = Ok out
         ∧ Tensor.rows out = Tensor.rows x
         ∧ Tensor.cols out = Linear.out_features fc.
Proof.
  intros Hc. unfold Linear.forward. rewrite Hc, Nat.eqb_refl. by eexists.
Qed.

(** an aggregator call on a pair of matching widths and dividing row
    counts returns *)
Lemma forward_accepts agg x y (n : nat) :
  MeanAggregator.combine_fn agg = MeanAggregator.default_combine_fn →
  Tensor.cols x = Linear.in_features (MeanAggregator.fc_x agg) →
  Tensor.cols y = Linear.in_features (MeanAggregator.fc_neib agg) →
  0 < Tensor.rows x → 0 < Tensor.cols y →
  Tensor.rows y = Tensor.rows x * n →
  ∃ out, MeanAggregator.forward agg x y = Ok out.
Proof.
  intros Hcomb Hcx Hcy HN HD Hrows. unfold MeanAggregator.forward.
  destruct (linear_forward_accepts _ x Hcx) as (x_emb & -> & Hxr & _). simpl.
  rewrite (view_accepts y (Tensor.rows x) n) by done. simpl.
  destruct (linear_forward_accepts (MeanAggregator.fc_neib agg)
              (Tensor.mean_dim1 (Tensor.mk3 (Tensor.rows x) n (Tensor.cols y)
                                   (Tensor.storage y))) Hcy)
    as (neib_emb & -> & Hnr & _). simpl in *.
  rewrite Hcomb. unfold MeanAggregator.default_combine_fn.
  rewrite cat_dim1_pair by congruence. simpl. by eexists.
Qed.

Lemma prod_list_pos (ns : list nat) : Forall (λ n, 0 < n) ns → 0 < prod_list ns.
Proof.
  unfold prod_list. induction 1 as [|n ns Hn _ IH]; simpl; [lia|nia].
Qed.

Lemma reduce_round_total (d o : nat) (act : option (R → R)) (w_x w_neib : list R)
    levels (N : nat) (ns : list nat) :
  0 < N → Forall (λ n, 0 < n) ns → 0 < d →
  level_widths N ns d levels →
  post (λ lv', level_widths N ns (2 * o) lv' ∧ length lv' = length levels - 1)
    (λ _, False) (pair_ratio N ns)
    (reduce_round
       (MeanAggregator.init d o act MeanAggregator.default_combine_fn w_x w_neib)
       levels : py _).
Proof.
  intros HN Hns Hd (Hprof & Hlen & Hcols).
  eapply post_weaken;
    [apply (reduce_round_post _ levels
              (λ k out, Tensor.rows out = N * prod_list (take k ns)
                        ∧ Tensor.cols out = 2 * o)
              (λ _, False) (pair_ratio N ns))
    | |done|done].
  - intros k x y Hx Hy.
    destruct (profile_adjacent N ns levels k x y Hprof Hlen Hx Hy)
      as (n & Hn & Hrx & Hry).
    assert (Tensor.cols x = d) as Hcx.
    { exact (Forall_lookup_1 _ _ _ _ Hcols Hx). }
    assert (Tensor.cols y = d) as Hcy.
    { exact (Forall_lookup_1 _ _ _ _ Hcols Hy). }
    assert (0 < Tensor.rows x) as Hpos.
    { rewrite Hrx. pose proof (prod_list_pos (take k ns) (Forall_take _ _ _ Hns)). nia. }
    destruct (forward_accepts
                (MeanAggregator.init d o act MeanAggregator.default_combine_fn
                   w_x w_neib) x y n) as [out Hout]; [done|exact Hcx|exact Hcy|done|lia|done|].
    split; [|split].
    + simpl. by exists k, n.
    + intros out' Hout'. apply forward_default_shape in Hout' as [-> ->]; [|done].
      simpl. split; [done|lia].
    + intros e He. congruence.
  - intros lv' [Hl Hq]. split; [|done]. split; [|split; [lia|]].
    + intros k out Hout. by destruct (Hq _ _ Hout).
    + apply Forall_lookup. intros k out Hout. by destruct (Hq _ _ Hout).
Qed.

Lemma reduce_loop_total (draw : nat → list R) (k d : nat) specs levels
    (N : nat) (ns : list nat) :
  0 < N → Forall (λ n, 0 < n) ns → 0 < d →
  Forall positive_spec specs →
  level_widths N ns d levels →
  post (λ final, level_widths N ns (final_width d specs) final
                 ∧ length final = length levels - length specs)
    (λ _, False) (pair_ratio N ns)
    (reduce_loop (layers_of draw k d specs) levels : py _).
Proof.
  intros HN Hns Hd Hspecs. revert k d levels Hd.
  induction Hspecs as [|spec specs [_ Ho] _ IH]; intros k d levels Hd Hlv.
  - apply post_ret. split; [done|]. simpl. lia.
  - cbn [layers_of reduce_loop].
    eapply post_bind; [by apply reduce_round_total|].
    intros lv' [Hlv' Hlen]. simpl.
    eapply post_weaken; [apply (IH (S k) (2 * output_dim spec) lv'); [lia|done]
                        | |done|done].
    intros final [Hf ->]. rewrite final_width_cons. split; [done|]. simpl. lia.
Qed.

Lemma sample_loop_widths (fns : list (list nat → Adj → sampled)) ids
    (features : Tensor.t R) adj levels :
  Forall (λ lvl, Tensor.cols lvl = Tensor.cols features) levels →
  post (λ final, Forall (λ lvl, Tensor.cols lvl = Tensor.cols features) final)
    (λ _, True) (λ _, True) (sample_loop fns ids features adj levels).
Proof.
  revert ids levels. induction fns as [|fn fns IH]; intros ids levels Hlv.
  - by apply post_ret.
  - cbn [sample_loop].
    eapply post_bind.
    { eapply post_weaken; [apply (post_apply_sampler _ _ _ (λ _, True))|..]; done. }
    intros ids' _.
    eapply (post_bind _ _ (λ feats, Tensor.cols feats = Tensor.cols features)).
    { eapply post_weaken; [apply (post_index _ _ (λ _, True))|..]; [|done..].
      by intros feats [_ ?]. }
    intros feats Hf. apply IH. apply Forall_app. split; [done|].
    by apply Forall_singleton.
Qed.

Lemma _sample_widths self ids (features : Tensor.t R) adj :
  post (λ final, Forall (λ lvl, Tensor.cols lvl = Tensor.cols features) final)
    (λ _, True) (λ _, True) (_sample self ids features adj).
Proof.
  unfold _sample.
  eapply (post_bind _ _ (λ feats, Tensor.cols feats = Tensor.cols features)).
  { eapply post_weaken; [apply (post_index _ _ (λ _, True))|..]; [|done..].
    by intros feats [_ ?]. }
  intros feats Hf. apply sample_loop_widths. by apply Forall_singleton.
Qed.

(** On a non-empty batch of the configured width, with positive sample
    counts and output widths, the forward pass raises only what the
    sampling raises, and returns one row of logits per id. *)
Lemma forward_total (d c : nat) specs (lr wd : R) (draw : nat → list R)
    self ids (features : Tensor.t R) adj (Es : exn → Prop) :
  GSSupervised.init d c specs lr wd draw = Ok self →
  Forall sampler_contract specs → Forall positive_spec specs →
  ids ≠ [] → Tensor.cols features = d → 0 < d →
  post (λ _, True) Es (λ _, True) (_sample self ids features adj) →
  post (λ logits, Tensor.rows logits = length ids ∧ Tensor.cols logits = c)
    Es (pair_ratio (length ids) (n_samples <$> specs))
    (forward self ids features adj).
Proof.
  intros Hinit Hc Hpos Hids Hcols Hd Hsam.
  pose proof (init_Ok _ _ _ _ _ _ _ Hinit) as (_ & Hlayers & Hfc).
  assert (HN : 0 < length ids) by (destruct ids; [done|simpl; lia]).
  assert (Hns : Forall (λ n, 0 < n) (n_samples <$> specs)).
  { apply Forall_fmap. eapply Forall_impl; [exact Hpos|]. by intros s [? _]. }
  unfold forward.
  eapply (post_bind _ _
            (λ levels, level_widths (length ids) (n_samples <$> specs) d levels
                       ∧ length levels = length specs + 1)).
  { eapply post_weaken;
      [apply post_and;
         [apply post_and;
            [by eapply (_sample_rows d c specs)
            |apply (_sample_widths self ids features adj)]
         |exact Hsam]|..].
    - simpl. intros levels [[[Hp Hl] Hw] _]. split; [|done].
      split; [done|]. split; [rewrite length_fmap; lia|]. by rewrite <-Hcols.
    - simpl. by intros e [_ ?].
    - simpl. by intros cl [[? _] _]. }
  intros levels [Hlv Hlen]. simpl. rewrite Hlayers.
  eapply post_bind.
  { eapply post_weaken; [by apply (reduce_loop_total draw 0 d specs levels)|..];
      [by intros final Hf; exact Hf|done|done]. }
  intros final [(Hprof & _ & Hw) Hfinal]. simpl.
  unfold finish. rewrite Hfinal, Hlen.
  replace (length specs + 1 - length specs) with 1 by lia. simpl.
  destruct final as [|out [|? ?]]; [simpl in Hfinal; lia| |simpl in Hfinal; lia].
  eapply post_bind; [by apply (post_getitem _ _ out (λ o, o = out))|]. intros ? ->.
  rewrite Forall_singleton in Hw. pose proof (Hprof 0 out eq_refl) as Hrows.
  simpl in Hrows. unfold prod_list in Hrows. simpl in Hrows.
  destruct (linear_forward_accepts (fc self) (Tensor.normalize out))
    as (logits & Hlog & Hr & Hcl).
  { rewrite Hfc. simpl. done. }
  apply post_lift.
  - intros logits' Hl'. rewrite Hlog in Hl'. injection Hl' as <-.
    rewrite Hr, Hcl, Hfc. simpl. split; [lia|done].
  - intros e He. congruence.
Qed.

Lemma index_accepts (features : Tensor.t R) ids :
  Forall (λ i, i < Tensor.rows features) ids →
  ∃ feats, Tensor.index features ids = Ok feats.
Proof.
  intros Hids. unfold Tensor.index.
  assert (forallb (λ i, i <? Tensor.rows features) ids = true) as ->; [|by eexists].
  apply forallb_forall. intros i Hi%list_elem_of_In.
  apply Nat.ltb_lt. by eapply Forall_forall in Hids.
Qed.

Lemma sample_loop_returns specs ids (features : Tensor.t R) adj levels :
  Forall (closed_sampler features adj) specs →
  Forall (λ i, i < Tensor.rows features) ids →
  post (λ _, True) (λ _, False) (λ _, True)
    (sample_loop ((λ s : GSSupervised.layer_spec R Adj,
                     λ ids adj, sample_fn s ids adj (n_samples s)) <$> specs)
       ids features adj levels).
Proof.
  intros Hcl. revert ids levels.
  induction Hcl as [|spec specs Hspec _ IH]; intros ids levels Hids.
  - by apply post_ret.
  - cbn [fmap list_fmap sample_loop]. unfold apply_sampler.
    destruct (Hspec ids Hids) as (out & Hout & Hin).
    eapply post_bind.
    { eapply (post_bind _ _ (λ _, True)); [by apply post_tell|]. intros _ _.
      rewrite Hout. by apply (post_ret _ (λ o, o = out)). }
    intros ? ->. destruct (index_accepts features out Hin) as [feats Hfeats].
    eapply post_bind; [by apply (post_lift _ (λ _, True)); [|congruence]|].
    intros feats' _. by apply IH.
Qed.

Lemma _sample_returns (d c : nat) specs (lr wd : R) (draw : nat → list R)
    self ids (features : Tensor.t R) adj :
  GSSupervised.init d c specs lr wd draw = Ok self →
  Forall (closed_sampler features adj) specs →
  Forall (λ i, i < Tensor.rows features) ids →
  post (λ _, True) (λ _, False) (λ _, True) (_sample self ids features adj).
Proof.
  intros (Hfns & _ & _)%init_Ok Hcl Hids. unfold _sample. rewrite Hfns.
  destruct (index_accepts features ids Hids) as [feats Hfeats].
  eapply post_bind; [by apply (post_lift _ (λ _, True)); [|congruence]|].
  intros feats' _. by apply sample_loop_returns.
Qed.

(** With samplers that return ids of [features], the forward pass returns. *)
Lemma forward_returns (d c : nat) specs (lr wd : R) (draw : nat → list R)
    self ids (features : Tensor.t R) adj :
  GSSupervised.init d c specs lr wd draw = Ok self →
  Forall sampler_contract specs → Forall positive_spec specs →
  Forall (closed_sampler features adj) specs →
  ids ≠ [] → Forall (λ i, i < Tensor.rows features) ids →
  Tensor.cols features = d → 0 < d →
  ∃ logits tr, forward self ids features adj = (Ok logits, tr)
    ∧ Tensor.rows logits = length ids ∧ Tensor.cols logits = c.
Proof.
  intros Hinit Hc Hpos Hcl Hne Hids Hcols Hd.
  pose proof (forward_total d c specs lr wd draw self ids features adj (λ _, False)
                Hinit Hc Hpos Hne Hcols Hd
                (_sample_returns _ _ _ _ _ _ _ _ _ _ Hinit Hcl Hids)) as [Hres _].
  destruct (forward self ids features adj) as [[logits|e] tr]; simpl in Hres; [|done].
  by exists logits, tr.
Qed.
End total.

(** * The claims *)

(** C1: for a model built from L layer specs and any batch of ids, the
    list of feature levels that [_sample] returns has L + 1 levels; a
    reduction round returns a list one level shorter; after r of the L
    rounds L + 1 - r levels are left and after all of them exactly one; so
    the assertion [len(all_feats) == 1] of [forward] never fails. The
    levels are there to count: on a non-empty batch of ids of [features],
    with features of width input_dim, positive sample counts and output
    widths, and samplers that keep the output-length contract and return
    ids of [features], the forward pass returns, with one row of logits per
    id. *)
Theorem feature_level_list_length {R : Type} `{Scalar R} {Adj : Type}
    (input_dim num_classes : nat) (layer_specs : list (GSSupervised.layer_spec R Adj))
    (learning_rate weight_decay : R) (draw : nat → list R)
    (self : GSSupervised.t R Adj) (ids : list nat) (features : Tensor.t R) (adj : Adj) :
  GSSupervised.init input_dim num_classes layer_specs learning_rate weight_decay draw
  = Ok self →
  (∀ levels tr, _sample self ids features adj = (Ok levels, tr) →
     length levels = length layer_specs + 1)
  ∧ (∀ agg levels levels' tr,
       reduce_round (Adj:=Adj) agg levels = (Ok levels', tr) →
       length levels' = length levels - 1
       ∧ (levels ≠ [] → length levels' + 1 = length levels))
  ∧ (∀ r levels tr final (tr' : list (GSSupervised.call R Adj)),
       _sample self ids features adj = (Ok levels, tr) →
       r ≤ length layer_specs →
       reduce_loop (take r (agg_layers self)) levels = (Ok final, tr') →
       length final = length layer_specs + 1 - r)
  ∧ (∀ levels tr final (tr' : list (GSSupervised.call R Adj)),
       _sample self ids features adj = (Ok levels, tr) →
       reduce_loop (agg_layers self) levels = (Ok final, tr') →
       length final = 1)
  ∧ (forward self ids features adj).1 ≠ Raise AssertionError
  ∧ (Forall sampler_contract layer_specs → Forall positive_spec layer_specs →
     Forall (closed_sampler features adj) layer_specs →
     ids ≠ [] → Forall (λ i, i < Tensor.rows features) ids →
     Tensor.cols features = input_dim → 0 < input_dim →
     ∃ logits tr, forward self ids features adj = (Ok logits, tr)
       ∧ Tensor.rows logits = length ids ∧ Tensor.cols logits = num_classes).
Proof.
  intros Hinit. pose proof (init_lengths _ _ _ _ _ _ _ Hinit) as (Hs & Ha & Hdef).
  assert (Hsample : ∀ levels tr, _sample self ids features adj = (Ok levels, tr) →
                      length levels = length layer_specs + 1).
  { intros levels tr Hsam.
    pose proof (post_value _ _ _ _ levels (_sample_length self ids features adj)) as Hl.
    rewrite Hsam in Hl. rewrite Hl, Hs; done. }
  split; [exact Hsample|]. split; [|split; [|split; [|split]]].
  - intros agg levels levels' tr (Hl & _)%reduce_round_Ok. split; [done|].
    intros Hne. destruct levels; [done|]. simpl in *. lia.
  - intros r levels tr final tr' Hsam Hr (_ & Hl)%applied_aggs_loop.
    rewrite Hl, length_take, Ha, (Hsample _ _ Hsam). lia.
  - intros levels tr final tr' Hsam (_ & Hl)%applied_aggs_loop.
    rewrite Hl, Ha, (Hsample _ _ Hsam). lia.
  - intros Hassert.
    pose proof (post_exn _ _ _ _ AssertionError
                  (forward_never_fails_assert _ _ _ _ _ _ _ ids features adj Hinit)
                  Hassert) as [[?|[? ?]]|[? ?]]; done.
  - intros. by eapply forward_returns.
Qed.

Lemma feature_level_list_length_witness :
  GSSupervised.init 2 3 Example.layer_specs 0%Z 0%Z Example.draw = Ok Example.model
  ∧ _sample Example.model Example.ids Example.features Example.adj
    = (Ok Example.levels, Example.sampler_calls)
  ∧ length Example.levels = 3
  ∧ ∃ logits tr,
      forward Example.model Example.ids Example.features Example.adj = (Ok logits, tr)
      ∧ Tensor.rows logits = 3 ∧ Tensor.cols logits = 3.
Proof.
  assert (Hinit : GSSupervised.init 2 3 Example.layer_specs 0%Z 0%Z Example.draw
                  = Ok Example.model) by reflexivity.
  assert (Hsam : _sample Example.model Example.ids Example.features Example.adj
                 = (Ok Example.levels, Example.sampler_calls)) by reflexivity.
  assert (Hc : Forall sampler_contract Example.layer_specs).
  { repeat constructor; apply first_neighbor_contract. }
  assert (Hpos : Forall positive_spec Example.layer_specs).
  { repeat constructor; simpl; lia. }
  assert (Hcl : Forall (closed_sampler Example.features Example.adj)
                  Example.layer_specs).
  { repeat constructor; by apply first_neighbor_closed. }
  assert (Hne : Example.ids ≠ []) by done.
  assert (Hids : Forall (λ i, i < Tensor.rows Example.features) Example.ids).
  { repeat constructor; simpl; lia. }
  assert (Hcols : Tensor.cols Example.features = 2) by reflexivity.
  assert (Hd : 0 < 2) by lia.
  pose proof (feature_level_list_length 2 3 Example.layer_specs 0%Z 0%Z Example.draw
                Example.model Example.ids Example.features Example.adj Hinit)
    as (Hlen & _ & _ & _ & _ & Hret).
  exact (conj Hinit (conj Hsam (conj (Hlen _ _ Hsam)
           (Hret Hc Hpos Hcl Hne Hids Hcols Hd)))).
Defined.

(** C2: the reduction loop takes the aggregators in the order of the
    container, the first of them in the first round; a round applies this
    one aggregator to every adjacent pair of the current list, in the
    order of the pairs, and returns the list of the results, one level
    shorter; the aggregators applied by a forward pass that returns are
    those of the rounds, one after the other. *)
Theorem reduction_applies_layers_in_order {R : Type} `{Scalar R} {Adj : Type}
    (agg : MeanAggregator.t R) (children : list (MeanAggregator.t R))
    (levels : list (Tensor.t R)) :
  reduce_loop (Adj:=Adj) (agg :: children) levels
  = (levels' ← reduce_round agg levels; reduce_loop children levels')
  ∧ (∀ levels' (tr : list (GSSupervised.call R Adj)),
       reduce_round agg levels = (Ok levels', tr) →
       length levels' = length levels - 1
       ∧ (levels ≠ [] → length levels' + 1 = length levels)
       ∧ applied_aggs tr = replicate (length levels - 1) agg
       ∧ ∀ k, k < length levels - 1 →
           ∃ x y out, levels !! k = Some x ∧ levels !! (k + 1) = Some y
             ∧ MeanAggregator.forward agg x y = Ok out
             ∧ levels' !! k = Some out
             ∧ tr !! k = Some (agg_call agg x y))
  ∧ (∀ (self : GSSupervised.t R Adj) ids features adj logits tr,
       forward self ids features adj = (Ok logits, tr) →
       applied_aggs tr = schedule (agg_layers self) (length (sampler_fns self) + 1)
       ∧ (sampler_fns self ≠ [] →
          head (applied_aggs tr) = agg_layers self !! 0)).
Proof.
  split; [done|]. split.
  - intros levels' tr Hround.
    pose proof (reduce_round_Ok _ _ _ _ Hround) as (Hlen & _ & Hpairs).
    split; [done|]. split; [|split; [by eapply applied_aggs_round|done]].
    intros Hne. destruct levels; [done|]. simpl in *. lia.
  - intros self ids features adj logits tr Hfwd.
    rewrite (applied_aggs_forward _ _ _ _ _ _ Hfwd). split; [done|].
    intros Hne. rewrite head_schedule, head_lookup; [done|].
    destruct (sampler_fns self); [done|]. simpl. lia.
Qed.

Lemma reduction_applies_layers_in_order_witness :
  reduce_round (Adj:=list (list nat)) Example.agg0 Example.levels
  = (Ok Example.round1,
     [agg_call Example.agg0 (Tensor.mk 3 2 [1; 2; 3; 4; 5; 6])
        (Tensor.mk 6 2 [3; 4; 3; 4; 5; 6; 5; 6; 7; 8; 7; 8]);
      agg_call Example.agg0 (Tensor.mk 6 2 [3; 4; 3; 4; 5; 6; 5; 6; 7; 8; 7; 8])
        (Tensor.mk 18 2 [5; 6; 5; 6; 5; 6; 5; 6; 5; 6; 5; 6;
                         7; 8; 7; 8; 7; 8; 7; 8; 7; 8; 7; 8;
                         1; 2; 1; 2; 1; 2; 1; 2; 1; 2; 1; 2])]%Z)
  ∧ length Example.round1 = length Example.levels - 1.
Proof.
  assert (Hround : reduce_round (Adj:=list (list nat)) Example.agg0 Example.levels
                   = (Ok Example.round1, _)) by reflexivity.
  refine (conj Hround _).
  exact (proj1 (proj1 (proj2 (reduction_applies_layers_in_order (Adj:=list (list nat))
           Example.agg0 [Example.agg1] Example.levels)) _ _ Hround)).
Defined.

(** C3: on a batch of N rows and a neighbor batch of N * n_samples rows
    [MeanAggregator.forward] returns the activation of the combination of
    [fc_x] of the batch and [fc_neib] of the pooled neighbors, the pooled
    row of a node being the elementwise mean of its group of n_samples
    consecutive neighbor rows; the two projections built by [__init__] go
    from input_dim to output_dim and have no bias; the default combine
    function concatenates the two projected batches along the feature axis;
    without an activation the combined batch is returned as it is; on
    batches of width input_dim the call returns, with N rows. *)
Theorem mean_aggregator_forward_spec {R : Type} `{Scalar R}
    (input_dim output_dim : nat) (activation : option (R → R))
    (combine_fn : list (Tensor.t R) → result (Tensor.t R)) (w_x w_neib : list R)
    (x neibs : Tensor.t R) (n_samples : nat) :
  let agg := MeanAggregator.init input_dim output_dim activation combine_fn w_x w_neib in
  Tensor.wf neibs → 0 < Tensor.rows x → 0 < Tensor.cols neibs →
  Tensor.rows neibs = Tensor.rows x * n_samples →
  MeanAggregator.forward agg x neibs = Spec.aggregate n_samples agg x neibs
  ∧ (Linear.bias (MeanAggregator.fc_x agg) = None
     ∧ Linear.bias (MeanAggregator.fc_neib agg) = None
     ∧ Linear.in_features (MeanAggregator.fc_x agg) = input_dim
     ∧ Linear.in_features (MeanAggregator.fc_neib agg) = input_dim
     ∧ Linear.out_features (MeanAggregator.fc_x agg) = output_dim
     ∧ Linear.out_features (MeanAggregator.fc_neib agg) = output_dim)
  ∧ (∀ x_emb neib_emb : Tensor.t R, Tensor.rows neib_emb = Tensor.rows x_emb →
       MeanAggregator.default_combine_fn [x_emb; neib_emb]
       = Ok (Spec.concat_features x_emb neib_emb))
  ∧ (activation = None →
     MeanAggregator.forward agg x neibs
     = (x_emb ← Linear.forward (MeanAggregator.fc_x agg) x;
        neib_emb ← Linear.forward (MeanAggregator.fc_neib agg)
                     (Spec.pool (Tensor.rows x) n_samples neibs);
        combine_fn [x_emb; neib_emb]))
  ∧ (combine_fn = MeanAggregator.default_combine_fn →
     Tensor.cols x = input_dim → Tensor.cols neibs = input_dim →
     ∃ out, MeanAggregator.forward agg x neibs = Ok out
            ∧ Tensor.rows out = Tensor.rows x
            ∧ Tensor.cols out = output_dim + output_dim).
Proof.
  intros agg Hwf HN HD Hrows.
  split; [by apply forward_pooled|].
  split; [done|].
  split; [intros; by apply default_combine_concat|].
  split.
  - intros ->. rewrite (forward_pooled agg x neibs n_samples) by done.
    unfold Spec.aggregate. simpl.
    destruct (Linear.forward _ x) as [x_emb|]; [simpl|done].
    destruct (Linear.forward _ (Spec.pool _ _ _)) as [neib_emb|]; [simpl|done].
    by destruct (combine_fn _).
  - intros Hcomb Hcx Hcn.
    destruct (forward_accepts agg x neibs n_samples) as [out Hout]; try done.
    exists out. split; [done|]. by apply forward_default_shape in Hout.
Qed.

Lemma mean_aggregator_forward_spec_witness :
  Tensor.wf Example.neibs ∧ 0 < Tensor.rows Example.x ∧ 0 < Tensor.cols Example.neibs
  ∧ Tensor.rows Example.neibs = Tensor.rows Example.x * 2
  ∧ MeanAggregator.forward Example.agg Example.x Example.neibs
    = Spec.aggregate 2 Example.agg Example.x Example.neibs.
Proof.
  assert (Hwf : Tensor.wf Example.neibs) by reflexivity.
  assert (HN : 0 < Tensor.rows Example.x) by (simpl; lia).
  assert (HD : 0 < Tensor.cols Example.neibs) by (simpl; lia).
  assert (Hrows : Tensor.rows Example.neibs = Tensor.rows Example.x * 2) by reflexivity.
  refine (conj Hwf (conj HN (conj HD (conj Hrows _)))).
  exact (proj1 (mean_aggregator_forward_spec 2 3 (Some Example.relu)
    MeanAggregator.default_combine_fn [1; 0; 0; 1; 1; 1]%Z [1; -1; 2; 0; 0; 2]%Z
    Example.x Example.neibs 2 Hwf HN HD Hrows)).
Defined.

(** C4: the [output_dim] property of an aggregator is the width that its
    combine function gives on two tensors of width [output_dim_], which is
    2 * output_dim for the concatenation, and it is the width of what
    [forward] returns; in [GSSupervised.__init__] the aggregator of every
    layer after the first takes as input_dim this width of the layer before
    it, and the final projection that of the last layer (input_dim itself
    without layers). *)
Theorem effective_output_width_wiring {R : Type} `{Scalar R} {Adj : Type}
    (input_dim num_classes : nat) (layer_specs : list (GSSupervised.layer_spec R Adj))
    (learning_rate weight_decay : R) (draw : nat → list R) :
  (∀ agg : MeanAggregator.t R,
     MeanAggregator.output_dim agg
     = (let tmp := Tensor.zeros 1 (MeanAggregator.output_dim_ agg) in
        out ← MeanAggregator.combine_fn agg [tmp; tmp]; mret (Tensor.cols out))
     ∧ (MeanAggregator.combine_fn agg = MeanAggregator.default_combine_fn →
        MeanAggregator.output_dim agg = Ok (2 * MeanAggregator.output_dim_ agg)))
  ∧ ∃ self,
      GSSupervised.init input_dim num_classes layer_specs learning_rate weight_decay draw
      = Ok self
      ∧ length (agg_layers self) = length layer_specs
      ∧ Linear.in_features (fc self) = final_width input_dim layer_specs
      ∧ (∀ agg, agg_layers self !! 0 = Some agg →
           Linear.in_features (MeanAggregator.fc_x agg) = input_dim
           ∧ Linear.in_features (MeanAggregator.fc_neib agg) = input_dim)
      ∧ (∀ i agg spec,
           agg_layers self !! i = Some agg → layer_specs !! i = Some spec →
           MeanAggregator.output_dim_ agg = output_dim spec
           ∧ MeanAggregator.output_dim agg = Ok (2 * output_dim spec)
           ∧ (∀ x neibs out, MeanAggregator.forward agg x neibs = Ok out →
                Tensor.cols out = 2 * output_dim spec)
           ∧ (∀ agg', agg_layers self !! S i = Some agg' →
                Linear.in_features (MeanAggregator.fc_x agg') = 2 * output_dim spec
                ∧ Linear.in_features (MeanAggregator.fc_neib agg') = 2 * output_dim spec)
           ∧ (S i = length layer_specs →
                Linear.in_features (fc self) = 2 * output_dim spec)).
Proof.
  split.
  { intros agg. split; [done|apply output_dim_default]. }
  eexists. split; [apply init_closed|]. simpl.
  split; [apply length_layers_of|]. split; [done|]. split.
  { intros agg (spec & _ & ->)%layers_of_lookup. done. }
  intros i agg spec (spec' & Hs & ->)%layers_of_lookup Hspec.
  assert (spec' = spec) as -> by congruence.
  split; [done|]. split; [by apply output_dim_default|]. split; [|split].
  - intros x neibs out Hout. apply forward_default_shape in Hout as [_ ->]; [|done].
    simpl. lia.
  - intros agg' (spec' & Hs' & ->)%layers_of_lookup. simpl.
    by rewrite (final_width_take_S _ _ _ _ Hspec).
  - intros HL. rewrite <-(take_ge layer_specs (S i)) at 1 by lia.
    by apply final_width_take_S.
Qed.

Lemma effective_output_width_wiring_witness :
  agg_layers Example.model !! 0 = Some Example.agg0
  ∧ agg_layers Example.model !! 1 = Some Example.agg1
  ∧ MeanAggregator.output_dim Example.agg0 = Ok 4
  ∧ Linear.in_features (MeanAggregator.fc_x Example.agg1) = 4
  ∧ Linear.in_features (MeanAggregator.fc_neib Example.agg1) = 4.
Proof.
  destruct (proj2 (effective_output_width_wiring (Adj:=list (list nat)) 2 3
                     Example.layer_specs 0%Z 0%Z Example.draw))
    as (self & Hinit & _ & _ & _ & Hwire).
  change (Ok Example.model = Ok self) in Hinit. injection Hinit as <-.
  assert (H0 : agg_layers Example.model !! 0 = Some Example.agg0) by reflexivity.
  assert (H1 : agg_layers Example.model !! 1 = Some Example.agg1) by reflexivity.
  destruct (Hwire 0 Example.agg0
              (GSSupervised.mk_spec Example.first_neighbor 2 2 (Some Example.relu))
              H0 eq_refl) as (_ & Hdim & _ & Hnext & _).
  exact (conj H0 (conj H1 (conj Hdim (Hnext Example.agg1 H1)))).
Defined.

(** C5 as amended: [MeanAggregator.forward] raises whenever the number of
    neighbor rows is not an exact multiple of the number of self rows, and
    returns no truncated or padded batch; when the self batch is not empty,
    the feature width is positive and the number of neighbor rows is an
    exact multiple, the reshape succeeds, in groups of the quotient; for an
    empty self batch or a feature width of 0 the reshape raises as well. *)
Theorem reshape_requires_exact_multiple {R : Type} `{Scalar R}
    (agg : MeanAggregator.t R) (x neibs : Tensor.t R) :
  (¬ (Tensor.rows x | Tensor.rows neibs) →
     raises (Tensor.view neibs (Tensor.rows x) (Tensor.cols neibs))
     ∧ raises (MeanAggregator.forward agg x neibs))
  ∧ (0 < Tensor.rows x → 0 < Tensor.cols neibs →
     (Tensor.rows x | Tensor.rows neibs) →
     Tensor.view neibs (Tensor.rows x) (Tensor.cols neibs)
     = Ok (Tensor.mk3 (Tensor.rows x) (Tensor.rows neibs `div` Tensor.rows x)
             (Tensor.cols neibs) (Tensor.storage neibs)))
  ∧ (Tensor.rows x = 0 ∨ Tensor.cols neibs = 0 →
     raises (Tensor.view neibs (Tensor.rows x) (Tensor.cols neibs))
     ∧ raises (MeanAggregator.forward agg x neibs)).
Proof.
  split; [|split].
  - intros Hnd. split; [by apply view_not_divide|].
    by apply forward_raises_of_view, view_not_divide.
  - intros HN HD [k Hk]. rewrite Hk, Nat.div_mul by lia.
    apply view_accepts; [done|done|lia].
  - intros Hz. split; [by apply view_degenerate|].
    by apply forward_raises_of_view, view_degenerate.
Qed.

Lemma reshape_requires_exact_multiple_witness :
  0 < Tensor.rows Example.x ∧ 0 < Tensor.cols Example.neibs
  ∧ (Tensor.rows Example.x | Tensor.rows Example.neibs)
  ∧ Tensor.view Example.neibs (Tensor.rows Example.x) (Tensor.cols Example.neibs)
    = Ok (Tensor.mk3 2 2 2 [1; 2; 3; 4; 5; 6; 7; 8]%Z).
Proof.
  assert (HN : 0 < Tensor.rows Example.x) by (simpl; lia).
  assert (HD : 0 < Tensor.cols Example.neibs) by (simpl; lia).
  assert (Hdiv : (Tensor.rows Example.x | Tensor.rows Example.neibs)) by (by exists 2).
  refine (conj HN (conj HD (conj Hdiv _))).
  exact (proj1 (proj2 (reshape_requires_exact_multiple Example.agg Example.x Example.neibs))
           HN HD Hdiv).
Defined.

(** C5 as stated fails on an empty batch and on features of width 0: the
    number of neighbor rows is an exact multiple of the number of self rows,
    and the reshape raises. *)
Lemma reshape_refuses_empty_batch :
  let empty : Tensor.t Z := Tensor.mk 0 2 [] in
  let x0 : Tensor.t Z := Tensor.mk 2 0 [] in
  let neibs0 : Tensor.t Z := Tensor.mk 4 0 [] in
  ((Tensor.rows empty | Tensor.rows empty)
   ∧ Tensor.view empty (Tensor.rows empty) (Tensor.cols empty)
     = Raise (RuntimeError ambiguous_view_shape)
   ∧ MeanAggregator.forward Example.agg empty empty
     = Raise (RuntimeError ambiguous_view_shape))
  ∧ ((Tensor.rows x0 | Tensor.rows neibs0)
     ∧ Tensor.view neibs0 (Tensor.rows x0) (Tensor.cols neibs0)
       = Raise (RuntimeError ambiguous_view_shape)).
Proof.
  simpl. split; [split; [by exists 0|done]|split; [by exists 2|done]].
Qed.

(** C6: a model built from an empty sequence of layer specs makes no call
    to a sampler or an aggregator; its forward pass is the final projection
    of the row-wise normalized [features[ids]], whatever [adj] is. *)
Theorem forward_without_layers {R : Type} `{Scalar R} {Adj : Type}
    (input_dim num_classes : nat) (learning_rate weight_decay : R)
    (draw : nat → list R) :
  ∃ self : GSSupervised.t R Adj,
    GSSupervised.init input_dim num_classes [] learning_rate weight_decay draw = Ok self
    ∧ sampler_fns self = [] ∧ agg_layers self = []
    ∧ fc self = Linear.init input_dim num_classes (draw 0) (Some (draw 1))
    ∧ ∀ ids features adj,
        forward self ids features adj
        = lift (x ← Tensor.index features ids;
                Linear.forward (fc self) (Tensor.normalize x))
        ∧ (forward self ids features adj).2 = []
        ∧ ∀ adj', forward self ids features adj' = forward self ids features adj.
Proof.
  eexists. split; [reflexivity|]. simpl. split; [done|]. split; [done|].
  split; [done|]. intros ids features adj.
  assert (Hfwd : ∀ adj0 : Adj,
    forward (GSSupervised.mk [] [] (Linear.init input_dim num_classes (draw 0)
                                      (Some (draw 1))) learning_rate weight_decay)
      ids features adj0
    = lift (x ← Tensor.index features ids;
            Linear.forward (Linear.init input_dim num_classes (draw 0) (Some (draw 1)))
              (Tensor.normalize x))).
  { intros adj0. unfold forward, _sample, lift. simpl.
    rewrite !py_bind_unfold. simpl.
    destruct (Tensor.index features ids) as [x|e]; simpl; [|done].
    by destruct (Linear.forward _ _). }
  split; [apply Hfwd|]. split; [by rewrite Hfwd|].
  intros adj'. by rewrite !Hfwd.
Qed.

(** C7: [train_step] resets the gradients, runs one forward pass, computes
    the multi-label loss of the predictions, runs backward on it, clips the
    gradient norm at 5 and makes one optimizer step, in this order, on the
    model and optimizer state left by the step before; it returns the
    predictions of the forward pass and the value of the loss; when the
    forward pass raises, the error is propagated after the reset alone. *)
Theorem train_step_sequence {R : Type} `{Scalar R} {Adj Var Optim : Type}
    {trainer : GSSupervised.Trainer (R:=R) (Adj:=Adj) Var Optim}
    (self : GSSupervised.t R Adj) (optim : Optim)
    (ids : list nat) (features : Tensor.t R) (adj : Adj) (labels : Tensor.t R) :
  (∀ preds tr,
     forward self ids features adj = (Ok preds, tr) →
     let loss := multilabel_soft_margin_loss preds labels in
     train_step ids features adj labels (self, optim)
     = ((Ok (preds, var_data_0 loss),
         [zero_grad_call; forward_call ids] ++ tr
         ++ [loss_call preds labels; backward_call; clip_grad_norm_call 5;
             optimizer_step_call]),
        optimizer_step self (clip_grad_norm 5 (backward loss (zero_grad optim)))))
  ∧ (∀ e tr,
       forward self ids features adj = (Raise e, tr) →
       train_step ids features adj labels (self, optim)
       = ((Raise e, [zero_grad_call; forward_call ids] ++ tr),
          (self, zero_grad optim))).
Proof.
  split.
  - intros preds tr Hfwd loss. unfold train_step, tr_bind, tr_optim, tr_lift,
      tr_step, tr_ret. simpl. rewrite Hfwd. simpl.
    by destruct (optimizer_step _ _).
  - intros e tr Hfwd. unfold train_step, tr_bind, tr_optim, tr_lift. simpl.
    by rewrite Hfwd.
Qed.

Lemma train_step_sequence_witness :
  forward Example.model Example.ids Example.features Example.adj
  = (Ok Example.logits,
     (forward Example.model Example.ids Example.features Example.adj).2)
  ∧ (train_step (trainer:=Example.trainer) Example.ids Example.features Example.adj
       Example.labels (Example.model, [7%Z])).1.1
    = Ok (Example.logits, 18%Z).
Proof.
  assert (Hfwd : forward Example.model Example.ids Example.features Example.adj
                 = (Ok Example.logits,
                    (forward Example.model Example.ids Example.features Example.adj).2))
    by (vm_compute; reflexivity).
  refine (conj Hfwd _).
  exact (f_equal (λ r, r.1.1)
           (proj1 (train_step_sequence (trainer:=Example.trainer) Example.model [7%Z]
                     Example.ids Example.features Example.adj Example.labels)
              _ _ Hfwd)).
Defined.

(** C8 as amended: in a forward pass that returns, the aggregator built
    from layer_specs[0] is the first one applied, on all the adjacent pairs
    of the sampled levels; the last one applied, which gives the single
    final level, is the aggregator built from the last layer spec. *)
Theorem first_layer_spec_is_applied_first {R : Type} `{Scalar R} {Adj : Type}
    (input_dim num_classes : nat) (layer_specs : list (GSSupervised.layer_spec R Adj))
    (learning_rate weight_decay : R) (draw : nat → list R)
    (self : GSSupervised.t R Adj) (ids : list nat) (features logits : Tensor.t R)
    (adj : Adj) (tr : list (GSSupervised.call R Adj)) :
  GSSupervised.init input_dim num_classes layer_specs learning_rate weight_decay draw
  = Ok self →
  forward self ids features adj = (Ok logits, tr) →
  layer_specs ≠ [] →
  ∃ spec_first spec_last agg_first agg_last,
    layer_specs !! 0 = Some spec_first ∧ last layer_specs = Some spec_last
    ∧ agg_layers self !! 0 = Some agg_first ∧ last (agg_layers self) = Some agg_last
    ∧ MeanAggregator.output_dim_ agg_first = output_dim spec_first
    ∧ MeanAggregator.activation agg_first = activation spec_first
    ∧ MeanAggregator.output_dim_ agg_last = output_dim spec_last
    ∧ MeanAggregator.activation agg_last = activation spec_last
    ∧ head (applied_aggs tr) = Some agg_first
    ∧ last (applied_aggs tr) = Some agg_last
    ∧ applied_aggs tr = schedule (agg_layers self) (length layer_specs + 1).
Proof.
  intros Hinit Hfwd Hne.
  pose proof (init_lengths _ _ _ _ _ _ _ Hinit) as (Hs & Ha & _).
  pose proof (init_Ok _ _ _ _ _ _ _ Hinit) as (_ & Hlayers & _).
  pose proof (applied_aggs_forward _ _ _ _ _ _ Hfwd) as Htr. rewrite Hs in Htr.
  assert (0 < length layer_specs) as Hpos by (destruct layer_specs; [done|simpl; lia]).
  destruct (lookup_lt_is_Some_2 (agg_layers self) 0) as [agg_first Hfirst]; [lia|].
  destruct (lookup_lt_is_Some_2 (agg_layers self) (pred (length (agg_layers self))))
    as [agg_last Hlast]; [lia|].
  pose proof Hfirst as Hfirst'. pose proof Hlast as Hlast'.
  rewrite Hlayers in Hfirst', Hlast'.
  apply layers_of_lookup in Hfirst' as (spec_first & Hsf & Hf).
  apply layers_of_lookup in Hlast' as (spec_last & Hsl & Hl).
  exists spec_first, spec_last, agg_first, agg_last.
  split; [done|]. split.
  { rewrite last_lookup. rewrite <-Hlayers, Ha in Hsl. done. }
  split; [done|]. split; [by rewrite last_lookup|].
  split; [by rewrite Hf|]. split; [by rewrite Hf|].
  split; [by rewrite Hl|]. split; [by rewrite Hl|].
  rewrite Htr. split; [|split; [|done]].
  - rewrite head_schedule by lia. by rewrite head_lookup.
  - rewrite <-Ha, last_schedule. by rewrite last_lookup.
Qed.

Lemma first_layer_spec_is_applied_first_witness :
  GSSupervised.init 2 3 Example.layer_specs 0%Z 0%Z Example.draw = Ok Example.model
  ∧ forward Example.model Example.ids Example.features Example.adj
    = (Ok Example.logits,
       (forward Example.model Example.ids Example.features Example.adj).2)
  ∧ Example.layer_specs ≠ []
  ∧ ∃ agg_first agg_last,
      agg_layers Example.model !! 0 = Some agg_first
      ∧ head (applied_aggs
                (forward Example.model Example.ids Example.features Example.adj).2)
        = Some agg_first
      ∧ last (applied_aggs
                (forward Example.model Example.ids Example.features Example.adj).2)
        = Some agg_last.
Proof.
  assert (Hinit : GSSupervised.init 2 3 Example.layer_specs 0%Z 0%Z Example.draw
                  = Ok Example.model) by reflexivity.
  assert (Hfwd : forward Example.model Example.ids Example.features Example.adj
                 = (Ok Example.logits,
                    (forward Example.model Example.ids Example.features Example.adj).2))
    by (vm_compute; reflexivity).
  assert (Hne : Example.layer_specs ≠ []) by done.
  refine (conj Hinit (conj Hfwd (conj Hne _))).
  destruct (first_layer_spec_is_applied_first 2 3 Example.layer_specs 0%Z 0%Z
              Example.draw Example.model Example.ids Example.features Example.logits
              Example.adj _ Hinit Hfwd Hne)
    as (spec_first & spec_last & agg_first & agg_last & _ & _ & Hfirst & _ & _ & _
        & _ & _ & Hhead & Hlast & _).
  exists agg_first, agg_last. exact (conj Hfirst (conj Hhead Hlast)).
Defined.

(** C8 as stated fails on a model of two layers: the aggregator applied
    last is the one built from layer_specs[1], of output_dim 1, not the one
    built from layer_specs[0], of output_dim 2. *)
Lemma last_applied_is_not_first_layer_spec :
  GSSupervised.init 2 3 Example.layer_specs 0%Z 0%Z Example.draw = Ok Example.model
  ∧ (forward Example.model Example.ids Example.features Example.adj).1
    = Ok Example.logits
  ∧ agg_layers Example.model !! 0 = Some Example.agg0
  ∧ MeanAggregator.output_dim_ Example.agg0 = 2
  ∧ MeanAggregator.output_dim_
      <$> last (applied_aggs
                  (forward Example.model Example.ids Example.features Example.adj).2)
    = Some 1
  ∧ last (applied_aggs
            (forward Example.model Example.ids Example.features Example.adj).2)
    ≠ agg_layers Example.model !! 0.
Proof.
  split; [reflexivity|]. split; [by vm_compute|]. split; [reflexivity|].
  split; [reflexivity|]. split; [by vm_compute|].
  intros Heq. apply (f_equal (fmap MeanAggregator.output_dim_)) in Heq.
  vm_compute in Heq. done.
Qed.

(** C9: with one sampled neighbor per row ([Tensor.rows neibs] equal to
    [Tensor.rows x]) the reshape makes groups of one row, the mean over a
    group is its row, so the pooled batch is the neighbor batch, its
    projection is [fc_neib] of the neighbor batch, and the aggregator
    returns the activation of the combination of [fc_x x] and
    [fc_neib neibs]. *)
Theorem single_sample_pooling_is_identity {R : Type} `{ExactScalar R}
    (agg : MeanAggregator.t R) (x neibs : Tensor.t R) :
  Tensor.wf neibs → 0 < Tensor.rows x → 0 < Tensor.cols neibs →
  Tensor.rows neibs = Tensor.rows x →
  (∃ a, Tensor.view neibs (Tensor.rows x) (Tensor.cols neibs) = Ok a
        ∧ Tensor.dim1 a = 1 ∧ Tensor.mean_dim1 a = neibs)
  ∧ Spec.pool (Tensor.rows x) 1 neibs = neibs
  ∧ MeanAggregator.forward agg x neibs
    = (x_emb ← Linear.forward (MeanAggregator.fc_x agg) x;
       neib_emb ← Linear.forward (MeanAggregator.fc_neib agg) neibs;
       out ← MeanAggregator.combine_fn agg [x_emb; neib_emb];
       mret (MeanAggregator.apply_activation agg out)).
Proof.
  intros Hwf HN HD Hrows.
  assert (Hview : Tensor.view neibs (Tensor.rows x) (Tensor.cols neibs)
                  = Ok (Tensor.mk3 (Tensor.rows neibs) 1 (Tensor.cols neibs)
                          (Tensor.storage neibs))).
  { rewrite Hrows. apply view_accepts; [done|done|lia]. }
  split; [|split].
  - eexists. split; [exact Hview|]. split; [done|]. by apply mean_dim1_single.
  - rewrite <-Hrows, <-mean_dim1_pool by (done || lia). by apply mean_dim1_single.
  - unfold MeanAggregator.forward. rewrite Hview. simpl.
    by rewrite mean_dim1_single.
Qed.

Lemma single_sample_pooling_is_identity_witness :
  Tensor.wf Example.neibs1 ∧ 0 < Tensor.rows Example.x
  ∧ 0 < Tensor.cols Example.neibs1
  ∧ Tensor.rows Example.neibs1 = Tensor.rows Example.x
  ∧ Spec.pool (Tensor.rows Example.x) 1 Example.neibs1 = Example.neibs1.
Proof.
  assert (Hwf : Tensor.wf Example.neibs1) by reflexivity.
  assert (HN : 0 < Tensor.rows Example.x) by (simpl; lia).
  assert (HD : 0 < Tensor.cols Example.neibs1) by (simpl; lia).
  assert (Hrows : Tensor.rows Example.neibs1 = Tensor.rows Example.x) by reflexivity.
  refine (conj Hwf (conj HN (conj HD (conj Hrows _)))).
  exact (proj1 (proj2 (single_sample_pooling_is_identity Example.agg
    Example.x Example.neibs1 Hwf HN HD Hrows))).
Defined.

(** C10: when the sampler of every layer returns len(ids) * n_samples ids,
    level k of the list that [_sample] returns has |ids| * n_1 * ... * n_k
    rows; the lists of all reduction rounds keep these row counts, so the
    second level of every adjacent pair has n_(k+1) times the rows of the
    first; every aggregator call of the forward pass is made on such a
    pair, whose row counts divide; and the forward pass never raises the
    shape error of the reshape. On a non-empty batch of ids, with features
    of width input_dim and positive sample counts and output widths, it
    raises no torch error at all, only what the sampling raises. *)
Theorem sampler_contract_row_counts {R : Type} `{Scalar R} {Adj : Type}
    (input_dim num_classes : nat) (layer_specs : list (GSSupervised.layer_spec R Adj))
    (learning_rate weight_decay : R) (draw : nat → list R)
    (self : GSSupervised.t R Adj) (ids : list nat) (features : Tensor.t R) (adj : Adj) :
  GSSupervised.init input_dim num_classes layer_specs learning_rate weight_decay draw
  = Ok self →
  Forall sampler_contract layer_specs →
  let ns := n_samples <$> layer_specs in
  (∀ levels tr, _sample self ids features adj = (Ok levels, tr) →
     length levels = length layer_specs + 1
     ∧ rows_profile (length ids) ns levels)
  ∧ (∀ r levels tr final (tr' : list (GSSupervised.call R Adj)),
       _sample self ids features adj = (Ok levels, tr) →
       reduce_loop (take r (agg_layers self)) levels = (Ok final, tr') →
       ∀ k x y, final !! k = Some x → final !! (k + 1) = Some y →
         ∃ n, ns !! k = Some n
              ∧ Tensor.rows x = length ids * prod_list (take k ns)
              ∧ Tensor.rows y = Tensor.rows x * n)
  ∧ (∀ agg x y, agg_call agg x y ∈ (forward self ids features adj).2 →
       (∃ k n, ns !! k = Some n
               ∧ Tensor.rows x = length ids * prod_list (take k ns)
               ∧ Tensor.rows y = Tensor.rows x * n)
       ∧ (Tensor.rows x | Tensor.rows y))
  ∧ (forward self ids features adj).1 ≠ Raise (RuntimeError invalid_view_shape)
  ∧ (Forall positive_spec layer_specs → ids ≠ [] →
     Tensor.cols features = input_dim → 0 < input_dim →
     ∀ e, (forward self ids features adj).1 = Raise e → sample_error e).
Proof.
  intros Hinit Hc ns.
  pose proof (init_lengths _ _ _ _ _ _ _ Hinit) as (_ & Ha & Hdef).
  pose proof (_sample_rows _ _ _ _ _ _ _ ids features adj Hinit Hc) as Hsample.
  pose proof (forward_rows _ _ _ _ _ _ _ ids features adj Hinit Hc) as Hforward.
  split; [|split; [|split; [|split]]].
  - intros levels tr Hsam.
    pose proof (post_value _ _ _ _ levels Hsample) as Hl.
    rewrite Hsam in Hl. by destruct Hl.
  - intros r levels tr final tr' Hsam Hloop k x y Hx Hy.
    pose proof (post_value _ _ _ _ levels Hsample) as Hl.
    rewrite Hsam in Hl. destruct Hl as [Hp Hlen]; [done|].
    assert (HI : rows_profile (length ids) ns levels
                 ∧ length levels ≤ length ns + 1).
    { split; [done|]. unfold ns. rewrite length_fmap. lia. }
    pose proof (reduce_loop_post (Adj:=Adj) (take r (agg_layers self)) levels
                  (λ lv, rows_profile (length ids) ns lv ∧ length lv ≤ length ns + 1)
                  (λ e, e ≠ RuntimeError invalid_view_shape)
                  (pair_ratio (length ids) ns) HI) as Hpost.
    assert (Hfinal : rows_profile (length ids) ns final
                     ∧ length final ≤ length ns + 1).
    { eapply (post_value _ _ _ _ final) in Hpost.
      - by destruct Hpost.
      - intros agg lv Hin%subseteq_take HIlv. apply reduce_round_rows; [|done].
        by eapply Forall_forall in Hdef.
      - by rewrite Hloop. }
    destruct Hfinal as [Hpf Hlf]. by eapply profile_adjacent.
  - intros agg x y Hin.
    pose proof (post_calls _ _ _ _ Hforward) as Hcalls.
    eapply Forall_forall in Hcalls; [|exact Hin]. simpl in Hcalls.
    split; [done|]. destruct Hcalls as (k & n & _ & _ & ->).
    exists n. lia.
  - intros Herr. by apply (post_exn _ _ _ _ _ Hforward Herr).
  - intros Hpos Hne Hcols Hd e Herr.
    eapply post_exn; [|exact Herr].
    eapply (forward_total input_dim num_classes layer_specs); try done.
    eapply post_weaken; [apply (_sample_length self ids features adj)|..]; done.
Qed.

Lemma sampler_contract_row_counts_witness :
  GSSupervised.init 2 3 Example.layer_specs 0%Z 0%Z Example.draw = Ok Example.model
  ∧ Forall sampler_contract Example.layer_specs
  ∧ _sample Example.model Example.ids Example.features Example.adj
    = (Ok Example.levels, Example.sampler_calls)
  ∧ rows_profile 3 [2; 3] Example.levels.
Proof.
  assert (Hinit : GSSupervised.init 2 3 Example.layer_specs 0%Z 0%Z Example.draw
                  = Ok Example.model) by reflexivity.
  assert (Hc : Forall sampler_contract Example.layer_specs).
  { repeat constructor; apply first_neighbor_contract. }
  assert (Hsam : _sample Example.model Example.ids Example.features Example.adj
                 = (Ok Example.levels, Example.sampler_calls)) by reflexivity.
  refine (conj Hinit (conj Hc (conj Hsam _))).
  exact (proj2 (proj1 (sampler_contract_row_counts 2 3 Example.layer_specs 0%Z 0%Z
                         Example.draw Example.model Example.ids Example.features
                         Example.adj Hinit Hc) _ _ Hsam)).
Defined.

(** * Further properties

    Lemmas on failing calls, on the frontiers of the sampling and on the
    rows of the results, then the properties themselves. *)

(** ** Failing calls *)
Section failing.
Context {R : Type} `{Scalar R} {Adj : Type}.
Abbreviation py := (GSSupervised.py R Adj).
Abbreviation call := (GSSupervised.call R Adj).
Implicit Types (agg : MeanAggregator.t R) (x y out : Tensor.t R)
  (levels : list (Tensor.t R)) (self : GSSupervised.t R Adj)
  (ids : list nat) (adj : Adj).

Lemma py_bind_Raise_l {A B} (c : py A) (f : A → py B) (e : exn) (tr : list call) :
  c = (Raise e, tr) → c ≫= f = (Raise e, tr).
Proof. by intros ->. Qed.

Lemma index_out_of_range (features : Tensor.t R) ids :
  Exists (λ i, Tensor.rows features ≤ i) ids →
  Tensor.index features ids = Raise IndexError.
Proof.
  intros Hex. unfold Tensor.index.
  assert (forallb (λ i, i <? Tensor.rows features) ids = false) as ->; [|done].
  induction Hex as [i ids Hi|i ids _ IH]; simpl.
  - by rewrite (proj2 (Nat.ltb_ge _ _) Hi).
  - rewrite IH. apply andb_false_r.
Qed.

Lemma mapM_cons_Raise {A B} (f : A → py B) (a : A) (l : list A) (e : exn)
    (tr : list call) :
  f a = (Raise e, tr) → mapM f (a :: l) = (Raise e, tr).
Proof.
  intros Hf. change (mapM f (a :: l)) with (b ← f a; k ← mapM f l; mret (b :: k)).
  by rewrite Hf.
Qed.

(** a round whose first call raises stops there *)
Lemma reduce_round_first_raises agg levels x y (e : exn) :
  levels !! 0 = Some x → levels !! 1 = Some y →
  MeanAggregator.forward agg x y = Raise e →
  (reduce_round agg levels : py _) = (Raise e, [agg_call agg x y]).
Proof.
  intros Hx Hy He. unfold reduce_round.
  destruct levels as [|x' [|y' rest]]; simpl in Hx, Hy; simplify_eq.
  change (seq 0 (length (x :: y :: rest) - 1)) with (0 :: seq 1 (length rest)).
  apply mapM_cons_Raise. unfold getitem, apply_agg.
  cbn -[MeanAggregator.forward]. by rewrite He.
Qed.

Lemma forward_first_raises self ids (features : Tensor.t R) adj agg
    (children : list (MeanAggregator.t R)) levels (t0 : list call) x y (e : exn) :
  agg_layers self = agg :: children →
  _sample self ids features adj = (Ok levels, t0) →
  levels !! 0 = Some x → levels !! 1 = Some y →
  MeanAggregator.forward agg x y = Raise e →
  forward self ids features adj = (Raise e, t0 ++ [agg_call agg x y]).
Proof.
  intros Hagg Hsam Hx Hy He. unfold forward. rewrite Hsam, Hagg.
  rewrite py_bind_unfold. simpl.
  by rewrite (reduce_round_first_raises _ _ _ _ _ Hx Hy He).
Qed.
End failing.

(** ** The frontiers of the sampling *)
Section frontiers.
Context {R : Type} `{Scalar R} {Adj : Type}.
Abbreviation py := (GSSupervised.py R Adj).
Abbreviation call := (GSSupervised.call R Adj).
Implicit Types (levels : list (Tensor.t R)) (self : GSSupervised.t R Adj)
  (ids : list nat) (adj : Adj) (fns : list (list nat → Adj → sampled)).

Lemma sampled_ids_length fns ids adj (fronts : list (list nat)) :
  sampled_ids fns ids adj = Some fronts → length fronts = length fns.
Proof.
  revert ids fronts. induction fns as [|fn fns IH]; intros ids fronts; simpl.
  - by intros [= <-].
  - destruct (fn ids adj) as [out|]; [|done].
    destruct (sampled_ids fns out adj) as [rest|] eqn:Hrest; [|done].
    intros [= <-]. simpl. f_equal. by eapply IH.
Qed.

Lemma apply_sampler_Ok (fn : list nat → Adj → sampled) ids adj (out : list nat)
    (tr : list call) :
  apply_sampler fn ids adj = (Ok out, tr) ↔
  fn ids adj = Sampled out ∧ tr = [sampler_call ids adj].
Proof.
  unfold apply_sampler. rewrite py_bind_unfold. simpl.
  destruct (fn ids adj) as [out'|code]; simpl; split.
  - by intros [= -> <-].
  - by intros [[= ->] ->].
  - done.
  - by intros [? _].
Qed.

Lemma lift_Ok {A} (r : result A) (a : A) (tr : list call) :
  (lift r : py A) = (Ok a, tr) ↔ r = Ok a ∧ tr = [].
Proof. unfold lift. split; [by intros [= -> <-]|by intros [-> ->]]. Qed.

(** The loop with its accumulator against the frontiers: it returns when
    every sampler returns and every frontier indexes [features]. *)
Lemma sample_loop_Ok fns ids (features : Tensor.t R) adj all_feats levels
    (tr : list call) :
  sample_loop fns ids features adj all_feats = (Ok levels, tr) ↔
  ∃ fronts lvls,
    sampled_ids fns ids adj = Some fronts
    ∧ Forall2 (λ f lvl, Tensor.index features f = Ok lvl) fronts lvls
    ∧ levels = all_feats ++ lvls
    ∧ tr = (λ f, sampler_call f adj) <$> take (length fns) (ids :: fronts).
Proof.
  revert ids all_feats levels tr.
  induction fns as [|fn fns IH]; intros ids all_feats levels tr.
  - simpl. split.
    + intros [= <- <-]. exists [], []. by rewrite app_nil_r.
    + intros (fronts & lvls & [= <-] & ->%Forall2_nil_inv_l & -> & ->).
      by rewrite app_nil_r.
  - cbn [sample_loop sampled_ids]. rewrite py_bind_Ok. split.
    + intros (out & t1 & t2 & [Hfn ->]%apply_sampler_Ok
              & (feats & t3 & t4 & [Hfeats ->]%lift_Ok & Hloop & ->)%py_bind_Ok & ->).
      apply IH in Hloop as (fronts & lvls & Hfr & Hlv & -> & ->).
      exists (out :: fronts), (feats :: lvls). rewrite Hfn, Hfr. simpl.
      split; [done|]. split; [by constructor|]. split; [by rewrite <-app_assoc|done].
    + intros (fronts & lvls & Hfr & Hlv & -> & ->).
      destruct (fn ids adj) as [out|] eqn:Hfn; [|done].
      destruct (sampled_ids fns out adj) as [rest|] eqn:Hrest; [|done].
      injection Hfr as <-.
      apply Forall2_cons_inv_l in Hlv as (feats & lvls' & Hfeats & Hlv & ->).
      exists out, [sampler_call ids adj],
        ((λ f, sampler_call f adj) <$> take (length fns) (out :: rest)).
      split; [by apply apply_sampler_Ok|]. split; [|done].
      apply py_bind_Ok.
      exists feats, [], ((λ f, sampler_call f adj) <$> take (length fns) (out :: rest)).
      split; [by apply lift_Ok|].
      split; [|done]. apply IH. exists rest, lvls'.
      split; [done|]. split; [done|]. split; [by rewrite <-app_assoc|done].
Qed.

Lemma _sample_Ok self ids (features : Tensor.t R) adj levels (tr : list call) :
  _sample self ids features adj = (Ok levels, tr) ↔
  ∃ fronts,
    sampled_ids (sampler_fns self) ids adj = Some fronts
    ∧ Forall2 (λ f lvl, Tensor.index features f = Ok lvl) (ids :: fronts) levels
    ∧ tr = (λ f, sampler_call f adj)
             <$> take (length (sampler_fns self)) (ids :: fronts).
Proof.
  unfold _sample. rewrite py_bind_Ok. split.
  - intros (feats & t1 & t2 & [Hfeats ->]%lift_Ok
            & (fronts & lvls & Hfr & Hlv & -> & ->)%sample_loop_Ok & ->).
    exists fronts. split; [done|]. split; [by constructor|done].
  - intros (fronts & Hfr & Hlv & ->).
    apply Forall2_cons_inv_l in Hlv as (feats & lvls & Hfeats & Hlv & ->).
    exists feats, [],
      ((λ f, sampler_call f adj) <$> take (length (sampler_fns self)) (ids :: fronts)).
    split; [by apply lift_Ok|]. split; [|done].
    apply sample_loop_Ok. by exists fronts, lvls.
Qed.
End frontiers.

(** ** Where a forward pass fails *)
Section failures.
Context {R : Type} `{Scalar R} {Adj : Type}.
Abbreviation py := (GSSupervised.py R Adj).
Abbreviation call := (GSSupervised.call R Adj).
Implicit Types (agg : MeanAggregator.t R) (x y : Tensor.t R)
  (levels : list (Tensor.t R)) (self : GSSupervised.t R Adj)
  (ids : list nat) (adj : Adj).

Lemma view_invalid y (n : nat) :
  ¬ (n | Tensor.rows y) →
  0 < n → 0 < Tensor.cols y →
  Tensor.view y n (Tensor.cols y) = Raise (RuntimeError invalid_view_shape).
Proof.
  intros Hnd Hn Hd.
  destruct (Tensor.view y n (Tensor.cols y)) as [a|e] eqn:Hv.
  - destruct Hnd. apply view_Ok_divide. by exists a.
  - revert Hv. unfold Tensor.view. cbv zeta.
    destruct (_ || _); [|by intros [= <-]].
    destruct (Nat.eqb_spec (n * Tensor.cols y) 0); [nia|done].
Qed.

Lemma forward_view_Raise agg x y (e : exn) :
  Tensor.cols x = Linear.in_features (MeanAggregator.fc_x agg) →
  Tensor.view y (Tensor.rows x) (Tensor.cols y) = Raise e →
  MeanAggregator.forward agg x y = Raise e.
Proof.
  intros Hx Hv. unfold MeanAggregator.forward.
  destruct (linear_forward_accepts (MeanAggregator.fc_x agg) x Hx) as (x_emb & -> & _).
  simpl. by rewrite Hv.
Qed.

Lemma forward_matmul_Raise agg x y :
  Tensor.cols x ≠ Linear.in_features (MeanAggregator.fc_x agg) →
  MeanAggregator.forward agg x y = Raise (RuntimeError matmul_shape).
Proof.
  intros Hx. unfold MeanAggregator.forward, Linear.forward.
  by destruct (Nat.eqb_spec (Tensor.cols x)
                 (Linear.in_features (MeanAggregator.fc_x agg))).
Qed.

Lemma default_last_cons {A} (a b : A) (l : list A) :
  default a (last (b :: l)) = default b (last l).
Proof. rewrite last_cons. by destruct (last l). Qed.

Lemma take_snoc_last {A} (a : A) (l : list A) :
  take (length l) (a :: l) ++ [default a (last l)] = a :: l.
Proof.
  revert a. induction l as [|b l IH]; intros a; [done|].
  rewrite default_last_cons. cbn [length take app]. f_equal. apply IH.
Qed.

Lemma index_all_accept (features : Tensor.t R) (fronts : list (list nat)) :
  Forall (Forall (λ i, i < Tensor.rows features)) fronts →
  ∃ lvls, Forall2 (λ f lvl, Tensor.index features f = Ok lvl) fronts lvls.
Proof.
  induction 1 as [|f fronts Hf _ [lvls IH]]; [by exists []|].
  destruct (index_accepts features f Hf) as [lvl Hlvl].
  exists (lvl :: lvls). by constructor.
Qed.

(** The samplers of a prefix that return: the loop goes on with the rest
    from the last frontier. *)
Lemma sample_loop_prefix (pre rest : list (list nat → Adj → sampled)) ids
    (features : Tensor.t R) adj levels (fronts : list (list nat))
    (lvls : list (Tensor.t R)) :
  sampled_ids pre ids adj = Some fronts →
  Forall2 (λ f lvl, Tensor.index features f = Ok lvl) fronts lvls →
  sample_loop (pre ++ rest) ids features adj levels
  = ((sample_loop rest (default ids (last fronts)) features adj (levels ++ lvls)).1,
     ((λ f, sampler_call f adj) <$> take (length pre) (ids :: fronts))
     ++ (sample_loop rest (default ids (last fronts)) features adj (levels ++ lvls)).2).
Proof.
  revert ids levels fronts lvls.
  induction pre as [|fn pre IH]; intros ids levels fronts lvls.
  - simpl. intros [= <-] ->%Forall2_nil_inv_l. rewrite app_nil_r.
    cbn [last default]. by destruct (sample_loop rest ids features adj levels).
  - cbn [sampled_ids]. destruct (fn ids adj) as [out|] eqn:Hfn; [|done].
    destruct (sampled_ids pre out adj) as [fr|] eqn:Hfr; [|done].
    intros [= <-] (feats & lv & Hfeats & Hlv & ->)%Forall2_cons_inv_l.
    rewrite default_last_cons. cbn [app sample_loop].
    unfold apply_sampler. rewrite Hfn. rewrite !py_bind_unfold.
    cbn [fst snd tell lift mret py_ret app]. rewrite Hfeats.
    unfold lift. rewrite !py_bind_unfold. cbn [fst snd app length take fmap list_fmap].
    rewrite (IH out (levels ++ [feats]) fr lv Hfr Hlv).
    by rewrite <-app_assoc.
Qed.

(** A sampler or the indexing after it fails: the forward pass stops
    there, after the calls of the samplers up to that one. *)
Lemma forward_sampling_stops self ids (features : Tensor.t R) adj
    (pre rest : list (list nat → Adj → sampled)) (fn : list nat → Adj → sampled)
    (fronts : list (list nat)) (e : exn) :
  sampler_fns self = pre ++ fn :: rest →
  sampled_ids pre ids adj = Some fronts →
  Forall (Forall (λ i, i < Tensor.rows features)) (ids :: fronts) →
  (∀ out, fn (default ids (last fronts)) adj = Sampled out →
          Tensor.index features out = Raise e) →
  (∀ code, fn (default ids (last fronts)) adj = SamplerRaised code →
           e = SamplerError code) →
  forward self ids features adj
  = (Raise e, (λ f, sampler_call f adj) <$> (ids :: fronts)).
Proof.
  intros Hfns Hfr [Hids Hin]%Forall_cons HS HR.
  destruct (index_accepts features ids Hids) as [feats Hfeats].
  destruct (index_all_accept features fronts Hin) as [lvls Hlvls].
  unfold forward. apply py_bind_Raise_l.
  unfold _sample. rewrite Hfeats, Hfns. unfold lift at 1.
  rewrite py_bind_unfold. cbn [fst snd app].
  rewrite (sample_loop_prefix pre (fn :: rest) ids features adj [feats] fronts lvls Hfr Hlvls).
  rewrite <-(take_snoc_last ids fronts) at 3.
  rewrite <-(sampled_ids_length _ _ _ _ Hfr), fmap_app.
  cbn [sample_loop]. unfold apply_sampler.
  destruct (fn (default ids (last fronts)) adj) as [out|code] eqn:Hfn.
  - rewrite !py_bind_unfold. cbn [fst snd tell mret py_ret app].
    rewrite (HS out eq_refl). by rewrite !py_bind_unfold.
  - rewrite (HR code eq_refl). by rewrite !py_bind_unfold.
Qed.
End failures.

(** ** The first aggregator call *)
Section first_call.
Context {R : Type} `{Scalar R} {Adj : Type}.
Abbreviation py := (GSSupervised.py R Adj).
Abbreviation call := (GSSupervised.call R Adj).
Implicit Types (agg : MeanAggregator.t R) (x y : Tensor.t R)
  (levels : list (Tensor.t R)) (self : GSSupervised.t R Adj)
  (ids : list nat) (adj : Adj).

Lemma view_empty y : Tensor.rows y = 0 →
  Tensor.view y 0 (Tensor.cols y) = Raise (RuntimeError ambiguous_view_shape).
Proof. intros Hy. unfold Tensor.view. by rewrite Hy. Qed.

(** A model with a first layer, after a sampling that returns: the first
    aggregator is called on the features of the query ids and those of the
    ids of the first sampler; an error of this call is the error of the
    forward pass. *)
Lemma forward_first_call (d c : nat) (spec : GSSupervised.layer_spec R Adj) specs
    (lr wd : R) (draw : nat → list R) self ids (features : Tensor.t R) adj
    levels (t0 : list call) :
  GSSupervised.init d c (spec :: specs) lr wd draw = Ok self →
  _sample self ids features adj = (Ok levels, t0) →
  ∃ agg x y out,
    head (agg_layers self) = Some agg
    ∧ Linear.in_features (MeanAggregator.fc_x agg) = d
    ∧ sample_fn spec ids adj (n_samples spec) = Sampled out
    ∧ Tensor.index features ids = Ok x ∧ Tensor.index features out = Ok y
    ∧ levels !! 0 = Some x ∧ levels !! 1 = Some y
    ∧ ∀ e, MeanAggregator.forward agg x y = Raise e →
           forward self ids features adj = (Raise e, t0 ++ [agg_call agg x y]).
Proof.
  intros (Hfns & Haggs & _)%init_Ok Hsam.
  destruct (proj1 (_sample_Ok _ _ _ _ _ _) Hsam) as (fronts & Hfr & Hlv & _).
  rewrite Hfns in Hfr. cbn [fmap list_fmap sampled_ids] in Hfr.
  destruct (sample_fn spec ids adj (n_samples spec)) as [out|] eqn:Hout; [|done].
  destruct (sampled_ids _ out adj) as [fr|]; [|done]. injection Hfr as <-.
  apply Forall2_cons_inv_l in Hlv as (x & lv & Hx & Hlv & ->).
  apply Forall2_cons_inv_l in Hlv as (y & lv' & Hy & Hlv & ->).
  cbn [layers_of] in Haggs.
  eexists _, x, y, out. rewrite Haggs.
  split; [done|]. split; [done|]. do 5 (split; [done|]).
  intros e He. by eapply forward_first_raises.
Qed.
End first_call.

(** ** A forward pass that returns *)
Section returns.
Context {R : Type} `{Scalar R} {Adj : Type}.
Abbreviation py := (GSSupervised.py R Adj).
Abbreviation call := (GSSupervised.call R Adj).
Implicit Types (agg : MeanAggregator.t R) (x y : Tensor.t R)
  (levels : list (Tensor.t R)) (self : GSSupervised.t R Adj)
  (ids : list nat) (adj : Adj).

Lemma finish_Ok self levels (logits : Tensor.t R) (tr : list call) :
  finish self levels = (Ok logits, tr) →
  ∃ final, levels = [final]
    ∧ Linear.forward (fc self) (Tensor.normalize final) = Ok logits.
Proof.
  unfold finish. destruct levels as [|final [|? ?]]; [done| |done].
  cbn -[Linear.forward Tensor.normalize]. intros [= Hfc _]. by exists final.
Qed.

Lemma forward_Ok_finish self ids (features logits : Tensor.t R) adj (tr : list call) :
  forward self ids features adj = (Ok logits, tr) →
  ∃ levels t0 final t1,
    _sample self ids features adj = (Ok levels, t0)
    ∧ reduce_loop (agg_layers self) levels = (Ok [final], t1)
    ∧ Linear.forward (fc self) (Tensor.normalize final) = Ok logits
    ∧ tr = t0 ++ t1.
Proof.
  unfold forward.
  intros (levels & t0 & t' & Hs & (lv & t1 & t2 & Hl & Hf & ->)%py_bind_Ok & ->)%py_bind_Ok.
  pose proof (finish_calls self lv) as Hc. rewrite Hf in Hc. simpl in Hc. subst t2.
  apply finish_Ok in Hf as (final & -> & Hfc).
  exists levels, t0, final, t1. by rewrite app_nil_r.
Qed.

Lemma linear_forward_wf (fc : Linear.t R) x out :
  Linear.forward fc x = Ok out → Tensor.wf out.
Proof.
  unfold Linear.forward. case_match; [|done]. intros [= <-].
  unfold Tensor.wf. simpl.
  rewrite (length_bind_const _ (Linear.out_features fc)), length_seq; [done|].
  intros i. by rewrite length_fmap, length_seq.
Qed.

(** The first level keeps its number of rows through a round. *)
Lemma reduce_round_head_rows agg levels (N : nat) :
  MeanAggregator.combine_fn agg = MeanAggregator.default_combine_fn →
  (∀ x, head levels = Some x → Tensor.rows x = N) →
  post (λ lv', (∀ x, head lv' = Some x → Tensor.rows x = N)
               ∧ length lv' = length levels - 1)
    (λ _, True) (λ _, True) (reduce_round agg levels : py _).
Proof.
  intros Hdef Hhead.
  eapply post_weaken;
    [apply (reduce_round_post agg levels (λ k out, k = 0 → Tensor.rows out = N)
              (λ _, True) (λ _, True))| |done|done].
  - intros k x y Hx Hy. split; [done|]. split; [|done].
    intros out Hout ->. apply (forward_default_shape _ _ _ _ Hdef) in Hout as [-> _].
    apply Hhead. by rewrite head_lookup.
  - intros lv' [Hlen Hq]. split; [|done].
    intros x Hx. rewrite head_lookup in Hx. by apply (Hq 0 x).
Qed.

Lemma sample_loop_calls (fns : list (list nat → Adj → sampled)) ids
    (features : Tensor.t R) adj levels :
  length (sample_loop fns ids features adj levels).2 ≤ length fns.
Proof.
  revert ids levels. induction fns as [|fn fns IH]; intros ids levels; [done|].
  cbn [sample_loop]. unfold apply_sampler. rewrite !py_bind_unfold.
  cbn [fst snd tell mret py_ret app length].
  destruct (fn ids adj) as [out|code]; cbn [fst snd mret py_ret raise app length];
    [|lia].
  rewrite !py_bind_unfold. unfold lift. cbn [fst snd].
  destruct (Tensor.index features out) as [feats|e]; cbn [fst snd app length]; [|lia].
  specialize (IH out (levels ++ [feats])). lia.
Qed.

Lemma reduce_loop_agg_calls (children : list (MeanAggregator.t R)) levels :
  Forall is_agg_call (reduce_loop children levels : py _).2.
Proof.
  eapply post_calls.
  apply (reduce_loop_post children levels (λ _, True) (λ _, True) is_agg_call);
    [done|].
  intros agg lv _ _.
  eapply post_weaken;
    [apply (reduce_round_post agg lv (λ _ _, True) (λ _, True) is_agg_call)
    | |done|done].
  - done.
  - by intros lv' [? _].
Qed.

Lemma length_applied_aggs (tr : list call) :
  Forall is_agg_call tr → length (applied_aggs tr) = length tr.
Proof.
  induction 1 as [|c tr Hc _ IH]; [done|].
  destruct c; try done. unfold applied_aggs in *. cbn [omap list_omap agg_of_call length].
  by rewrite <-IH.
Qed.

Lemma length_schedule (children : list (MeanAggregator.t R)) :
  2 * length (schedule children (length children + 1))
  = length children * (length children + 1).
Proof.
  induction children as [|agg children IH]; [done|].
  cbn [schedule length]. rewrite length_app, length_replicate.
  replace (S (length children) + 1 - 1) with (length children + 1) by lia. nia.
Qed.
End returns.

(** ** What the aggregators receive *)
Section arguments.
Context {R : Type} `{Scalar R} {Adj : Type}.
Abbreviation py := (GSSupervised.py R Adj).
Abbreviation call := (GSSupervised.call R Adj).
Implicit Types (agg : MeanAggregator.t R) (x y : Tensor.t R)
  (levels : list (Tensor.t R)) (self : GSSupervised.t R Adj)
  (ids : list nat) (adj : Adj) (P : Tensor.t R → Prop).

Lemma length_bind_Forall {A B} (g : A → list B) (D : nat) (ks : list A) :
  Forall (λ k, length (g k) = D) ks → length (ks ≫= g) = length ks * D.
Proof.
  induction 1 as [|k ks Hk _ IH]; [done|].
  rewrite bind_cons, length_app, IH, Hk. simpl. lia.
Qed.

Lemma index_wf (features : Tensor.t R) ids x :
  Tensor.wf features → Tensor.index features ids = Ok x → Tensor.wf x.
Proof.
  intros Hwf. unfold Tensor.index.
  destruct (forallb _ ids) eqn:Hall; [|done]. intros [= <-].
  unfold Tensor.wf. simpl. apply length_bind_Forall.
  apply Forall_forall. intros i Hi. apply length_row; [done|].
  rewrite forallb_forall in Hall. apply Nat.ltb_lt, Hall.
  by apply list_elem_of_In.
Qed.

Lemma cat_dim1_wf x y out :
  Tensor.wf x → Tensor.wf y → Tensor.cat_dim1 [x; y] = Ok out → Tensor.wf out.
Proof.
  intros Hx Hy. unfold Tensor.cat_dim1. cbn [forallb].
  rewrite Nat.eqb_refl, andb_true_l, andb_true_r.
  destruct (Nat.eqb_spec (Tensor.rows y) (Tensor.rows x)) as [Hr|]; [|done].
  intros [= <-]. unfold Tensor.wf. simpl.
  rewrite (length_bind_Forall _ (Tensor.cols x + (Tensor.cols y + 0))), length_seq;
    [done|].
  apply Forall_forall. intros i [_ Hi]%elem_of_seq.
  simpl. rewrite !length_app, !length_row by (done || lia). simpl. lia.
Qed.

Lemma forward_wf agg x y out :
  MeanAggregator.combine_fn agg = MeanAggregator.default_combine_fn →
  MeanAggregator.forward agg x y = Ok out → Tensor.wf out.
Proof.
  intros Hdef. unfold MeanAggregator.forward.
  intros (x_emb & Hx & (a & Ha & (neib_emb & Hn & (c & Hc & Hout)%bind_Ok)%bind_Ok)%bind_Ok)%bind_Ok.
  apply linear_forward_wf in Hx. apply linear_forward_wf in Hn.
  rewrite Hdef in Hc. apply (cat_dim1_wf _ _ _ Hx Hn) in Hc.
  injection Hout as <-. unfold MeanAggregator.apply_activation.
  destruct (MeanAggregator.activation agg); [|done].
  unfold Tensor.wf, Tensor.map in *. simpl. by rewrite length_fmap.
Qed.

(** A property of the levels that the indexing gives and the aggregators
    keep holds of everything an aggregator is called on. *)
Lemma forward_call_args self ids (features : Tensor.t R) adj P :
  length (sampler_fns self) = length (agg_layers self) →
  (∀ ids' x, Tensor.index features ids' = Ok x → P x) →
  (∀ agg x y out, agg ∈ agg_layers self → P x → P y →
     MeanAggregator.forward agg x y = Ok out → P out) →
  Forall (agg_call_args P) (forward self ids features adj).2.
Proof.
  intros Hlen Hindex Hagg. eapply post_calls.
  apply (forward_post self ids features adj (Forall P) (λ _, True) (agg_call_args P));
    [| |done].
  - split.
    + destruct (_sample self ids features adj) as [[levels|e] t0] eqn:Hsam; [|done].
      destruct (proj1 (_sample_Ok _ _ _ _ _ _) Hsam) as (fronts & Hfr & Hlv & _).
      cbn [fst]. split.
      * apply Forall_forall. intros lvl [k Hk]%list_elem_of_lookup_1.
        destruct (Forall2_lookup_r _ _ _ _ _ Hlv Hk) as (f & _ & Hf). by eapply Hindex.
      * apply Forall2_length in Hlv. apply sampled_ids_length in Hfr.
        rewrite <-Hlv. simpl. lia.
    + eapply Forall_impl; [apply (post_calls _ _ _ _ (_sample_length self ids features adj))|].
      by intros [].
  - intros agg lv Hin Hlv.
    eapply post_weaken;
      [apply (reduce_round_post agg lv (λ _, P) (λ _, True) (agg_call_args P))
      | |done|done].
    + intros k x y Hx Hy.
      assert (P x ∧ P y) as [Hpx Hpy].
      { rewrite Forall_forall in Hlv.
        split; apply Hlv; by eapply list_elem_of_lookup_2. }
      split; [done|]. split; [|done]. intros out. by apply Hagg.
    + intros lv' [Hl Hq]. split; [|done].
      apply Forall_forall. intros out [k Hk]%list_elem_of_lookup_1. by eapply Hq.
Qed.
End arguments.

(** ** The rows of the results *)
Section rows.
Context {R : Type} `{Scalar R}.
Implicit Types (agg : MeanAggregator.t R) (x y m out : Tensor.t R) (fc : Linear.t R).

Lemma take_drop_bind_seq {A} (g : nat → list A) (D N b i : nat) :
  (∀ k, b ≤ k < b + N → length (g k) = D) → i < N →
  take D (drop (i * D) (seq b N ≫= g)) = g (b + i).
Proof.
  revert b i. induction N as [|N IH]; intros b i Hg Hi; [lia|].
  simpl seq. rewrite bind_cons.
  assert (length (g b) = D) as Hb by (apply Hg; lia).
  destruct i as [|i].
  - rewrite Nat.add_0_r, Nat.mul_0_l, drop_0. by rewrite take_app_length'.
  - rewrite drop_app_ge by (rewrite Hb; lia).
    rewrite Hb. replace (S i * D - D) with (i * D) by lia.
    rewrite IH by (try lia; intros k Hk; apply Hg; lia). f_equal. lia.
Qed.

Lemma linear_forward_row fc x out (i : nat) :
  Linear.forward fc x = Ok out → i < Tensor.rows x →
  Tensor.row out i = Spec.project fc (Tensor.row x i).
Proof.
  unfold Linear.forward. case_match; [|done]. intros [= <-] Hi.
  unfold Tensor.row. simpl. rewrite take_drop_bind_seq; [done| |done].
  intros k _. by rewrite length_fmap, length_seq.
Qed.

Lemma cat_dim1_row x y out (i : nat) :
  Tensor.wf x → Tensor.wf y → Tensor.rows y = Tensor.rows x → i < Tensor.rows x →
  Tensor.cat_dim1 [x; y] = Ok out →
  Tensor.row out i = Tensor.row x i ++ Tensor.row y i.
Proof.
  intros Hx Hy Hr Hi. rewrite cat_dim1_pair by done. intros [= <-].
  unfold Tensor.row at 1. simpl. rewrite take_drop_bind_seq; [done| |done].
  intros k Hk. rewrite length_app, !length_row by (done || lia). done.
Qed.

Lemma map_row (f : R → R) m (i : nat) :
  Tensor.row (Tensor.map f m) i = f <$> Tensor.row m i.
Proof. unfold Tensor.row, Tensor.map. simpl. by rewrite fmap_take, fmap_drop. Qed.

Lemma length_group_mean (d : nat) (group : list (list R)) :
  Forall (λ r, length r = d) group → length (Spec.group_mean d group) = d.
Proof.
  intros Hg. unfold Spec.group_mean. rewrite length_fmap.
  apply length_foldl_vec_add; [apply length_replicate|done].
Qed.

Lemma pool_row y (N n i : nat) :
  Tensor.wf y → i < N →
  Tensor.row (Spec.pool N n y) i
  = Spec.group_mean (Tensor.cols y) (take n (drop (i * n) (Spec.rows_of y))).
Proof.
  intros Hwf Hi. unfold Spec.pool, Tensor.row. simpl.
  assert (Hgroups : reshape (replicate N n) (Spec.rows_of y)
                    = (λ i, take n (drop (i * n) (Spec.rows_of y))) <$> seq 0 N).
  { apply list_eq_same_length with N.
    - by rewrite length_fmap, length_seq.
    - by rewrite length_reshape, length_replicate.
    - intros k u v Hk. rewrite lookup_reshape_replicate by done.
      rewrite list_lookup_fmap, lookup_seq_lt by done. simpl. congruence. }
  rewrite Hgroups, <-list_fmap_compose, list_join_bind, list_fmap_bind.
  rewrite take_drop_bind_seq; [done| |done].
  intros k _. simpl. apply length_group_mean.
  by apply Forall_take, Forall_drop, rows_of_width.
Qed.
End rows.

(** ** The classifier *)
Section classifier.
Context {R : Type} `{Scalar R} {Adj : Type}.
Abbreviation py := (GSSupervised.py R Adj).
Abbreviation call := (GSSupervised.call R Adj).
Implicit Types (agg : MeanAggregator.t R) (x y m : Tensor.t R)
  (levels : list (Tensor.t R)) (self : GSSupervised.t R Adj).

Lemma normalize_row_eq m (i : nat) :
  Tensor.wf m → i < Tensor.rows m →
  Tensor.row (Tensor.normalize m) i = Tensor.normalize_row (Tensor.row m i).
Proof.
  intros Hwf Hi. unfold Tensor.row at 1, Tensor.normalize. simpl.
  rewrite take_drop_bind_seq; [done| |done].
  intros k Hk. unfold Tensor.normalize_row. rewrite length_fmap.
  apply length_row; [done|lia].
Qed.

Lemma reduce_loop_wf (children : list (MeanAggregator.t R)) levels :
  Forall (λ agg, MeanAggregator.combine_fn agg = MeanAggregator.default_combine_fn)
    children →
  Forall Tensor.wf levels →
  post (λ final, Forall Tensor.wf final
                 ∧ length final = length levels - length children)
    (λ _, True) (λ _, True) (reduce_loop children levels : py _).
Proof.
  intros Hdef Hwf.
  apply (reduce_loop_post children levels (Forall Tensor.wf)); [done|].
  intros agg lv Hagg Hlv.
  eapply post_weaken;
    [apply (reduce_round_post agg lv (λ _, Tensor.wf) (λ _, True) (λ _, True))
    | |done|done].
  - intros k x y _ _. split; [done|]. split; [|done].
    intros out. apply forward_wf. rewrite Forall_forall in Hdef. by apply Hdef.
  - intros lv' [Hl Hq]. split; [|done].
    apply Forall_forall. intros out [k Hk]%list_elem_of_lookup_1. by eapply Hq.
Qed.
End classifier.

(** ** The assertion and the adjacency structure *)
Section guards.
Context {R : Type} `{Scalar R} {Adj : Type}.
Abbreviation py := (GSSupervised.py R Adj).
Abbreviation call := (GSSupervised.call R Adj).
Implicit Types (agg : MeanAggregator.t R) (x y m : Tensor.t R)
  (levels : list (Tensor.t R)) (self : GSSupervised.t R Adj)
  (ids : list nat) (adj : Adj).

Lemma forward_default_cat agg x y (e : exn) :
  MeanAggregator.combine_fn agg = MeanAggregator.default_combine_fn →
  MeanAggregator.forward agg x y = Raise e →
  e = RuntimeError matmul_shape ∨ e = RuntimeError invalid_view_shape
  ∨ e = RuntimeError ambiguous_view_shape.
Proof.
  intros Hdef. unfold MeanAggregator.forward.
  destruct (Linear.forward (MeanAggregator.fc_x agg) x) as [x_emb|e1] eqn:Hx;
    [|intros [= <-]; left; by eapply linear_forward_Raise].
  cbn [mbind result_bind].
  destruct (Tensor.view y (Tensor.rows x) (Tensor.cols y)) as [a|e2] eqn:Ha;
    [|intros [= <-]; right; by eapply view_Raise].
  cbn [mbind result_bind].
  destruct (Linear.forward (MeanAggregator.fc_neib agg) (Tensor.mean_dim1 a))
    as [neib_emb|e3] eqn:Hn; [|intros [= <-]; left; by eapply linear_forward_Raise].
  cbn [mbind result_bind]. rewrite Hdef. unfold MeanAggregator.default_combine_fn.
  apply linear_forward_Ok in Hx as (_ & Hxr & _).
  apply linear_forward_Ok in Hn as (_ & Hnr & _).
  apply view_Ok in Ha. subst a. simpl in Hnr.
  rewrite cat_dim1_pair by congruence. done.
Qed.

Lemma finish_assertion self levels :
  (finish self levels).1 = Raise AssertionError ↔ length levels ≠ 1.
Proof.
  unfold finish. destruct (Nat.eqb_spec (length levels) 1) as [Hl|Hl].
  - split; [|done]. destruct levels as [|final [|? ?]]; try done.
    cbn -[Linear.forward Tensor.normalize].
    destruct (Linear.forward _ _) eqn:Hfc; [done|].
    apply linear_forward_Raise in Hfc as ->. done.
  - done.
Qed.

(** the adjacency structure of the sampler calls replaced *)
Lemma sample_loop_adj (fns : list (list nat → Adj → sampled)) ids
    (features : Tensor.t R) adj adj' levels :
  Forall (λ fn, ∀ ids', fn ids' adj = fn ids' adj') fns →
  sample_loop fns ids features adj' levels
  = ((sample_loop fns ids features adj levels).1,
     (λ c, match c with sampler_call ids' _ => sampler_call ids' adj' | _ => c end)
       <$> (sample_loop fns ids features adj levels).2).
Proof.
  intros Hfns. revert ids levels.
  induction Hfns as [|fn fns Hfn _ IH]; intros ids levels; [done|].
  cbn [sample_loop]. unfold apply_sampler. rewrite <-Hfn. rewrite !py_bind_unfold.
  cbn [fst snd tell mret py_ret app].
  destruct (fn ids adj) as [out|code]; cbn [fst snd mret py_ret raise app]; [|done].
  rewrite !py_bind_unfold. unfold lift. cbn [fst snd].
  destruct (Tensor.index features out) as [feats|e]; cbn [fst snd app]; [|done].
  by rewrite (IH out (levels ++ [feats])).
Qed.

Lemma reduce_finish_agg_calls self levels :
  Forall is_agg_call (reduce_loop (agg_layers self) levels ≫= finish self : py _).2.
Proof.
  rewrite py_bind_unfold.
  pose proof (reduce_loop_agg_calls (Adj:=Adj) (agg_layers self) levels) as Hagg.
  destruct (reduce_loop (agg_layers self) levels) as [[final|e] t1];
    cbn [fst snd] in *; [|done].
  by rewrite finish_calls, app_nil_r.
Qed.

Lemma fmap_agg_calls (tr : list call) (f : call → call) :
  (∀ agg x y, f (agg_call agg x y) = agg_call agg x y) →
  Forall is_agg_call tr → f <$> tr = tr.
Proof.
  intros Hf. induction 1 as [|c tr Hc _ IH]; [done|].
  destruct c; try done. by rewrite fmap_cons, Hf, IH.
Qed.
End guards.

(** ** The properties *)

(** X1: a query id that is not a row of the feature table makes the
    forward pass raise IndexError before any sampler or aggregator is
    called. *)
Theorem forward_rejects_unknown_id {R : Type} `{Scalar R} {Adj : Type}
    (self : GSSupervised.t R Adj) (ids : list nat) (features : Tensor.t R) (adj : Adj) :
  Exists (λ i, Tensor.rows features ≤ i) ids →
  forward self ids features adj = (Raise IndexError, []).
Proof.
  intros Hex. unfold forward, _sample.
  by rewrite (index_out_of_range features ids Hex).
Qed.

Lemma forward_rejects_unknown_id_witness :
  forward Example.model [0; 4] Example.features Example.adj = (Raise IndexError, []).
Proof.
  apply (forward_rejects_unknown_id Example.model [0; 4] Example.features Example.adj).
  apply Exists_cons_tl, Exists_cons_hd. simpl. lia.
Defined.

(** X2: when the samplers before one return ids of the feature table and
    that one raises, the forward pass raises its error unchanged; every
    sampler up to it was called once, on the ids returned by the one before
    it, and no aggregator was called. *)
Theorem forward_propagates_sampler_error {R : Type} `{Scalar R} {Adj : Type}
    (self : GSSupervised.t R Adj) (ids : list nat) (features : Tensor.t R) (adj : Adj)
    (pre rest : list (list nat → Adj → sampled)) (fn : list nat → Adj → sampled)
    (fronts : list (list nat)) (code : nat) :
  sampler_fns self = pre ++ fn :: rest →
  sampled_ids pre ids adj = Some fronts →
  Forall (Forall (λ i, i < Tensor.rows features)) (ids :: fronts) →
  fn (default ids (last fronts)) adj = SamplerRaised code →
  forward self ids features adj
  = (Raise (SamplerError code), (λ f, sampler_call f adj) <$> (ids :: fronts)).
Proof.
  intros Hfns Hfr Hin Hfn.
  apply (forward_sampling_stops self ids features adj pre rest fn fronts); try done.
  - intros out. by rewrite Hfn.
  - intros code'. rewrite Hfn. by intros [= ->].
Qed.

Lemma forward_propagates_sampler_error_witness :
  forward
    (GSSupervised.mk [λ ids adj, Example.first_neighbor ids adj 2; Example.raising_sampler]
       (agg_layers Example.model) (fc Example.model) 0%Z 0%Z)
    Example.ids Example.features Example.adj
  = (Raise (SamplerError 7),
     [sampler_call [0; 1; 2] Example.adj; sampler_call [1; 1; 2; 2; 3; 3] Example.adj]).
Proof.
  apply (forward_propagates_sampler_error _ Example.ids Example.features Example.adj
           [λ ids adj, Example.first_neighbor ids adj 2] [] Example.raising_sampler
           [[1; 1; 2; 2; 3; 3]] 7).
  - reflexivity.
  - reflexivity.
  - repeat constructor; simpl; lia.
  - reflexivity.
Defined.

(** X3: when a sampler returns an id that is not a row of the feature
    table, the forward pass raises IndexError right after the call of that
    sampler, and no aggregator was called. *)
Theorem forward_rejects_unknown_sampled_id {R : Type} `{Scalar R} {Adj : Type}
    (self : GSSupervised.t R Adj) (ids : list nat) (features : Tensor.t R) (adj : Adj)
    (pre rest : list (list nat → Adj → sampled)) (fn : list nat → Adj → sampled)
    (fronts : list (list nat)) (out : list nat) :
  sampler_fns self = pre ++ fn :: rest →
  sampled_ids pre ids adj = Some fronts →
  Forall (Forall (λ i, i < Tensor.rows features)) (ids :: fronts) →
  fn (default ids (last fronts)) adj = Sampled out →
  Exists (λ i, Tensor.rows features ≤ i) out →
  forward self ids features adj
  = (Raise IndexError, (λ f, sampler_call f adj) <$> (ids :: fronts)).
Proof.
  intros Hfns Hfr Hin Hfn Hex.
  apply (forward_sampling_stops self ids features adj pre rest fn fronts); try done.
  - intros out'. rewrite Hfn. intros [= <-]. by apply index_out_of_range.
  - intros code. by rewrite Hfn.
Qed.

Lemma forward_rejects_unknown_sampled_id_witness :
  forward
    (GSSupervised.mk [Example.stray_sampler; λ ids adj, Example.first_neighbor ids adj 3]
       (agg_layers Example.model) (fc Example.model) 0%Z 0%Z)
    Example.ids Example.features Example.adj
  = (Raise IndexError, [sampler_call [0; 1; 2] Example.adj]).
Proof.
  apply (forward_rejects_unknown_sampled_id _ Example.ids Example.features Example.adj
           [] [λ ids adj, Example.first_neighbor ids adj 3] Example.stray_sampler
           [] [4; 5; 6]).
  - reflexivity.
  - reflexivity.
  - repeat constructor; simpl; lia.
  - reflexivity.
  - apply Exists_cons_hd. simpl. lia.
Defined.

(** X4: when the feature table does not have the width the model was built
    for, a forward pass whose sampling returns raises the shape error of the
    first projection: in the first aggregator call when there is a layer,
    in the classifier when there is none. *)
Theorem forward_wrong_feature_width {R : Type} `{Scalar R} {Adj : Type}
    (input_dim num_classes : nat) (layer_specs : list (GSSupervised.layer_spec R Adj))
    (learning_rate weight_decay : R) (draw : nat → list R)
    (self : GSSupervised.t R Adj) (ids : list nat) (features : Tensor.t R) (adj : Adj)
    (levels : list (Tensor.t R)) (t0 : list (GSSupervised.call R Adj)) :
  GSSupervised.init input_dim num_classes layer_specs learning_rate weight_decay draw
  = Ok self →
  _sample self ids features adj = (Ok levels, t0) →
  Tensor.cols features ≠ input_dim →
  ∃ t1, forward self ids features adj = (Raise (RuntimeError matmul_shape), t0 ++ t1)
        ∧ Forall2 (λ agg cl, ∃ x y, levels !! 0 = Some x ∧ levels !! 1 = Some y
                                    ∧ cl = agg_call agg x y)
            (take 1 (agg_layers self)) t1.
Proof.
  intros Hinit Hsam Hw. destruct layer_specs as [|spec specs].
  - apply init_Ok in Hinit as (Hfns & Haggs & Hfc). simpl in Hfns, Haggs.
    exists []. split; [|rewrite Haggs; constructor].
    destruct (proj1 (_sample_Ok _ _ _ _ _ _) Hsam) as (fronts & Hfr & Hlv & _).
    rewrite Hfns in Hfr. injection Hfr as <-.
    apply Forall2_cons_inv_l in Hlv as (x & lv & Hx & ->%Forall2_nil_inv_l & ->).
    apply index_Ok in Hx as [_ Hx].
    unfold forward. rewrite Hsam, Haggs, py_bind_unfold. simpl.
    rewrite app_nil_r. f_equal. unfold Linear.forward. rewrite Hfc. simpl.
    change (final_width input_dim []) with input_dim.
    destruct (Nat.eqb_spec (Tensor.cols x) input_dim); [congruence|done].
  - destruct (forward_first_call _ _ _ _ _ _ _ _ _ _ _ _ _ Hinit Hsam)
      as (agg & x & y & out & Hagg & Hd & _ & Hx & _ & Hl0 & Hl1 & Hfwd).
    exists [agg_call agg x y]. split.
    + apply Hfwd, forward_matmul_Raise. apply index_Ok in Hx as [_ ->]. congruence.
    + destruct (agg_layers self) as [|agg' aggs]; [done|]. injection Hagg as ->.
      simpl. repeat constructor. by exists x, y.
Qed.

Lemma forward_wrong_feature_width_witness :
  (forward Example.model Example.ids Example.wide_features Example.adj).1
  = Raise (RuntimeError matmul_shape).
Proof.
  edestruct (forward_wrong_feature_width 2 3 Example.layer_specs 0%Z 0%Z Example.draw
               Example.model Example.ids Example.wide_features Example.adj)
    as (t1 & Hfwd & _).
  - reflexivity.
  - vm_compute. reflexivity.
  - simpl. lia.
  - exact (f_equal fst Hfwd).
Defined.

(** X5: when the first sampler returns a number of ids that is not a
    multiple of the number of query ids, a forward pass whose sampling
    returns raises the shape error of the reshape in the first aggregator
    call, on the features of the query ids and those of the returned ids. *)
Theorem forward_rejects_short_sample {R : Type} `{Scalar R} {Adj : Type}
    (input_dim num_classes : nat) (spec : GSSupervised.layer_spec R Adj)
    (layer_specs : list (GSSupervised.layer_spec R Adj))
    (learning_rate weight_decay : R) (draw : nat → list R)
    (self : GSSupervised.t R Adj) (ids out : list nat) (features : Tensor.t R)
    (adj : Adj) (levels : list (Tensor.t R)) (t0 : list (GSSupervised.call R Adj)) :
  GSSupervised.init input_dim num_classes (spec :: layer_specs) learning_rate
    weight_decay draw = Ok self →
  _sample self ids features adj = (Ok levels, t0) →
  Tensor.cols features = input_dim → 0 < input_dim → ids ≠ [] →
  sample_fn spec ids adj (n_samples spec) = Sampled out →
  ¬ (length ids | length out) →
  ∃ agg x y,
    head (agg_layers self) = Some agg
    ∧ Tensor.index features ids = Ok x ∧ Tensor.index features out = Ok y
    ∧ forward self ids features adj
      = (Raise (RuntimeError invalid_view_shape), t0 ++ [agg_call agg x y]).
Proof.
  intros Hinit Hsam Hw Hd Hne Hout Hnd.
  destruct (forward_first_call _ _ _ _ _ _ _ _ _ _ _ _ _ Hinit Hsam)
    as (agg & x & y & out' & Hagg & Hin & Hout' & Hx & Hy & _ & _ & Hfwd).
  rewrite Hout in Hout'. injection Hout' as <-.
  exists agg, x, y. do 3 (split; [done|]).
  apply index_Ok in Hx as [Hxr Hxc]. apply index_Ok in Hy as [Hyr Hyc].
  apply Hfwd, forward_view_Raise; [congruence|].
  apply view_invalid.
  - by rewrite Hxr, Hyr.
  - rewrite Hxr. destruct ids; [done|simpl; lia].
  - lia.
Qed.

Lemma forward_rejects_short_sample_witness :
  (forward
     (GSSupervised.mk [λ ids adj, Example.short_sampler ids adj 2]
        [Example.agg0] (Linear.init 4 3 (Example.draw 2) (Some (Example.draw 3)))
        0%Z 0%Z)
     Example.ids Example.features Example.adj).1
  = Raise (RuntimeError invalid_view_shape).
Proof.
  edestruct (forward_rejects_short_sample 2 3
               (GSSupervised.mk_spec Example.short_sampler 2 2 (Some Example.relu)) []
               0%Z 0%Z Example.draw
               (GSSupervised.mk [λ ids adj, Example.short_sampler ids adj 2]
                  [Example.agg0]
                  (Linear.init 4 3 (Example.draw 2) (Some (Example.draw 3))) 0%Z 0%Z)
               Example.ids [0; 1] Example.features Example.adj)
    as (agg & x & y & _ & _ & _ & Hfwd).
  - reflexivity.
  - vm_compute. reflexivity.
  - reflexivity.
  - lia.
  - done.
  - reflexivity.
  - intros [k Hk]. simpl in Hk. lia.
  - exact (f_equal fst Hfwd).
Defined.

(** X6: a model with at least one layer never returns on an empty batch
    of query ids; when the sampling returns, the feature table has the
    width of the model and the first sampler returns no ids for no ids,
    what is raised is the error of a reshape whose free dimension cannot be
    inferred. *)
Theorem forward_empty_batch_raises {R : Type} `{Scalar R} {Adj : Type}
    (input_dim num_classes : nat) (spec : GSSupervised.layer_spec R Adj)
    (layer_specs : list (GSSupervised.layer_spec R Adj))
    (learning_rate weight_decay : R) (draw : nat → list R)
    (self : GSSupervised.t R Adj) (features : Tensor.t R) (adj : Adj) :
  GSSupervised.init input_dim num_classes (spec :: layer_specs) learning_rate
    weight_decay draw = Ok self →
  raises (forward self [] features adj).1
  ∧ (∀ levels t0,
       _sample self [] features adj = (Ok levels, t0) →
       Tensor.cols features = input_dim →
       sample_fn spec [] adj (n_samples spec) = Sampled [] →
       (forward self [] features adj).1 = Raise (RuntimeError ambiguous_view_shape)).
Proof.
  intros Hinit. split.
  - destruct (_sample self [] features adj) as [[levels|e] t0] eqn:Hsam.
    + destruct (forward_first_call _ _ _ _ _ _ _ _ _ _ _ _ _ Hinit Hsam)
        as (agg & x & y & out & _ & _ & _ & Hx & _ & _ & _ & Hfwd).
      apply index_Ok in Hx as [Hxr _].
      destruct (forward_raises_of_view agg x y) as [e He].
      { apply view_degenerate. by left. }
      exists e. by rewrite (Hfwd e He).
    + exists e. unfold forward. by rewrite Hsam.
  - intros levels t0 Hsam Hw Hout.
    destruct (forward_first_call _ _ _ _ _ _ _ _ _ _ _ _ _ Hinit Hsam)
      as (agg & x & y & out & _ & Hin & Hout' & Hx & Hy & _ & _ & Hfwd).
    rewrite Hout in Hout'. injection Hout' as <-.
    apply index_Ok in Hx as [Hxr Hxc]. apply index_Ok in Hy as [Hyr Hyc].
    rewrite (Hfwd (RuntimeError ambiguous_view_shape)); [done|].
    apply forward_view_Raise; [congruence|].
    rewrite Hxr. by apply view_empty.
Qed.

Lemma forward_empty_batch_raises_witness :
  (forward Example.model [] Example.features Example.adj).1
  = Raise (RuntimeError ambiguous_view_shape).
Proof.
  edestruct (forward_empty_batch_raises 2 3
               (GSSupervised.mk_spec Example.first_neighbor 2 2 (Some Example.relu))
               [GSSupervised.mk_spec Example.first_neighbor 3 1 None]
               0%Z 0%Z Example.draw Example.model Example.features Example.adj)
    as [_ Hamb].
  - reflexivity.
  - eapply Hamb.
    + vm_compute. reflexivity.
    + reflexivity.
    + reflexivity.
Defined.

(** X7: whenever the forward pass of a model built by [__init__] returns,
    the logits have one row per query id and one column per class, and
    their storage holds exactly that many values, whatever the samplers
    returned. *)
Theorem forward_logits_shape {R : Type} `{Scalar R} {Adj : Type}
    (input_dim num_classes : nat) (layer_specs : list (GSSupervised.layer_spec R Adj))
    (learning_rate weight_decay : R) (draw : nat → list R)
    (self : GSSupervised.t R Adj) (ids : list nat) (features logits : Tensor.t R)
    (adj : Adj) (tr : list (GSSupervised.call R Adj)) :
  GSSupervised.init input_dim num_classes layer_specs learning_rate weight_decay draw
  = Ok self →
  forward self ids features adj = (Ok logits, tr) →
  Tensor.rows logits = length ids ∧ Tensor.cols logits = num_classes
  ∧ Tensor.wf logits.
Proof.
  intros Hinit (levels & t0 & final & t1 & Hsam & Hloop & Hfc & _)%forward_Ok_finish.
  pose proof (init_lengths _ _ _ _ _ _ _ Hinit) as (_ & _ & Hdef).
  apply init_Ok in Hinit as (_ & _ & Hfcq).
  destruct (proj1 (_sample_Ok _ _ _ _ _ _) Hsam) as (fronts & _ & Hlv & _).
  apply Forall2_cons_inv_l in Hlv as (x & lv & Hx & _ & ->).
  apply index_Ok in Hx as [Hxr _].
  pose proof (reduce_loop_post (Adj:=Adj) (agg_layers self) (x :: lv)
                (λ lv, ∀ x, head lv = Some x → Tensor.rows x = length ids)
                (λ _, True) (λ _, True)) as Hpost.
  rewrite Hloop in Hpost. destruct Hpost as [[Hhead _] _].
  - intros x' [= <-]. exact Hxr.
  - intros agg lv' Hagg Hinv. apply reduce_round_head_rows; [|done].
    rewrite Forall_forall in Hdef. by apply Hdef.
  - pose proof (linear_forward_wf _ _ _ Hfc) as Hwf.
    apply linear_forward_Ok in Hfc as (_ & Hr & Hc).
    rewrite Hr, Hc, Hfcq. simpl. split; [by apply Hhead|done].
Qed.

Lemma forward_logits_shape_witness :
  Tensor.rows Example.logits = 3 ∧ Tensor.cols Example.logits = 3
  ∧ Tensor.wf Example.logits.
Proof.
  eapply (forward_logits_shape 2 3 Example.layer_specs 0%Z 0%Z Example.draw
            Example.model Example.ids Example.features Example.logits Example.adj).
  - reflexivity.
  - vm_compute. reflexivity.
Defined.

(** X8: whatever its outcome, a forward pass first calls samplers, at most
    one per layer, and then aggregators, and makes no other call; when the
    sampling raises, its error is the error of the forward pass and no
    aggregator is called. *)
Theorem forward_samples_before_aggregating {R : Type} `{Scalar R} {Adj : Type}
    (self : GSSupervised.t R Adj) (ids : list nat) (features : Tensor.t R) (adj : Adj) :
  ∃ t1, (forward self ids features adj).2 = (_sample self ids features adj).2 ++ t1
    ∧ Forall is_sampler_call (_sample self ids features adj).2
    ∧ length (_sample self ids features adj).2 ≤ length (sampler_fns self)
    ∧ Forall is_agg_call t1
    ∧ ∀ e, (_sample self ids features adj).1 = Raise e →
           (forward self ids features adj).1 = Raise e ∧ t1 = [].
Proof.
  pose proof (post_calls _ _ _ _ (_sample_length self ids features adj)) as Hcalls.
  assert (Hle : length (_sample self ids features adj).2 ≤ length (sampler_fns self)).
  { unfold _sample, lift. rewrite py_bind_unfold. cbn [fst snd].
    destruct (Tensor.index features ids); cbn [fst snd app length]; [|lia].
    apply sample_loop_calls. }
  unfold forward. rewrite py_bind_unfold.
  destruct (_sample self ids features adj) as [[levels|e] t0]; cbn [fst snd] in *.
  - eexists. split; [done|]. split; [done|]. split; [done|]. split; [|done].
    rewrite py_bind_unfold.
    pose proof (reduce_loop_agg_calls (Adj:=Adj) (agg_layers self) levels) as Hagg.
    destruct (reduce_loop (agg_layers self) levels) as [[final|e] t1];
      cbn [fst snd] in *; [|done].
    by rewrite finish_calls, app_nil_r.
  - exists []. rewrite app_nil_r. do 4 (split; [done|]).
    by intros e' [= ->].
Qed.

(** X9: a forward pass of a model of L layers that returns has made L
    sampler calls followed by L (L + 1) / 2 aggregator calls. *)
Theorem forward_call_counts {R : Type} `{Scalar R} {Adj : Type}
    (input_dim num_classes : nat) (layer_specs : list (GSSupervised.layer_spec R Adj))
    (learning_rate weight_decay : R) (draw : nat → list R)
    (self : GSSupervised.t R Adj) (ids : list nat) (features logits : Tensor.t R)
    (adj : Adj) (tr : list (GSSupervised.call R Adj)) :
  GSSupervised.init input_dim num_classes layer_specs learning_rate weight_decay draw
  = Ok self →
  forward self ids features adj = (Ok logits, tr) →
  ∃ t0 t1, tr = t0 ++ t1
    ∧ Forall is_sampler_call t0 ∧ length t0 = length layer_specs
    ∧ Forall is_agg_call t1
    ∧ 2 * length t1 = length layer_specs * (length layer_specs + 1).
Proof.
  intros (Hs & Ha & _)%init_lengths (levels & t0 & final & t1 & Hsam & Hloop & ->)%forward_Ok.
  exists t0, t1. split; [done|].
  pose proof (post_calls _ _ _ _ (_sample_length self ids features adj)) as Hcalls.
  pose proof (post_value _ _ _ _ levels (_sample_length self ids features adj)) as Hlen.
  pose proof (reduce_loop_agg_calls (Adj:=Adj) (agg_layers self) levels) as Hagg.
  destruct (proj1 (_sample_Ok _ _ _ _ _ _) Hsam) as (fronts & Hfr & _ & Ht0).
  apply sampled_ids_length in Hfr.
  rewrite Hsam in Hcalls, Hlen. rewrite Hloop in Hagg. cbn [fst snd] in *.
  split; [done|]. split.
  { rewrite Ht0, length_fmap, length_take. simpl. lia. }
  split; [done|].
  apply applied_aggs_loop in Hloop as [Happ _].
  rewrite <-(length_applied_aggs t1 Hagg), Happ, (Hlen eq_refl), Hs, <-Ha.
  apply length_schedule.
Qed.

Lemma forward_call_counts_witness :
  ∃ t0 t1 : list (GSSupervised.call Z (list (list nat))),
    (forward Example.model Example.ids Example.features Example.adj).2 = t0 ++ t1
    ∧ Forall is_sampler_call t0 ∧ length t0 = 2
    ∧ Forall is_agg_call t1 ∧ 2 * length t1 = 2 * (2 + 1).
Proof.
  eapply (forward_call_counts 2 3 Example.layer_specs 0%Z 0%Z Example.draw
            Example.model Example.ids Example.features Example.logits Example.adj).
  - reflexivity.
  - vm_compute. reflexivity.
Defined.

(** X10: the sampling returns exactly when every sampler returns on the
    ids returned by the one before it (the first on the query ids) and all
    these ids are rows of the feature table; the levels are then the
    features of the query ids and of the ids returned by every sampler, in
    this order, and every sampler was called once, with the same adjacency
    structure. *)
Theorem sampling_follows_frontiers {R : Type} `{Scalar R} {Adj : Type}
    (self : GSSupervised.t R Adj) (ids : list nat) (features : Tensor.t R) (adj : Adj)
    (levels : list (Tensor.t R)) (tr : list (GSSupervised.call R Adj)) :
  _sample self ids features adj = (Ok levels, tr) ↔
  ∃ fronts,
    sampled_ids (sampler_fns self) ids adj = Some fronts
    ∧ Forall2 (λ f lvl, Tensor.index features f = Ok lvl) (ids :: fronts) levels
    ∧ tr = (λ f, sampler_call f adj)
             <$> take (length (sampler_fns self)) (ids :: fronts).
Proof.
  unfold _sample. rewrite py_bind_Ok. split.
  - intros (feats & t1 & t2 & [Hfeats ->]%lift_Ok
            & (fronts & lvls & Hfr & Hlv & -> & ->)%sample_loop_Ok & ->).
    exists fronts. split; [done|]. split; [by constructor|done].
  - intros (fronts & Hfr & Hlv & ->).
    apply Forall2_cons_inv_l in Hlv as (feats & lvls & Hfeats & Hlv & ->).
    exists feats, [],
      ((λ f, sampler_call f adj) <$> take (length (sampler_fns self)) (ids :: fronts)).
    split; [by apply lift_Ok|]. split; [|done].
    apply sample_loop_Ok. by exists fronts, lvls.
Qed.

(** X11: on a feature table whose storage holds rows x cols values, every
    tensor that a forward pass of a model built by [__init__] hands to an
    aggregator holds as many values as its shape says, whatever the
    samplers return and whether the pass returns or raises. *)
Theorem aggregators_receive_wellformed_tensors {R : Type} `{Scalar R} {Adj : Type}
    (input_dim num_classes : nat) (layer_specs : list (GSSupervised.layer_spec R Adj))
    (learning_rate weight_decay : R) (draw : nat → list R)
    (self : GSSupervised.t R Adj) (ids : list nat) (features : Tensor.t R) (adj : Adj) :
  GSSupervised.init input_dim num_classes layer_specs learning_rate weight_decay draw
  = Ok self →
  Tensor.wf features →
  Forall (agg_call_args Tensor.wf) (forward self ids features adj).2.
Proof.
  intros (Hs & Ha & Hdef)%init_lengths Hwf.
  apply forward_call_args; [congruence| |].
  - intros ids' x. by apply index_wf.
  - intros agg x y out Hin _ _. apply forward_wf.
    rewrite Forall_forall in Hdef. by apply Hdef.
Qed.

Lemma aggregators_receive_wellformed_tensors_witness :
  Forall (agg_call_args Tensor.wf)
    (forward Example.model Example.ids Example.features Example.adj).2.
Proof.
  apply (aggregators_receive_wellformed_tensors 2 3 Example.layer_specs 0%Z 0%Z
           Example.draw).
  - reflexivity.
  - reflexivity.
Defined.

(** X12: in a forward pass on a non-empty batch, with samplers that keep
    the output-length contract, positive sample counts and widths and a
    well-formed feature table of the width of the model, every aggregator
    call pools whole groups: it is made on a level and one of n_samples
    times as many rows, for the n_samples of one of the layers, and returns
    what the aggregation by groups of n_samples consecutive rows returns. *)
Theorem aggregator_calls_pool_groups {R : Type} `{Scalar R} {Adj : Type}
    (input_dim num_classes : nat) (layer_specs : list (GSSupervised.layer_spec R Adj))
    (learning_rate weight_decay : R) (draw : nat → list R)
    (self : GSSupervised.t R Adj) (ids : list nat) (features : Tensor.t R) (adj : Adj)
    (agg : MeanAggregator.t R) (x y : Tensor.t R) :
  GSSupervised.init input_dim num_classes layer_specs learning_rate weight_decay draw
  = Ok self →
  Forall sampler_contract layer_specs → Forall positive_spec layer_specs →
  ids ≠ [] → Tensor.wf features → Tensor.cols features = input_dim → 0 < input_dim →
  agg_call agg x y ∈ (forward self ids features adj).2 →
  ∃ k spec,
    layer_specs !! k = Some spec
    ∧ Tensor.rows y = Tensor.rows x * n_samples spec
    ∧ MeanAggregator.forward agg x y = Spec.aggregate (n_samples spec) agg x y.
Proof.
  intros Hinit Hcontract Hpos Hne Hwf Hw Hd Hin.
  pose proof (post_calls _ _ _ _
                (forward_rows _ _ _ _ _ _ _ ids features adj Hinit Hcontract)) as Hratio.
  pose proof (init_lengths _ _ _ _ _ _ _ Hinit) as (Hs & Ha & Hdef).
  pose proof (init_Ok _ _ _ _ _ _ _ Hinit) as (_ & Haggs & _).
  assert (Hargs : Forall (agg_call_args (λ t, Tensor.wf t ∧ 0 < Tensor.cols t))
                    (forward self ids features adj).2).
  { apply forward_call_args; [congruence| |].
    - intros ids' x' Hx'. split; [by eapply index_wf|].
      apply index_Ok in Hx' as [_ ->]. lia.
    - intros agg' x' y' out Hagg' _ _ Hout.
      assert (MeanAggregator.combine_fn agg' = MeanAggregator.default_combine_fn)
        as Hdef' by (rewrite Forall_forall in Hdef; by apply Hdef).
      split; [by eapply forward_wf|].
      apply (forward_default_shape _ _ _ _ Hdef') in Hout as [_ ->].
      apply list_elem_of_lookup_1 in Hagg' as [i Hi]. rewrite Haggs in Hi.
      apply layers_of_lookup in Hi as (spec & Hspec & ->). simpl.
      rewrite Forall_forall in Hpos.
      destruct (Hpos spec) as [_ Ho]; [by eapply list_elem_of_lookup_2|]. lia. }
  rewrite Forall_forall in Hratio, Hargs.
  destruct (Hratio _ Hin) as (k & n & Hn & Hx & Hy).
  destruct (Hargs _ Hin) as [_ [Hywf Hycols]].
  rewrite list_lookup_fmap in Hn.
  destruct (layer_specs !! k) as [spec|] eqn:Hspec; [|done]. injection Hn as <-.
  exists k, spec. split; [done|]. split; [done|].
  apply forward_pooled; [done| |done|done].
  rewrite Hx. apply Nat.mul_pos_pos; [destruct ids; [done|simpl; lia]|].
  apply prod_list_pos, Forall_take, Forall_fmap.
  eapply Forall_impl; [exact Hpos|]. by intros s [? _].
Qed.

Lemma aggregator_calls_pool_groups_witness :
  ∃ k spec,
    Example.layer_specs !! k = Some spec
    ∧ Tensor.rows (Tensor.mk 6 2 [3; 4; 3; 4; 5; 6; 5; 6; 7; 8; 7; 8]%Z)
      = Tensor.rows (Tensor.mk 3 2 [1; 2; 3; 4; 5; 6]%Z) * n_samples spec
    ∧ MeanAggregator.forward Example.agg0 (Tensor.mk 3 2 [1; 2; 3; 4; 5; 6]%Z)
        (Tensor.mk 6 2 [3; 4; 3; 4; 5; 6; 5; 6; 7; 8; 7; 8]%Z)
      = Spec.aggregate (n_samples spec) Example.agg0 (Tensor.mk 3 2 [1; 2; 3; 4; 5; 6]%Z)
          (Tensor.mk 6 2 [3; 4; 3; 4; 5; 6; 5; 6; 7; 8; 7; 8]%Z).
Proof.
  apply (aggregator_calls_pool_groups 2 3 Example.layer_specs 0%Z 0%Z Example.draw
           Example.model Example.ids Example.features Example.adj).
  - reflexivity.
  - repeat constructor; apply first_neighbor_contract.
  - repeat constructor; simpl; lia.
  - done.
  - reflexivity.
  - reflexivity.
  - lia.
  - apply (list_elem_of_lookup_2 _ 2). vm_compute. reflexivity.
Defined.

(** X13: under the default combine function, row i of what an aggregator
    returns is computed from row i of the self features and from the i-th
    group of n_samples consecutive rows of the neighbor features alone: it
    is the projection of the row followed by the projection of the mean of
    the group, passed through the activation. *)
Theorem aggregator_output_row {R : Type} `{Scalar R}
    (agg : MeanAggregator.t R) (x neibs out : Tensor.t R) (n i : nat) :
  MeanAggregator.combine_fn agg = MeanAggregator.default_combine_fn →
  MeanAggregator.forward agg x neibs = Ok out →
  Tensor.wf neibs → Tensor.rows neibs = Tensor.rows x * n → i < Tensor.rows x →
  Tensor.row out i
  = Spec.aggregate_row agg (Tensor.cols neibs) (Tensor.row x i)
      (take n (drop (i * n) (Spec.rows_of neibs))).
Proof.
  intros Hdef Hfwd Hwf Hrows Hi.
  assert (0 < Tensor.cols neibs) as Hcols.
  { revert Hfwd. unfold MeanAggregator.forward.
    intros (x_emb & _ & (a & Ha & _)%bind_Ok)%bind_Ok.
    assert (is_ok (Tensor.view neibs (Tensor.rows x) (Tensor.cols neibs))) as Hok
      by (by exists a).
    apply view_Ok_iff in Hok as [Hpos _]. nia. }
  rewrite (forward_pooled agg x neibs n) in Hfwd by (done || lia).
  revert Hfwd. unfold Spec.aggregate.
  intros (x_emb & Hx & (neib_emb & Hn & (c & Hc & Hout)%bind_Ok)%bind_Ok)%bind_Ok.
  injection Hout as <-. rewrite Hdef in Hc.
  pose proof (linear_forward_wf _ _ _ Hx) as Hxwf.
  pose proof (linear_forward_wf _ _ _ Hn) as Hnwf.
  pose proof (linear_forward_Ok _ _ _ Hx) as (_ & Hxr & _).
  pose proof (linear_forward_Ok _ _ _ Hn) as (_ & Hnr & _).
  simpl in Hnr.
  assert (Tensor.row c i = Tensor.row x_emb i ++ Tensor.row neib_emb i) as Hrow.
  { apply cat_dim1_row; [done|done|congruence|lia|done]. }
  rewrite (linear_forward_row _ _ _ i Hx), (linear_forward_row _ _ _ i Hn) in Hrow
    by done.
  rewrite pool_row in Hrow by done.
  unfold Spec.aggregate_row. cbv zeta.
  destruct (MeanAggregator.activation agg); [rewrite map_row|]; by rewrite Hrow.
Qed.

Lemma aggregator_output_row_witness :
  Tensor.row (Tensor.mk 2 6 [1; 2; 3; 0; 4; 6; 3; 4; 7; 0; 12; 14]%Z) 1
  = Spec.aggregate_row Example.agg 2 (Tensor.row Example.x 1)
      (take 2 (drop (1 * 2) (Spec.rows_of Example.neibs))).
Proof.
  apply (aggregator_output_row Example.agg Example.x Example.neibs _ 2 1).
  - reflexivity.
  - vm_compute. reflexivity.
  - reflexivity.
  - reflexivity.
  - simpl. lia.
Defined.

(** X14: in a forward pass that returns, on a well-formed feature table,
    the logits of query id i are the projection by the classifier, bias
    included, of row i of the single level left by the reduction, divided
    by its norm: every row is classified on its own. *)
Theorem logits_row_by_row {R : Type} `{Scalar R} {Adj : Type}
    (input_dim num_classes : nat) (layer_specs : list (GSSupervised.layer_spec R Adj))
    (learning_rate weight_decay : R) (draw : nat → list R)
    (self : GSSupervised.t R Adj) (ids : list nat) (features logits : Tensor.t R)
    (adj : Adj) (tr : list (GSSupervised.call R Adj)) :
  GSSupervised.init input_dim num_classes layer_specs learning_rate weight_decay draw
  = Ok self →
  Tensor.wf features →
  forward self ids features adj = (Ok logits, tr) →
  ∃ levels t0 final (t1 : list (GSSupervised.call R Adj)),
    _sample self ids features adj = (Ok levels, t0)
    ∧ reduce_loop (agg_layers self) levels = (Ok [final], t1)
    ∧ ∀ i, i < Tensor.rows final →
        Tensor.row logits i
        = Spec.project (fc self) (Tensor.normalize_row (Tensor.row final i)).
Proof.
  intros (_ & _ & Hdef)%init_lengths Hwf
    (levels & t0 & final & t1 & Hsam & Hloop & Hfc & _)%forward_Ok_finish.
  exists levels, t0, final, t1. split; [done|]. split; [done|].
  assert (Forall Tensor.wf levels) as Hlv.
  { destruct (proj1 (_sample_Ok _ _ _ _ _ _) Hsam) as (fronts & _ & Hlv & _).
    apply Forall_forall. intros lvl [k Hk]%list_elem_of_lookup_1.
    destruct (Forall2_lookup_r _ _ _ _ _ Hlv Hk) as (f & _ & Hf).
    by eapply index_wf. }
  pose proof (reduce_loop_wf (Adj:=Adj) _ _ Hdef Hlv) as [Hfinal _].
  rewrite Hloop in Hfinal. destruct Hfinal as [Hfinal _].
  rewrite Forall_singleton in Hfinal.
  intros i Hi. rewrite (linear_forward_row _ _ _ i Hfc) by done.
  by rewrite normalize_row_eq by done.
Qed.

Lemma logits_row_by_row_witness :
  ∃ levels t0 final (t1 : list (GSSupervised.call Z (list (list nat)))),
    _sample Example.model Example.ids Example.features Example.adj = (Ok levels, t0)
    ∧ reduce_loop (agg_layers Example.model) levels = (Ok [final], t1)
    ∧ ∀ i, i < Tensor.rows final →
        Tensor.row Example.logits i
        = Spec.project (fc Example.model) (Tensor.normalize_row (Tensor.row final i)).
Proof.
  eapply (logits_row_by_row 2 3 Example.layer_specs 0%Z 0%Z Example.draw
            Example.model Example.ids Example.features Example.logits Example.adj).
  - reflexivity.
  - reflexivity.
  - vm_compute. reflexivity.
Defined.

(** X15: under the default combine function an aggregator returns exactly
    when both batches have the input width of its projections, neither the
    self batch nor the width is empty, and the number of self rows divides
    the number of neighbor rows; what it raises otherwise is the error of a
    projection or of the reshape, never that of the concatenation. *)
Theorem aggregator_returns_iff {R : Type} `{Scalar R}
    (agg : MeanAggregator.t R) (x neibs : Tensor.t R) :
  MeanAggregator.combine_fn agg = MeanAggregator.default_combine_fn →
  (is_ok (MeanAggregator.forward agg x neibs) ↔
   Tensor.cols x = Linear.in_features (MeanAggregator.fc_x agg)
   ∧ Tensor.cols neibs = Linear.in_features (MeanAggregator.fc_neib agg)
   ∧ 0 < Tensor.rows x ∧ 0 < Tensor.cols neibs
   ∧ (Tensor.rows x | Tensor.rows neibs))
  ∧ ∀ e, MeanAggregator.forward agg x neibs = Raise e →
         e = RuntimeError matmul_shape ∨ e = RuntimeError invalid_view_shape
         ∨ e = RuntimeError ambiguous_view_shape.
Proof.
  intros Hdef. split; [|intros e; by apply forward_default_cat]. split.
  - intros [out Hout]. revert Hout. unfold MeanAggregator.forward.
    intros (x_emb & Hx & (a & Ha & (neib_emb & Hn & _)%bind_Ok)%bind_Ok)%bind_Ok.
    apply linear_forward_Ok in Hx as (Hxc & _ & _).
    apply linear_forward_Ok in Hn as (Hnc & _ & _).
    assert (is_ok (Tensor.view neibs (Tensor.rows x) (Tensor.cols neibs))) as Hok
      by (by exists a).
    apply view_Ok in Ha. subst a. simpl in Hnc.
    pose proof (view_Ok_divide _ _ Hok) as Hdiv.
    apply view_Ok_iff in Hok as [Hpos _].
    split; [done|]. split; [done|]. split; [nia|]. split; [nia|done].
  - intros (Hxc & Hnc & Hr & Hc & [k Hk]).
    apply (forward_accepts agg x neibs k); try done. lia.
Qed.

Lemma aggregator_returns_iff_witness :
  is_ok (MeanAggregator.forward Example.agg Example.x Example.neibs).
Proof.
  apply (proj1 (aggregator_returns_iff Example.agg Example.x Example.neibs eq_refl)).
  simpl. split; [done|]. split; [done|]. split; [lia|]. split; [lia|].
  by exists 2.
Defined.

(** X16: the assertion of the forward pass guards the number of layers:
    a forward pass returns only when the model has as many aggregators as
    samplers, and, under the default combine function, it raises
    AssertionError exactly when both the sampling and the reduction return
    and the two numbers differ. *)
Theorem assertion_guards_layer_count {R : Type} `{Scalar R} {Adj : Type}
    (self : GSSupervised.t R Adj) (ids : list nat) (features : Tensor.t R) (adj : Adj) :
  Forall (λ agg, MeanAggregator.combine_fn agg = MeanAggregator.default_combine_fn)
    (agg_layers self) →
  (is_ok (forward self ids features adj).1 →
   length (agg_layers self) = length (sampler_fns self))
  ∧ ((forward self ids features adj).1 = Raise AssertionError ↔
     length (agg_layers self) ≠ length (sampler_fns self)
     ∧ ∃ levels t0 final (t1 : list (GSSupervised.call R Adj)),
         _sample self ids features adj = (Ok levels, t0)
         ∧ reduce_loop (agg_layers self) levels = (Ok final, t1)).
Proof.
  intros Hdef.
  assert (Hlen : ∀ levels t0 final (t1 : list (GSSupervised.call R Adj)),
            _sample self ids features adj = (Ok levels, t0) →
            reduce_loop (agg_layers self) levels = (Ok final, t1) →
            length final = length (sampler_fns self) + 1 - length (agg_layers self)).
  { intros levels t0 final t1 Hsam (_ & ->)%applied_aggs_loop.
    pose proof (post_value _ _ _ _ levels (_sample_length self ids features adj)) as Hl.
    rewrite Hsam in Hl. by rewrite (Hl eq_refl). }
  split.
  - intros [logits Hfwd].
    destruct (forward self ids features adj) as [r tr] eqn:Heq. simpl in Hfwd. subst r.
    apply forward_Ok_finish in Heq as (levels & t0 & final & t1 & Hsam & Hloop & _).
    pose proof (Hlen _ _ _ _ Hsam Hloop) as Hl. simpl in Hl. lia.
  - split.
    + unfold forward. rewrite py_bind_unfold.
      pose proof (post_exn _ _ _ _ AssertionError
                    (_sample_length self ids features adj)) as Hse.
      destruct (_sample self ids features adj) as [[levels|e] t0] eqn:Hsam;
        cbn [fst snd] in *.
      2:{ intros [= ->]. by destruct (Hse eq_refl) as [?|[? ?]]. }
      rewrite py_bind_unfold.
      pose proof (reduce_loop_post (Adj:=Adj) (agg_layers self) levels (λ _, True)
                    (λ e, sample_error e ∨ torch_runtime_error e) (λ _, True) I) as Hpost.
      destruct (reduce_loop (agg_layers self) levels) as [[final|e] t1] eqn:Hloop;
        cbn [fst snd] in *.
      * intros Hfin%finish_assertion. pose proof (Hlen _ _ _ _ eq_refl Hloop) as Hl.
        split; [lia|]. by exists levels, t0, final, t1.
      * intros [= ->]. destruct Hpost as [[[?|[? ?]]|[? ?]] _]; try done.
        intros agg lv Hagg _. apply reduce_round_default.
        rewrite Forall_forall in Hdef. by apply Hdef.
    + intros (Hne & levels & t0 & final & t1 & Hsam & Hloop).
      unfold forward. rewrite Hsam, py_bind_unfold. cbn [fst snd].
      rewrite Hloop, py_bind_unfold. cbn [fst snd].
      apply finish_assertion. rewrite (Hlen _ _ _ _ Hsam Hloop). lia.
Qed.

Lemma assertion_guards_layer_count_witness :
  (forward
     (GSSupervised.mk (sampler_fns Example.model) [Example.agg0] (fc Example.model)
        0%Z 0%Z)
     Example.ids Example.features Example.adj).1
  = Raise AssertionError.
Proof.
  apply (assertion_guards_layer_count
           (GSSupervised.mk (sampler_fns Example.model) [Example.agg0]
              (fc Example.model) 0%Z 0%Z)
           Example.ids Example.features Example.adj).
  - by repeat constructor.
  - split; [simpl; lia|]. do 4 eexists. split.
    + vm_compute. reflexivity.
    + vm_compute. reflexivity.
Defined.

(** X17: the adjacency structure reaches the samplers only: with samplers
    that return the same on two adjacency structures, the forward pass has
    the same outcome on both, and makes the same calls but for the
    adjacency structure handed to the samplers. *)
Theorem adjacency_reaches_samplers_only {R : Type} `{Scalar R} {Adj : Type}
    (self : GSSupervised.t R Adj) (ids : list nat) (features : Tensor.t R)
    (adj adj' : Adj) :
  Forall (λ fn, ∀ ids', fn ids' adj = fn ids' adj') (sampler_fns self) →
  (forward self ids features adj').1 = (forward self ids features adj).1
  ∧ (forward self ids features adj').2
    = (λ c, match c with sampler_call ids' _ => sampler_call ids' adj' | _ => c end)
        <$> (forward self ids features adj).2.
Proof.
  intros Hfns.
  assert (Hsam : _sample self ids features adj'
            = ((_sample self ids features adj).1,
               (λ c, match c with sampler_call ids' _ => sampler_call ids' adj' | _ => c end)
                 <$> (_sample self ids features adj).2)).
  { unfold _sample, lift. rewrite !py_bind_unfold. cbn [fst snd].
    destruct (Tensor.index features ids) as [feats|e]; cbn [fst snd app]; [|done].
    by rewrite (sample_loop_adj _ _ _ adj adj' _ Hfns). }
  unfold forward. rewrite Hsam, !(py_bind_unfold (_, _)),
    !(py_bind_unfold (_sample _ _ _ _)). cbn [fst snd].
  destruct (_sample self ids features adj).1 as [levels|e]; cbn [fst snd]; [|done].
  split; [done|]. rewrite fmap_app. f_equal. symmetry.
  apply fmap_agg_calls; [done|]. apply reduce_finish_agg_calls.
Qed.

Lemma adjacency_reaches_samplers_only_witness :
  (forward
     (GSSupervised.mk [λ ids adj, Example.short_sampler ids adj 2; Example.stray_sampler]
        (agg_layers Example.model) (fc Example.model) 0%Z 0%Z)
     [0; 1] Example.features []).1
  = (forward
       (GSSupervised.mk [λ ids adj, Example.short_sampler ids adj 2; Example.stray_sampler]
          (agg_layers Example.model) (fc Example.model) 0%Z 0%Z)
       [0; 1] Example.features Example.adj).1.
Proof.
  apply (adjacency_reaches_samplers_only
           (GSSupervised.mk
              [λ ids adj, Example.short_sampler ids adj 2; Example.stray_sampler]
              (agg_layers Example.model) (fc Example.model) 0%Z 0%Z)
           [0; 1] Example.features Example.adj []).
  by repeat constructor.
Defined.
